(** * PMA Weather: the browser client ([App.jsx], [api.js]) in Rocq

    The client is embedded shallowly.  The first half of the file holds the
    definitions: a model of the parts of the JavaScript runtime the client
    calls (strings, regular expressions, numbers, JSON), then the functions of
    [api.js] and [App.jsx] under the names they have in the source.  The second
    half holds the statements proved about them. *)

From Stdlib Require Import String Ascii.
From Stdlib Require Import ZArith NArith List Bool Lia.
From Stdlib Require Import PrimFloat SpecFloat FloatOps.
Import ListNotations.

Set Implicit Arguments.
Set Warnings "-register-all,-inexact-float".

(** ** Strings

    A JavaScript string is a sequence of UTF-16 code units. *)

Definition char16 := N.
Definition jsstring := list char16.

(** A source literal made of ASCII characters only. *)
Definition lit (s : string) : jsstring :=
  map N_of_ascii (list_ascii_of_string s).

(** The code units of a text given by its code points. *)
Definition utf16 (cps : list N) : jsstring :=
  flat_map (fun cp =>
              if (cp <? 65536)%N then [cp]
              else [(55296 + (cp - 65536) / 1024)%N;
                    (56320 + (cp - 65536) mod 1024)%N]) cps.

(** [WhiteSpace] and [LineTerminator] of ECMAScript: what [String.prototype.trim]
    removes and what the class [\s] of a regular expression matches. *)
Definition is_ws (c : char16) : bool :=
  ((9 <=? c) && (c <=? 13)            (* TAB LF VT FF CR *)
   || (c =? 32) || (c =? 160)         (* SP NBSP *)
   || (c =? 5760)                     (* U+1680 *)
   || ((8192 <=? c) && (c <=? 8202))  (* U+2000 .. U+200A *)
   || (c =? 8232) || (c =? 8233)      (* LS PS *)
   || (c =? 8239) || (c =? 8287)      (* U+202F U+205F *)
   || (c =? 12288) || (c =? 65279))%N (* U+3000 U+FEFF *).

(** The class [\d]. *)
Definition is_digit (c : char16) : bool := ((48 <=? c) && (c <=? 57))%N.

Fixpoint trimStart (s : jsstring) : jsstring :=
  match s with
  | c :: s' => if is_ws c then trimStart s' else s
  | [] => []
  end.

Definition trimEnd (s : jsstring) : jsstring := rev (trimStart (rev s)).

Definition trim (s : jsstring) : jsstring := trimEnd (trimStart s).

Fixpoint str_eqb (a b : jsstring) : bool :=
  match a, b with
  | [], [] => true
  | x :: a', y :: b' => (x =? y)%N && str_eqb a' b'
  | _, _ => false
  end.

(** ** Regular expressions

    The fragment of the regular expression syntax the client uses, matched the
    way the runtime does it: by backtracking, greedy quantifiers first, with a
    continuation for what follows.  None of the client's patterns carries the
    [m], [i], [u], [g] or [y] flag. *)

Inductive regex : Type :=
| Eps
| Bol                            (* ^ *)
| Eol                            (* $ *)
| Cls (p : char16 -> bool)       (* a character, a class, or . *)
| Seq (a b : regex)
| Alt (a b : regex)
| Star (a : regex).              (* greedy * *)

(** Literal characters, one after the other. *)
Definition Lit (s : string) : regex :=
  fold_right (fun c r => Seq (Cls (N.eqb c)) r) Eps (lit s).
Definition Opt (a : regex) : regex := Alt a Eps.      (* a? *)
Definition Plus (a : regex) : regex := Seq a (Star a). (* a+ *)
Fixpoint Times (n : nat) (a : regex) : regex :=        (* a{n} *)
  match n with
  | O => Eps
  | S n' => Seq a (Times n' a)
  end.
Definition AnyS : regex := Cls (fun _ => true).        (* . under the s flag *)

(** A pattern written as the sequence of its items. *)
Definition Cat (rs : list regex) : regex := fold_right Seq Eps rs.

(** The matcher's state: how many code units lie before the current position,
    and the input from the current position on. *)
Definition mstate := (nat * jsstring)%type.

(** The greedy star: as many iterations of [step] as succeed, then [k]; an
    iteration that consumed nothing is refused.  An iteration consumes a code
    unit at least, so the length of the input is fuel enough. *)
Definition star_loop {A : Type}
  (step : mstate -> (mstate -> option A) -> option A)
  (k : mstate -> option A) : nat -> mstate -> option A :=
  fix loop (fuel : nat) (st0 : mstate) {struct fuel} : option A :=
    match fuel with
    | O => k st0
    | S fuel' =>
        match step st0
                (fun st1 =>
                   if (length (snd st1) <? length (snd st0))%nat
                   then loop fuel' st1 else None) with
        | Some x => Some x
        | None => k st0
        end
    end.

Fixpoint rmatch {A : Type} (r : regex) (st : mstate) (k : mstate -> option A)
  : option A :=
  match r with
  | Eps => k st
  | Bol => match fst st with O => k st | S _ => None end
  | Eol => match snd st with [] => k st | _ :: _ => None end
  | Cls p =>
      match snd st with
      | c :: s' => if p c then k (S (fst st), s') else None
      | [] => None
      end
  | Seq a b => rmatch a st (fun st1 => rmatch b st1 k)
  | Alt a b =>
      match rmatch a st k with
      | Some x => Some x
      | None => rmatch b st k
      end
  | Star a => star_loop (rmatch a) k (length (snd st)) st
  end.

(** [RegExp.prototype.exec] from [lastIndex = 0]: the leftmost start at which
    the pattern matches; the result is that index and the matched text. *)
Fixpoint search_from (r : regex) (pos : nat) (s : jsstring)
  : option (nat * jsstring) :=
  match rmatch r (pos, s) (fun st => Some st) with
  | Some (e, _) => Some (pos, firstn (e - pos) s)
  | None =>
      match s with
      | [] => None
      | _ :: s' => search_from r (S pos) s'
      end
  end.

Definition exec (r : regex) (s : jsstring) : option (nat * jsstring) :=
  search_from r 0 s.

(** [r.test(s)] *)
Definition test (r : regex) (s : jsstring) : bool :=
  match exec r s with Some _ => true | None => false end.

(** [s.match(r)], of which the client reads only [m[0]]. *)
Definition String_match (s : jsstring) (r : regex) : option jsstring :=
  option_map snd (exec r s).

(** [s.replace(r, repl)] for a pattern without the [g] flag and a replacement
    text without [$]. *)
Definition String_replace (s : jsstring) (r : regex) (repl : jsstring)
  : jsstring :=
  match exec r s with
  | Some (i, m) => firstn i s ++ repl ++ skipn (i + length m) s
  | None => s
  end.

(** ** Numbers

    A JavaScript Number is an IEEE 754 binary64 value: Rocq's primitive
    [float], with its arithmetic.  What the runtime adds on top (rounding to an
    integer, conversion to and from decimal text) is computed on the exact
    value of the float, a fraction of two integers. *)

Definition number := float.

Definition SameValueZero (x y : number) : bool :=
  (x =? y)%float || (is_nan x && is_nan y).
Arguments SameValueZero : simpl never.

(** The double nearest to [num / den] (ties to even), for [0 <= num] and
    [0 < den], with the sign [neg]. *)
Definition of_ratio (neg : bool) (num den : Z) : number :=
  let k := Z.max 0 (64 + Z.log2 den - Z.log2 num) in
  let q := (num * 2 ^ k / den)%Z in
  let sticky := if ((num * 2 ^ k) mod den =? 0)%Z then 0%Z else 1%Z in
  SF2Prim (binary_normalize prec emax
             (cond_Zopp neg (2 * q + sticky)) (- k - 1) neg).

Definition of_int (n : Z) : number :=
  SF2Prim (binary_normalize prec emax n 0 false).

(** The exact value of a finite number: sign, numerator, denominator. *)
Definition to_ratio (x : number) : option (bool * Z * Z) :=
  match Prim2SF x with
  | S754_zero s => Some (s, 0%Z, 1%Z)
  | S754_finite s m e =>
      if (0 <=? e)%Z then Some (s, (Zpos m * 2 ^ e)%Z, 1%Z)
      else Some (s, Zpos m, (2 ^ (- e))%Z)
  | _ => None
  end.

(** [Math.round]: the nearest integer, a tie going towards +infinity; the sign
    of a zero result is that of the argument. *)
Definition Math_round (x : number) : number :=
  match Prim2SF x with
  | S754_finite s m e =>
      if (0 <=? e)%Z then x
      else
        let d := (2 ^ (- e))%Z in
        let n := ((2 * cond_Zopp s (Zpos m) + d) / (2 * d))%Z in
        if (n =? 0)%Z then (if s then neg_zero else zero) else of_int n
  | _ => x
  end.

(** Decimal digits of a natural number. *)
Fixpoint dec_digits_aux (fuel : nat) (n : Z) (acc : jsstring) : jsstring :=
  match fuel with
  | O => acc
  | S fuel' =>
      let acc' := Z.to_N (48 + n mod 10) :: acc in
      if (n <? 10)%Z then acc' else dec_digits_aux fuel' (n / 10) acc'
  end.

Definition dec_digits (n : Z) : jsstring :=
  dec_digits_aux (S (Z.to_nat (Z.log2 n))) n [].

Definition zeros (n : Z) : jsstring := repeat 48%N (Z.to_nat n).

(** The [n] with [10^(n-1) <= num/den < 10^n], for a positive fraction. *)
Fixpoint dec_exp_up (fuel : nat) (num den : Z) (n : Z) : Z :=
  match fuel with
  | O => n
  | S fuel' =>
      if (num <? den * 10 ^ n)%Z then n else dec_exp_up fuel' num den (n + 1)
  end.

Fixpoint dec_exp_down (fuel : nat) (num den : Z) (n : Z) : Z :=
  match fuel with
  | O => n
  | S fuel' =>
      if (den <=? num * 10 ^ (1 - n))%Z then n
      else dec_exp_down fuel' num den (n - 1)
  end.

Definition dec_exp (num den : Z) : Z :=
  if (den <=? num)%Z then dec_exp_up 400 num den 1
  else dec_exp_down 400 num den 0.

(** [s * 10^e] as a fraction. *)
Definition scale10 (s e : Z) : Z * Z :=
  if (0 <=? e)%Z then ((s * 10 ^ e)%Z, 1%Z) else (s, (10 ^ (- e))%Z).

(** Whether the decimal [s * 10^e] reads back as [x]. *)
Definition reads_back (x : number) (s e : Z) : bool :=
  let (a, b) := scale10 s e in (of_ratio false a b =? x)%float.

(** The shortest decimal that reads back as the positive finite [x] of exact
    value [num/den], looked for with [k = 1, 2, ...] digits: the digits [s],
    with [10^(k-1) <= s <= 10^k], and [k].  Of two candidates the one nearer to
    the value is taken, the even one on a tie. *)
Fixpoint shortest (fuel : nat) (x : number) (num den n k : Z) : Z * Z :=
  match fuel with
  | O => (0%Z, k)
  | S fuel' =>
      let (a, b) := scale10 1 (n - k) in
      let lo := (num * b / (den * a))%Z in
      let hi := (lo + 1)%Z in
      let ok_lo := reads_back x lo (n - k) in
      let ok_hi := reads_back x hi (n - k) in
      let twice := (2 * (num * b - lo * den * a))%Z in
      let step := (den * a)%Z in
      let pick_hi :=
        ok_hi && (negb ok_lo || (step <? twice)%Z
                  || ((step =? twice)%Z && Z.odd lo)) in
      if ok_lo || ok_hi then (if pick_hi then hi else lo, k)
      else shortest fuel' x num den n (k + 1)
  end.

Definition exponent_part (e : Z) : jsstring :=
  lit "e" ++ (if (e <? 0)%Z then lit "-" else lit "+") ++ dec_digits (Z.abs e).

(** Number::toString of a positive finite number, radix 10. *)
Definition positive_toString (x : number) (num den : Z) : jsstring :=
  let n0 := dec_exp num den in
  let (s, k0) := shortest 17 x num den n0 1 in
  (* the upper candidate may be the next power of ten *)
  let carried := (s =? 10 ^ k0)%Z in
  let d := if carried then lit "1" else dec_digits s in
  let n := if carried then (n0 + 1)%Z else n0 in
  let k := Z.of_nat (length d) in
  if ((k <=? n) && (n <=? 21))%Z then d ++ zeros (n - k)
  else if ((0 <? n) && (n <=? 21))%Z then
    firstn (Z.to_nat n) d ++ lit "." ++ skipn (Z.to_nat n) d
  else if ((-6 <? n) && (n <=? 0))%Z then lit "0." ++ zeros (- n) ++ d
  else if (k =? 1)%Z then d ++ exponent_part (n - 1)
  else firstn 1 d ++ lit "." ++ skipn 1 d ++ exponent_part (n - 1).

(** Number::toString, radix 10: what a template literal and [String] make of
    a number. *)
Definition Number_toString (x : number) : jsstring :=
  match to_ratio x with
  | None =>
      if is_nan x then lit "NaN"
      else if (x <? 0)%float then lit "-Infinity" else lit "Infinity"
  | Some (s, num, den) =>
      if (num =? 0)%Z then lit "0"
      else (if s then lit "-" else []) ++ positive_toString (abs x) num den
  end.

(** [x.toFixed(f)] for [0 <= f <= 100]. *)
Definition Number_toFixed (x : number) (f : Z) : jsstring :=
  match to_ratio x with
  | None => Number_toString x
  | Some (s, num, den) =>
      let sign := if s && negb (num =? 0)%Z then lit "-" else [] in
      if (10 ^ 21 * den <=? num)%Z then
        sign ++ positive_toString (abs x) num den
      else
        (* the integer n with n / 10^f nearest to the value, the larger on a tie *)
        let n := ((2 * num * 10 ^ f + den) / (2 * den))%Z in
        let m := dec_digits n in
        let m :=
          if (f =? 0)%Z then m
          else
            let m := zeros (f + 1 - Z.of_nat (length m)) ++ m in
            let k := length m in
            firstn (k - Z.to_nat f) m ++ lit "." ++ skipn (k - Z.to_nat f) m in
        sign ++ m
  end.

(** The value of a decimal literal [digits * 10^e] as a Number.  A literal that
    lies beyond the range of the doubles is answered without building its
    power of ten. *)
Definition of_decimal (neg : bool) (digits e : Z) : number :=
  if (digits =? 0)%Z then (if neg then neg_zero else zero)
  else
    (* 10^(log2 digits / 4) <= digits < 10^(log2 digits + 1) *)
    if (400 <? Z.log2 digits / 4 + e)%Z then
      (if neg then neg_infinity else infinity)
    else if (e + Z.log2 digits + 1 <? -400)%Z then
      (if neg then neg_zero else zero)
    else let (a, b) := scale10 digits e in of_ratio neg a b.

(** ** JSON values

    What [JSON.parse] returns and [JSON.stringify] takes.  [undefined], which
    no JSON text denotes, is the [None] of [option json]. *)

Inductive json : Type :=
| JNull
| JBool (b : bool)
| JNum (x : number)
| JStr (s : jsstring)
| JArr (items : list json)
| JObj (fields : list (jsstring * json)).
Arguments JNum x%_float.

(** ToBoolean *)
Definition truthy (v : option json) : bool :=
  match v with
  | None | Some JNull => false
  | Some (JBool b) => b
  | Some (JNum x) => negb (is_nan x || (x =? 0)%float)
  | Some (JStr s) => match s with [] => false | _ :: _ => true end
  | Some (JArr _) | Some (JObj _) => true
  end.

(** [v == null]: true of [null] and [undefined] only. *)
Definition nullish (v : option json) : bool :=
  match v with
  | None | Some JNull => true
  | Some _ => false
  end.

Fixpoint assoc (k : jsstring) (fs : list (jsstring * json)) : option json :=
  match fs with
  | [] => None
  | (k', v) :: fs' => if str_eqb k k' then Some v else assoc k fs'
  end.

(** [v?.k] for a key [k] that no prototype defines: the own property of an
    object, [undefined] on anything else. *)
Definition get (v : option json) (k : jsstring) : option json :=
  match v with
  | Some (JObj fs) => assoc k fs
  | _ => None
  end.

(** The value of a key that is an array index, [0 .. 2^32 - 2] written
    canonically. *)
Definition array_index (k : jsstring) : option N :=
  match k with
  | [] => None
  | c :: k' =>
      if forallb is_digit k
         && ((c =? 48)%N && (length k' =? 0)%nat || negb (c =? 48)%N)
         && (length k <=? 10)%nat
      then
        let n := fold_left (fun a d => (10 * a + (d - 48))%N) k 0%N in
        if (n <? 4294967295)%N then Some n else None
      else None
  end.

(** Defining the property [k] of an object: an existing key keeps its place;
    a new index key goes among the index keys, in ascending order; any other
    new key goes last. *)
Fixpoint obj_set (fs : list (jsstring * json)) (k : jsstring) (v : json)
  : list (jsstring * json) :=
  match fs with
  | [] => [(k, v)]
  | (k', v') :: fs' =>
      if str_eqb k k' then (k, v) :: fs'
      else if match array_index k, array_index k' with
              | Some i, Some i' => (i <? i')%N
              | Some _, None => true
              | None, _ => false
              end
      then (k, v) :: fs
      else (k', v') :: obj_set fs' k v
  end.

(** *** [JSON.parse] *)

Definition json_ws (c : char16) : bool :=
  ((c =? 32) || (c =? 9) || (c =? 10) || (c =? 13))%N.

Fixpoint skip_ws (s : jsstring) : jsstring :=
  match s with
  | c :: s' => if json_ws c then skip_ws s' else s
  | [] => []
  end.

(** What follows the character [c] at the head of [s], if [c] is there. *)
Definition starts (c : char16) (s : jsstring) : option jsstring :=
  match s with
  | x :: s' => if (x =? c)%N then Some s' else None
  | [] => None
  end.

(** What follows the word [w] at the head of [s], if [w] is there. *)
Fixpoint after_word (w s : jsstring) : option jsstring :=
  match w with
  | [] => Some s
  | c :: w' =>
      match starts c s with
      | Some s' => after_word w' s'
      | None => None
      end
  end.

Definition hex_value (c : char16) : option N :=
  if is_digit c then Some (c - 48)%N
  else if ((97 <=? c) && (c <=? 102))%N then Some (c - 87)%N
  else if ((65 <=? c) && (c <=? 70))%N then Some (c - 55)%N
  else None.

(** The character a one-letter escape stands for. *)
Definition escape (e : char16) : option char16 :=
  (if e =? 34 then Some 34          (* the double quote *)
   else if e =? 92 then Some 92     (* the backslash *)
   else if e =? 47 then Some 47     (* the slash *)
   else if e =? 98 then Some 8      (* b: backspace *)
   else if e =? 102 then Some 12    (* f: form feed *)
   else if e =? 110 then Some 10    (* n: line feed *)
   else if e =? 114 then Some 13    (* r: carriage return *)
   else if e =? 116 then Some 9     (* t: tab *)
   else None)%N.

(** The characters of a string literal after its opening quote, up to the
    closing quote: the text, and the rest of the input. *)
Fixpoint parse_chars (s : jsstring) (acc : jsstring)
  : option (jsstring * jsstring) :=
  match s with
  | [] => None
  | c :: s' =>
      if (c =? 34)%N then Some (rev acc, s')
      else if (c =? 92)%N then
        match s' with
        | [] => None
        | e :: s'' =>
            if (e =? 117)%N then                (* u and four hex digits *)
              match s'' with
              | a :: b :: c' :: d :: s3 =>
                  match hex_value a, hex_value b, hex_value c', hex_value d
                  with
                  | Some a, Some b, Some c', Some d =>
                      parse_chars s3
                        ((4096 * a + 256 * b + 16 * c' + d)%N :: acc)
                  | _, _, _, _ => None
                  end
              | _ => None
              end
            else
              match escape e with
              | Some x => parse_chars s'' (x :: acc)
              | None => None
              end
        end
      else if (c <? 32)%N then None
      else parse_chars s' (c :: acc)
  end.

(** A run of digits: their value, their count, and the rest. *)
Fixpoint parse_digits (s : jsstring) (acc : Z) (n : Z) : Z * Z * jsstring :=
  match s with
  | c :: s' =>
      if is_digit c then parse_digits s' (10 * acc + Z.of_N (c - 48)) (n + 1)
      else (acc, n, s)
  | [] => (acc, n, [])
  end.

(** A number: an optional minus; an integer part, [0] or digits that do not
    start with [0]; an optional fraction, a point and digits; an optional
    exponent, [e] or [E], an optional sign and digits. *)
Definition parse_number (s : jsstring) : option (number * jsstring) :=
  let (neg, s1) :=
    match starts 45%N s with Some s' => (true, s') | None => (false, s) end in
  let '(int, ni, s2) :=
    match starts 48%N s1 with
    | Some s' => (0%Z, 1%Z, s')
    | None => parse_digits s1 0 0
    end in
  if (ni =? 0)%Z then None
  else
    let frac :=
      match starts 46%N s2 with
      | Some s' =>
          let '(m, nf, s3) := parse_digits s' int 0 in
          if (nf =? 0)%Z then None else Some (m, nf, s3)
      | None => Some (int, 0%Z, s2)
      end in
    match frac with
    | None => None
    | Some (m, nf, s3) =>
        let exponent :=
          match starts 101%N s3, starts 69%N s3 with
          | Some s', _ | None, Some s' => Some s'
          | None, None => None
          end in
        match exponent with
        | Some s' =>
            let (eneg, s4) :=
              match starts 45%N s', starts 43%N s' with
              | Some t, _ => (true, t)
              | None, Some t => (false, t)
              | None, None => (false, s')
              end in
            let '(e, ne, s5) := parse_digits s4 0 0 in
            if (ne =? 0)%Z then None
            else Some (of_decimal neg m ((if eneg then - e else e) - nf), s5)
        | None => Some (of_decimal neg m (- nf), s3)
        end
    end.

Fixpoint parse_value (fuel : nat) (s : jsstring) : option (json * jsstring) :=
  match fuel with
  | O => None
  | S fuel' =>
      let s0 := skip_ws s in
      match starts 123%N s0, starts 91%N s0, starts 34%N s0 with
      | Some r, _, _ =>                                      (* { *)
          match starts 125%N (skip_ws r) with
          | Some r' => Some (JObj [], r')
          | None => parse_members fuel' r []
          end
      | None, Some r, _ =>                                   (* [ *)
          match starts 93%N (skip_ws r) with
          | Some r' => Some (JArr [], r')
          | None => parse_elements fuel' r []
          end
      | None, None, Some r =>
          match parse_chars r [] with
          | Some (str, r') => Some (JStr str, r')
          | None => None
          end
      | None, None, None =>
          match after_word (lit "true") s0, after_word (lit "false") s0,
                after_word (lit "null") s0 with
          | Some r, _, _ => Some (JBool true, r)
          | None, Some r, _ => Some (JBool false, r)
          | None, None, Some r => Some (JNull, r)
          | None, None, None =>
              match parse_number s0 with
              | Some (x, r) => Some (JNum x, r)
              | None => None
              end
          end
      end
  end

with parse_elements (fuel : nat) (s : jsstring) (acc : list json)
  : option (json * jsstring) :=
  match fuel with
  | O => None
  | S fuel' =>
      match parse_value fuel' s with
      | Some (v, r) =>
          match starts 44%N (skip_ws r), starts 93%N (skip_ws r) with
          | Some r', _ => parse_elements fuel' r' (v :: acc)
          | None, Some r' => Some (JArr (rev (v :: acc)), r')
          | None, None => None
          end
      | None => None
      end
  end

with parse_members (fuel : nat) (s : jsstring) (acc : list (jsstring * json))
  : option (json * jsstring) :=
  match fuel with
  | O => None
  | S fuel' =>
      match starts 34%N (skip_ws s) with
      | Some r =>
          match parse_chars r [] with
          | Some (k, r1) =>
              match starts 58%N (skip_ws r1) with
              | Some r2 =>
                  match parse_value fuel' r2 with
                  | Some (v, r3) =>
                      match starts 44%N (skip_ws r3),
                            starts 125%N (skip_ws r3) with
                      | Some r4, _ =>
                          parse_members fuel' r4 (obj_set acc k v)
                      | None, Some r4 => Some (JObj (obj_set acc k v), r4)
                      | None, None => None
                      end
                  | None => None
                  end
              | None => None
              end
          | None => None
          end
      | None => None
      end
  end.

(** [JSON.parse(text)]; [None] stands for the SyntaxError it throws.  A nesting
    level costs two units of fuel and an item one, so twice the length of the
    text is enough ([JSON_parse_fuel] below). *)
Definition JSON_parse (text : jsstring) : option json :=
  match parse_value (2 * length text + 2) text with
  | Some (v, r) => match skip_ws r with [] => Some v | _ :: _ => None end
  | None => None
  end.

(** *** [JSON.stringify] without indentation *)

Definition hex_digit (n : N) : char16 :=
  if (n <? 10)%N then (48 + n)%N else (87 + n)%N.

Definition unicode_escape (c : char16) : jsstring :=
  lit "\u" ++ [hex_digit (c / 4096); hex_digit ((c / 256) mod 16);
               hex_digit ((c / 16) mod 16); hex_digit (c mod 16)].

Definition is_high_surrogate (c : char16) : bool :=
  ((55296 <=? c) && (c <=? 56319))%N.
Definition is_low_surrogate (c : char16) : bool :=
  ((56320 <=? c) && (c <=? 57343))%N.

(** QuoteJSONString, between the quotes. *)
Fixpoint quote_chars (s : jsstring) : jsstring :=
  match s with
  | [] => []
  | c :: s' =>
      if (c =? 8)%N then lit "\b" ++ quote_chars s'
      else if (c =? 9)%N then lit "\t" ++ quote_chars s'
      else if (c =? 10)%N then lit "\n" ++ quote_chars s'
      else if (c =? 12)%N then lit "\f" ++ quote_chars s'
      else if (c =? 13)%N then lit "\r" ++ quote_chars s'
      else if (c =? 34)%N then 92%N :: 34%N :: quote_chars s'
      else if (c =? 92)%N then 92%N :: 92%N :: quote_chars s'
      else if (c <? 32)%N then unicode_escape c ++ quote_chars s'
      else if is_high_surrogate c then
        match s' with
        | d :: s'' =>
            if is_low_surrogate d then c :: d :: quote_chars s''
            else unicode_escape c ++ quote_chars s'
        | [] => unicode_escape c
        end
      else if is_low_surrogate c then unicode_escape c ++ quote_chars s'
      else c :: quote_chars s'
  end.

Definition quote (s : jsstring) : jsstring :=
  34%N :: quote_chars s ++ [34%N].

Fixpoint join (sep : jsstring) (parts : list jsstring) : jsstring :=
  match parts with
  | [] => []
  | [p] => p
  | p :: ps => p ++ sep ++ join sep ps
  end.

Fixpoint JSON_stringify (v : json) : jsstring :=
  match v with
  | JNull => lit "null"
  | JBool true => lit "true"
  | JBool false => lit "false"
  | JNum x => if is_finite x then Number_toString x else lit "null"
  | JStr s => quote s
  | JArr items =>
      lit "[" ++ join (lit ",") (map JSON_stringify items) ++ lit "]"
  | JObj fields =>
      lit "{"
      ++ join (lit ",")
           ((fix members (fs : list (jsstring * json)) : list jsstring :=
               match fs with
               | [] => []
               | (k, w) :: fs' =>
                   (quote k ++ lit ":" ++ JSON_stringify w) :: members fs'
               end) fields)
      ++ lit "}"
  end.

(** ToString of a parsed JSON value, as a template literal applies it. *)
Fixpoint ToString (v : json) : jsstring :=
  match v with
  | JNull => lit "null"
  | JBool true => lit "true"
  | JBool false => lit "false"
  | JNum x => Number_toString x
  | JStr s => s
  | JArr items =>
      join (lit ",")
        (map (fun x => match x with JNull => [] | _ => ToString x end) items)
  | JObj _ => lit "[object Object]"
  end.

(** ** Exceptions and promises *)

(** An Error object: its [name] and its [message]. *)
Record exn : Type := mkExn { name : jsstring; message : jsstring }.

Definition Error (msg : jsstring) : exn := mkExn (lit "Error") msg.
Definition TypeError (msg : jsstring) : exn := mkExn (lit "TypeError") msg.
Definition SyntaxError (msg : jsstring) : exn := mkExn (lit "SyntaxError") msg.
Definition URIError (msg : jsstring) : exn := mkExn (lit "URIError") msg.

(** [String(e)], that is [Error.prototype.toString]. *)
Definition String_of_exn (e : exn) : jsstring :=
  match name e, message e with
  | [], m => m
  | n, [] => n
  | n, m => n ++ lit ": " ++ m
  end.

(** How a computation ends: it throws, or it returns.  For an [async]
    function, how its promise settles: rejected, or fulfilled. *)
Inductive result (A : Type) : Type :=
| Throw (e : exn)
| Return (a : A).
Arguments Throw {A} e.
Arguments Return {A} a.

(** [try { body } catch { handler }] *)
Definition try_catch {A : Type} (body : result A) (handler : exn -> result A)
  : result A :=
  match body with
  | Throw e => handler e
  | Return a => Return a
  end.

(** A response whose body has been read: [ok] is what Fetch derives from the
    status. *)
Record Response : Type := mkResponse { status : N; text : jsstring }.

Definition ok (r : Response) : bool :=
  ((200 <=? status r) && (status r <=? 299))%N.

(** What [fetch] is called with.  Every call modelled here is a GET. *)
Record request : Type := mkRequest { url : jsstring }.

(** How a [fetch] settles: rejected (no response at all), or fulfilled. *)
Inductive fetch_outcome : Type :=
| NetworkError (e : exn)
| Responded (r : Response).

(** An [async] function of [api.js]: it is done, or it awaits a fetch and
    goes on with how that settles. *)
Inductive async (A : Type) : Type :=
| Done (r : result A)
| Await (req : request) (k : fetch_outcome -> async A).
Arguments Done {A} r.
Arguments Await {A} req k.

(** The requests an [async] function issues when the network answers with
    [answers], in order; and how it ends, if the answers reach that far. *)
Fixpoint run_async {A : Type} (a : async A) (answers : list fetch_outcome)
  : list request * option (result A) :=
  match a with
  | Done r => ([], Some r)
  | Await req k =>
      match answers with
      | [] => ([req], None)
      | o :: answers' =>
          let (reqs, r) := run_async (k o) answers' in (req :: reqs, r)
      end
  end.

(** *** [encodeURIComponent] *)

Definition uri_unreserved (c : char16) : bool :=
  ((65 <=? c) && (c <=? 90) || (97 <=? c) && (c <=? 122) || is_digit c
   || (c =? 45) || (c =? 95) || (c =? 46) || (c =? 33) || (c =? 126)
   || (c =? 42) || (c =? 39) || (c =? 40) || (c =? 41))%N.

Definition upper_hex (n : N) : char16 :=
  if (n <? 10)%N then (48 + n)%N else (55 + n)%N.

Definition percent (byte : N) : jsstring :=
  [37%N; upper_hex (byte / 16); upper_hex (byte mod 16)].

Definition utf8 (cp : N) : list N :=
  (if cp <? 128 then [cp]
   else if cp <? 2048 then [192 + cp / 64; 128 + cp mod 64]
   else if cp <? 65536 then
     [224 + cp / 4096; 128 + (cp / 64) mod 64; 128 + cp mod 64]
   else [240 + cp / 262144; 128 + (cp / 4096) mod 64;
         128 + (cp / 64) mod 64; 128 + cp mod 64])%N.

Fixpoint encodeURIComponent (s : jsstring) : result jsstring :=
  let malformed := Throw (URIError (lit "URI malformed")) in
  let after (bytes : list N) (r : result jsstring) :=
    match r with
    | Throw e => Throw e
    | Return t => Return (concat (map percent bytes) ++ t)
    end in
  match s with
  | [] => Return []
  | c :: s' =>
      if uri_unreserved c then
        match encodeURIComponent s' with
        | Throw e => Throw e
        | Return t => Return (c :: t)
        end
      else if is_low_surrogate c then malformed
      else if is_high_surrogate c then
        match s' with
        | d :: s'' =>
            if is_low_surrogate d then
              after (utf8 ((c - 55296) * 1024 + (d - 56320) + 65536)%N)
                    (encodeURIComponent s'')
            else malformed
        | [] => malformed
        end
      else after (utf8 c) (encodeURIComponent s')
  end.

(** * [api.js] *)

Definition fetch (u : jsstring) : async Response :=
  Await (mkRequest u)
    (fun o => Done match o with
                   | NetworkError e => Throw e
                   | Responded r => Return r
                   end).

(** [await a] followed by [f]. *)
Fixpoint bind {A B : Type} (a : async A) (f : A -> async B) : async B :=
  match a with
  | Done (Throw e) => Done (Throw e)
  | Done (Return x) => f x
  | Await req k => Await req (fun o => bind (k o) f)
  end.

Definition JSON_parse_or_throw (t : jsstring) : result json :=
  match JSON_parse t with
  | Some v => Return v
  | None => Throw (SyntaxError (lit "Unexpected token"))
  end.

(** [handle(r)], once [r.text()] has given the body. *)
Definition handle (r : Response) : result json :=
  let text := text r in
  if negb (ok r) then
    try_catch
      (match JSON_parse_or_throw text with
       | Throw e => Throw e
       | Return v => Throw (Error (JSON_stringify v))
       end)
      (fun _ =>
         Throw (Error match text with
                      | [] => lit "HTTP " ++ dec_digits (Z.of_N (status r))
                      | _ :: _ => text
                      end))
  else
    try_catch (JSON_parse_or_throw text) (fun _ => Return (JStr text)).

Definition getCurrent (location : jsstring) : async json :=
  match encodeURIComponent location with
  | Throw e => Done (Throw e)
  | Return q =>
      bind (fetch (lit "/api/weather/current?location=" ++ q))
        (fun r => Done (handle r))
  end.

Definition searchLocations (q : jsstring) : async json :=
  match encodeURIComponent q with
  | Throw e => Done (Throw e)
  | Return q' =>
      bind (fetch (lit "/api/locations/search?q=" ++ q'))
        (fun r => Done (handle r))
  end.

(** [exportData(fmt = 'json')]; [None] is the argument left out. *)
Definition exportData (fmt : option jsstring) : async json :=
  let fmt := match fmt with None => lit "json" | Some f => f end in
  bind (fetch (lit "/api/export?fmt=" ++ fmt))
    (fun r =>
       if str_eqb fmt (lit "json") then Done (handle r)
       else if negb (ok r) then Done (Throw (Error (text r)))
       else Done (Return (JStr (text r)))).

Definition getNearby (lat lon : json) (radius limit : number) : async json :=
  bind (fetch (lit "/api/places/nearby?lat=" ++ ToString lat
               ++ lit "&lon=" ++ ToString lon
               ++ lit "&radius=" ++ Number_toString radius
               ++ lit "&limit=" ++ Number_toString limit))
    (fun r => Done (handle r)).

Definition getAstronomy (lat lon : json) : async json :=
  bind (fetch (lit "/api/extras/astronomy?lat=" ++ ToString lat
               ++ lit "&lon=" ++ ToString lon))
    (fun r => Done (handle r)).

Definition getAir (lat lon : json) : async json :=
  bind (fetch (lit "/api/extras/air?lat=" ++ ToString lat
               ++ lit "&lon=" ++ ToString lon))
    (fun r => Done (handle r)).

(** * [App.jsx]: the helpers outside the component *)

(** [xs.includes(v)] for an array of number literals. *)
Definition includes (xs : list number) (v : option json) : bool :=
  match v with
  | Some (JNum y) => existsb (fun x => SameValueZero x y) xs
  | _ => false
  end.

Definition emoji_sun : jsstring := utf16 [0x2600; 0xFE0F]%N.
Definition emoji_partly_cloudy : jsstring := utf16 [0x26C5]%N.
Definition emoji_fog : jsstring := utf16 [0x1F32B; 0xFE0F]%N.
Definition emoji_rain : jsstring := utf16 [0x1F327; 0xFE0F]%N.
Definition emoji_snow : jsstring := utf16 [0x2744; 0xFE0F]%N.
Definition emoji_storm : jsstring := utf16 [0x26C8; 0xFE0F]%N.
Definition emoji_thermometer : jsstring := utf16 [0x1F321; 0xFE0F]%N.

Definition wcToEmoji (wcode : option json) : jsstring :=
  if includes [0]%float wcode then emoji_sun
  else if includes [1; 2; 3]%float wcode then emoji_partly_cloudy
  else if includes [45; 48]%float wcode then emoji_fog
  else if includes [51; 53; 55; 61; 63; 65; 80; 81; 82]%float wcode
  then emoji_rain
  else if includes [71; 73; 75; 85; 86]%float wcode then emoji_snow
  else if includes [95; 96; 99]%float wcode then emoji_storm
  else emoji_thermometer.

(** [\s] and [\d] as items of a pattern. *)
Definition ws : regex := Cls is_ws.
Definition digit : regex := Cls is_digit.

(** [-?\d+\.?\d*] *)
Definition NUMBER : list regex :=
  [Opt (Lit "-"); Plus digit; Opt (Lit "."); Star digit].

(** [-?\d+\.?\d*\s*,\s*-?\d+\.?\d*] *)
Definition PAIR : list regex :=
  NUMBER ++ [Star ws; Lit ","; Star ws] ++ NUMBER.

(** [/^\s*-?\d+\.?\d*\s*,\s*-?\d+\.?\d*\s*$/] *)
Definition COORD_RE : regex :=
  Cat ([Bol; Star ws] ++ PAIR ++ [Star ws; Eol]).

(** [/^\s*\d{5}\s*$/] *)
Definition ZIP_RE : regex :=
  Cat [Bol; Star ws; Times 5 digit; Star ws; Eol].

Definition isWordyQuery (q : jsstring) : bool :=
  let s := trim q in
  match s with
  | [] => false
  | _ :: _ =>
      if test COORD_RE s then false
      else if test ZIP_RE s then false
      else true
  end.

Definition toF (c : number) : number := ((c * 9) / 5 + 32)%float.
Definition kmhToMph (kmh : number) : number := (kmh * 0.621371)%float.

(** A numeric field of a payload as a formatter receives it: missing
    ([undefined]), [null], or a number. *)
Inductive field : Type :=
| Undefined
| Null
| Num (x : number).
Arguments Num x%_float.

Definition dash : jsstring := utf16 [0x2014]%N.
Definition degree : jsstring := utf16 [0xB0]%N.

Definition fmtTemp (c : field) (unit : jsstring) : jsstring :=
  match c with
  | Undefined | Null => dash
  | Num c =>
      if str_eqb unit (lit "f")
      then Number_toString (Math_round (toF c)) ++ degree ++ lit "F"
      else Number_toString (Math_round c) ++ degree ++ lit "C"
  end.

Definition fmtWind (kmh : field) (unit : jsstring) : jsstring :=
  match kmh with
  | Undefined | Null => dash
  | Num kmh =>
      if str_eqb unit (lit "f")
      then Number_toString (Math_round (kmhToMph kmh)) ++ lit " mph"
      else Number_toString (Math_round kmh) ++ lit " km/h"
  end.

Definition fmtPrecip (mm : field) : jsstring :=
  match mm with
  | Undefined | Null => dash
  | Num mm => Number_toFixed mm 1 ++ lit " mm"
  end.

(** [/\{.*\}/s] *)
Definition BRACES_RE : regex := Cat [Lit "{"; Star AnyS; Lit "}"].

(** [/^Error:\s*/] *)
Definition ERROR_PREFIX_RE : regex := Cat [Bol; Lit "Error:"; Star ws].

Definition cleanErr (e : exn) : jsstring :=
  let s := String_of_exn e in
  let stripped := String_replace s ERROR_PREFIX_RE [] in
  match String_match s BRACES_RE with
  | Some m0 =>
      match JSON_parse m0 with
      | Some j =>
          let detail := get (Some j) (lit "detail") in
          if truthy detail then
            match detail with
            | Some (JStr d) => d
            | Some d => JSON_stringify d
            | None => stripped
            end
          else stripped
      | None => stripped
      end
  | None => stripped
  end.

(** * [App.jsx]: the component

    The state the hooks of [App] hold, as far as the functions below read or
    write it.  The saved records ([records], [selectedId], [range]) and
    [activeIdx] are left out, with the functions that work on them. *)

Record AppState : Type := mkApp {
  location : option json;
  unit : jsstring;
  current : json;
  error : jsstring;
  cands : json;
  openSug : bool;
  typingTimer : option nat;
  pois : json;
  astro : json;
  air : json
}.

Definition setLocation (v : option json) (s : AppState) : AppState :=
  mkApp v (unit s) (current s) (error s) (cands s) (openSug s)
        (typingTimer s) (pois s) (astro s) (air s).
Definition setUnit (v : jsstring) (s : AppState) : AppState :=
  mkApp (location s) v (current s) (error s) (cands s) (openSug s)
        (typingTimer s) (pois s) (astro s) (air s).
Definition setCurrent (v : json) (s : AppState) : AppState :=
  mkApp (location s) (unit s) v (error s) (cands s) (openSug s)
        (typingTimer s) (pois s) (astro s) (air s).
Definition setError (v : jsstring) (s : AppState) : AppState :=
  mkApp (location s) (unit s) (current s) v (cands s) (openSug s)
        (typingTimer s) (pois s) (astro s) (air s).
Definition setCands (v : json) (s : AppState) : AppState :=
  mkApp (location s) (unit s) (current s) (error s) v (openSug s)
        (typingTimer s) (pois s) (astro s) (air s).
Definition setOpenSug (v : bool) (s : AppState) : AppState :=
  mkApp (location s) (unit s) (current s) (error s) (cands s) v
        (typingTimer s) (pois s) (astro s) (air s).
Definition setTypingTimer (v : option nat) (s : AppState) : AppState :=
  mkApp (location s) (unit s) (current s) (error s) (cands s) (openSug s)
        v (pois s) (astro s) (air s).
Definition setPois (v : json) (s : AppState) : AppState :=
  mkApp (location s) (unit s) (current s) (error s) (cands s) (openSug s)
        (typingTimer s) v (astro s) (air s).
Definition setAstro (v : json) (s : AppState) : AppState :=
  mkApp (location s) (unit s) (current s) (error s) (cands s) (openSug s)
        (typingTimer s) (pois s) v (air s).
Definition setAir (v : json) (s : AppState) : AppState :=
  mkApp (location s) (unit s) (current s) (error s) (cands s) (openSug s)
        (typingTimer s) (pois s) (astro s) v.

(** The state on mount; the arguments are what [localStorage] holds under
    [pma:lastLocation] and [pma:unit]. *)
Definition initial (lastLocation lastUnit : option jsstring) : AppState :=
  mkApp
    (Some (JStr match lastLocation with Some (c :: s) => c :: s | _ => [] end))
    match lastUnit with Some (c :: s) => c :: s | _ => lit "c" end
    JNull [] (JArr []) false None (JArr []) JNull JNull.

(** What runs when a promise of [api.js] settles. *)
Inductive handler : Type :=
| HCurrent     (* the rest of fetchCurrentFor, after its await *)
| HNearby      (* .then(r=>setPois(r.items||[])).catch(()=>{}) *)
| HAstronomy   (* .then(setAstro).catch(()=>{}) *)
| HAir         (* .then(setAir).catch(()=>{}) *)
| HSearch.     (* the rest of the timer callback of scheduleSuggest *)

(** The component in its environment: the fetch calls made so far, oldest
    first; the fetches in flight, each with what awaits it; the timeouts
    pending, each with the query its callback closes over; the exceptions no
    handler caught. *)
Record World : Type := mkWorld {
  app : AppState;
  requests : list request;
  inflight : list (nat * (handler * (fetch_outcome -> async json)));
  timers : list (nat * jsstring);
  next_id : nat;
  uncaught : list exn
}.

Definition update (f : AppState -> AppState) (w : World) : World :=
  mkWorld (f (app w)) (requests w) (inflight w) (timers w) (next_id w)
          (uncaught w).

Definition throw (e : exn) (w : World) : World :=
  mkWorld (app w) (requests w) (inflight w) (timers w) (next_id w)
          (uncaught w ++ [e]).

Definition remove_id {A : Type} (id : nat) (l : list (nat * A))
  : list (nat * A) :=
  filter (fun p => negb (fst p =? id)%nat) l.

Fixpoint find_id {A : Type} (id : nat) (l : list (nat * A)) : option A :=
  match l with
  | [] => None
  | (i, a) :: l' => if (i =? id)%nat then Some a else find_id id l'
  end.

Definition clearTimeout (id : nat) (w : World) : World :=
  mkWorld (app w) (requests w) (inflight w) (remove_id id (timers w))
          (next_id w) (uncaught w).

(** [setTimeout(callback, 300)], the callback closing over [q]: the new
    timer's id. *)
Definition setTimeout (q : jsstring) (w : World) : nat * World :=
  (next_id w,
   mkWorld (app w) (requests w) (inflight w)
           ((next_id w, q) :: timers w) (S (next_id w)) (uncaught w)).

(** [xs.slice(0, 8)] and [xs.length > 0] on what [searchLocations] resolved
    to; [None] when [slice] is not there to call. *)
Definition slice_0_8 (res : json) : option (json * bool) :=
  match res with
  | JArr xs => Some (JArr (firstn 8 xs), (0 <? length xs)%nat)
  | JStr s => Some (JStr (firstn 8 s), (0 <? length s)%nat)
  | _ => None
  end.

(** The rest of the timer callback of [scheduleSuggest], once
    [searchLocations(q)] has settled; a throw in the [try] block, the
    rejection included, goes to the [catch]. *)
Definition search_settled (r : result json) (s : AppState) : AppState :=
  match r with
  | Return res =>
      match slice_0_8 res with
      | Some (first8, nonempty) => setOpenSug nonempty (setCands first8 s)
      | None => setOpenSug false (setCands (JArr []) s)
      end
  | Throw _ => setOpenSug false (setCands (JArr []) s)
  end.

(** [getNearby(...).then(r=>setPois(r.items||[])).catch(()=>{})]: reading
    [items] off [null] throws inside [then], and the [catch] takes that too. *)
Definition nearby_settled (r : result json) (s : AppState) : AppState :=
  match r with
  | Return JNull => s
  | Return v =>
      let items := get (Some v) (lit "items") in
      setPois match items with
              | Some i => if truthy items then i else JArr []
              | None => JArr []
              end s
  | Throw _ => s
  end.

(** [getAstronomy(...).then(setAstro).catch(()=>{})] *)
Definition astronomy_settled (r : result json) (s : AppState) : AppState :=
  match r with
  | Return v => setAstro v s
  | Throw _ => s
  end.

(** [getAir(...).then(setAir).catch(()=>{})] *)
Definition air_settled (r : result json) (s : AppState) : AppState :=
  match r with
  | Return v => setAir v s
  | Throw _ => s
  end.

(** Calling an [async] function of [api.js] and attaching [h] to its promise:
    the fetch it awaits is issued and waits in [inflight]; a promise settled
    without a fetch goes to [h] at once. *)
Definition start_with (settled : handler -> result json -> World -> World)
  (h : handler) (a : async json) (w : World) : World :=
  match a with
  | Done r => settled h r w
  | Await req k =>
      mkWorld (app w) (requests w ++ [req])
              ((next_id w, (h, k)) :: inflight w) (timers w)
              (S (next_id w)) (uncaught w)
  end.

(** The handlers that call nothing further: the three enrichment handlers
    and the search handler.  ([HCurrent] is [current_settled] below.) *)
Definition leaf_settled (h : handler) (r : result json) (w : World) : World :=
  match h with
  | HNearby => update (nearby_settled r) w
  | HAstronomy => update (astronomy_settled r) w
  | HAir => update (air_settled r) w
  | HSearch => update (search_settled r) w
  | HCurrent => w
  end.

(** The rest of [fetchCurrentFor], once [getCurrent(loc)] has settled. *)
Definition current_settled (r : result json) (w : World) : World :=
  match r with
  | Return j =>
      let w := update (setCurrent j) w in
      let lat := get (get (Some j) (lit "resolved")) (lit "latitude") in
      let lon := get (get (Some j) (lit "resolved")) (lit "longitude") in
      match lat, lon with
      | Some lat, Some lon =>
          if negb (nullish (Some lat)) && negb (nullish (Some lon)) then
            let w := start_with leaf_settled HNearby
                       (getNearby lat lon 1200%float 18%float) w in
            let w := start_with leaf_settled HAstronomy
                       (getAstronomy lat lon) w in
            start_with leaf_settled HAir (getAir lat lon) w
          else w
      | _, _ => w
      end
  | Throw e => update (setError (cleanErr e)) w
  end.

(** What [h] does once its promise has settled as [r]. *)
Definition settled (h : handler) (r : result json) (w : World) : World :=
  match h with
  | HCurrent => current_settled r w
  | _ => leaf_settled h r w
  end.

Definition start : handler -> async json -> World -> World :=
  start_with settled.

Definition fetchCurrentFor (loc : jsstring) (w : World) : World :=
  start HCurrent (getCurrent loc) (update (setError []) w).

Definition fetchCurrent (w : World) : World :=
  match location (app w) with
  | None | Some JNull =>
      update (setError (lit "Please enter a location")) w
  | Some (JStr s) =>
      match trim s with
      | [] => update (setError (lit "Please enter a location")) w
      | _ :: _ => fetchCurrentFor s w
      end
  | Some _ => throw (TypeError (lit "location?.trim is not a function")) w
  end.

Definition scheduleSuggest (q : jsstring) (w : World) : World :=
  let w := match typingTimer (app w) with
           | Some t => clearTimeout t w
           | None => w
           end in
  if negb (isWordyQuery q) then
    update (setOpenSug false) (update (setCands (JArr [])) w)
  else
    let (t, w) := setTimeout q w in
    update (setTypingTimer (Some t)) w.

(** [chooseCand(c, {autoFetch})]: the three setters have run when [toFixed]
    is reached. *)
Definition chooseCand (c : json) (autoFetch : bool) (w : World) : World :=
  match c with
  | JNull => throw (TypeError (lit "Cannot read properties of null")) w
  | _ =>
      let w := update (setLocation (get (Some c) (lit "name"))) w in
      let w := update (setCands (JArr [])) w in
      let w := update (setOpenSug false) w in
      match get (Some c) (lit "latitude"), get (Some c) (lit "longitude") with
      | Some (JNum lat), Some (JNum lon) =>
          let precise :=
            Number_toFixed lat 4 ++ lit "," ++ Number_toFixed lon 4 in
          if autoFetch then fetchCurrentFor precise w else w
      | _, _ => throw (TypeError (lit "toFixed is not a function")) w
      end
  end.

(** What happens to the component. *)
Inductive event : Type :=
| EInput (v : jsstring)                  (* onChange of the location input *)
| EGetWeather                            (* click on Get Weather *)
| EToggleUnit                            (* click on Show F / Show C *)
| EChoose (c : json) (autoFetch : bool)  (* chooseCand *)
| EPosition (lat lon : number)           (* geolocation answers *)
| EPositionError (msg : jsstring)        (* geolocation fails *)
| ETimer (id : nat)                      (* a pending timeout elapses *)
| ESettle (id : nat) (o : fetch_outcome). (* a fetch in flight settles *)

(** The component's reaction to an event.  A timer or a fetch that is not
    pending has nothing to run. *)
Definition step (e : event) (w : World) : World :=
  match e with
  | EInput v => scheduleSuggest v (update (setLocation (Some (JStr v))) w)
  | EGetWeather => fetchCurrent w
  | EToggleUnit =>
      update (fun s => setUnit (if str_eqb (unit s) (lit "c")
                                then lit "f" else lit "c") s) w
  | EChoose c autoFetch => chooseCand c autoFetch w
  | EPosition lat lon =>
      let coords := Number_toFixed lat 4 ++ lit "," ++ Number_toFixed lon 4 in
      fetchCurrentFor coords (update (setLocation (Some (JStr coords))) w)
  | EPositionError msg => update (setError msg) w
  | ETimer id =>
      match find_id id (timers w) with
      | Some q => start HSearch (searchLocations q) (clearTimeout id w)
      | None => w
      end
  | ESettle id o =>
      match find_id id (inflight w) with
      | Some (h, k) =>
          start h (k o)
            (mkWorld (app w) (requests w) (remove_id id (inflight w))
                     (timers w) (next_id w) (uncaught w))
      | None => w
      end
  end.

Definition run (es : list event) (w : World) : World :=
  fold_left (fun w e => step e w) es w.

Definition mount (lastLocation lastUnit : option jsstring) : World :=
  mkWorld (initial lastLocation lastUnit) [] [] [] 1 [].

(** The number of entries of the candidate list. *)
Definition entries (v : json) : nat :=
  match v with
  | JArr xs => length xs
  | JStr s => length s
  | _ => 0
  end.

(** * What the statements are written with *)

(** [matches r n s rest]: the pattern [r] matches the text [s], found after
    [n] code units of input and followed by [rest]. *)
Inductive matches : regex -> nat -> jsstring -> jsstring -> Prop :=
| M_Eps n rest : matches Eps n [] rest
| M_Bol rest : matches Bol 0 [] rest
| M_Eol n : matches Eol n [] []
| M_Cls p n c rest : p c = true -> matches (Cls p) n [c] rest
| M_Seq a b n s1 s2 rest :
    matches a n s1 (s2 ++ rest) ->
    matches b (n + length s1) s2 rest ->
    matches (Seq a b) n (s1 ++ s2) rest
| M_AltL a b n s rest : matches a n s rest -> matches (Alt a b) n s rest
| M_AltR a b n s rest : matches b n s rest -> matches (Alt a b) n s rest
| M_Star0 a n rest : matches (Star a) n [] rest
| M_StarS a n s1 s2 rest :
    matches a n s1 (s2 ++ rest) ->
    s1 <> [] ->
    matches (Star a) (n + length s1) s2 rest ->
    matches (Star a) n (s1 ++ s2) rest.

(** A pattern without [^] and [$]. *)
Fixpoint anchor_free (r : regex) : bool :=
  match r with
  | Bol | Eol => false
  | Eps | Cls _ => true
  | Seq a b | Alt a b => anchor_free a && anchor_free b
  | Star a => anchor_free a
  end.

(** A text without white space. *)
Definition solid (s : jsstring) : bool :=
  forallb (fun c => negb (is_ws c)) s.

(** The text up to the last [c], that [c] included. *)
Fixpoint upto_last (c : char16) (s : jsstring) : option jsstring :=
  match s with
  | [] => None
  | x :: s' =>
      match upto_last c s' with
      | Some p => Some (x :: p)
      | None => if (x =? c)%N then Some [x] else None
      end
  end.

(** The text from the first opening brace that a closing brace follows, up
    to the last closing brace. *)
Fixpoint braces (s : jsstring) : option jsstring :=
  match s with
  | [] => None
  | x :: s' =>
      if (x =? 123)%N then
        match upto_last 125%N s' with
        | Some p => Some (x :: p)
        | None => braces s'
        end
      else braces s'
  end.

(** A fetch that settles so that the promise of [handle] is rejected: no
    response, or a response that is not 2xx. *)
Definition rejects (o : fetch_outcome) : Prop :=
  match o with
  | NetworkError _ => True
  | Responded r => ok r = false
  end.

(** What [handle] puts into the Error of a response that is not 2xx. *)
Definition failure_text (r : Response) : jsstring :=
  match text r with
  | [] => lit "HTTP " ++ dec_digits (Z.of_N (status r))
  | _ :: _ => text r
  end.

(** The codes [wcToEmoji] knows. *)
Definition known_codes : list number :=
  [0; 1; 2; 3; 45; 48; 51; 53; 55; 61; 63; 65; 80; 81; 82;
   71; 73; 75; 85; 86; 95; 96; 99]%float.

Definition emojis : list jsstring :=
  [emoji_sun; emoji_partly_cloudy; emoji_fog; emoji_rain; emoji_snow;
   emoji_storm; emoji_thermometer].

(** A location that is missing, empty, or made of white space only. *)
Definition blank (v : option json) : Prop :=
  match v with
  | None | Some JNull => True
  | Some (JStr s) => forallb is_ws s = true
  | Some _ => False
  end.

(** A candidate list of eight entries at most. *)
Definition at_most_8 (v : json) : Prop :=
  match v with
  | JArr xs => length xs <= 8
  | JStr s => length s <= 8
  | _ => False
  end.

(** The rest of a function of [api.js] that awaits a fetch and returns
    [handle(r)], from the moment the fetch settles. *)
Definition after_fetch (o : fetch_outcome) : async json :=
  bind (Done match o with
             | NetworkError e => Throw e
             | Responded r => Return r
             end) (fun r => Done (handle r)).


(** A JSON text written with ['] for the double quote. *)
Definition json_text (s : string) : jsstring :=
  map (fun c => if (c =? 39)%N then 34%N else c) (lit s).

(** * More of the client

    The parts of [App.jsx] and [api.js] left out so far: the expression that
    draws a day of the forecast, the two effects that persist the location and
    the unit, and the saved records with the four calls of [api.js] behind
    them. *)

(** ** The forecast *)

(** [v?.[i]] for an index [i]: the element of an array, the code unit of a
    text, the property of an object, [undefined] on anything else. *)
Definition index (v : option json) (i : nat) : option json :=
  match v with
  | Some (JArr xs) => nth_error xs i
  | Some (JStr s) => option_map (fun c => JStr [c]) (nth_error s i)
  | Some (JObj fs) => assoc (dec_digits (Z.of_nat i)) fs
  | _ => None
  end.

(** [wcToEmoji(current.data.daily.weather_code?.[i]??0)], the argument being
    [current.data.daily.weather_code]. *)
Definition daily_emoji (weather_code : option json) (i : nat) : jsstring :=
  let c := index weather_code i in
  wcToEmoji (if nullish c then Some (JNum 0) else c).

(** ** Persistence *)

(** What the effect on [location] stores under [pma:lastLocation]:
    [location||''], as a text. *)
Definition saved_location (s : AppState) : jsstring :=
  match location s with
  | Some v => if truthy (Some v) then ToString v else []
  | None => []
  end.

(** What the effect on [unit] stores under [pma:unit]. *)
Definition saved_unit (s : AppState) : jsstring := unit s.

(** The state on the next mount, [localStorage] holding what the two effects
    stored last. *)
Definition reload (s : AppState) : AppState :=
  initial (Some (saved_location s)) (Some (saved_unit s)).

(** ** [api.js]: the saved records *)

(** What [fetch] is called with when the call may carry options. *)
Record call : Type := mkCall {
  method : jsstring;
  target : jsstring;
  content_type : option jsstring;
  body : option jsstring
}.

(** An [async] function of [api.js] whose fetch carries options. *)
Inductive task (A : Type) : Type :=
| Finished (r : result A)
| Pending (c : call) (k : fetch_outcome -> task A).
Arguments Finished {A} r.
Arguments Pending {A} c k.

(** [return handle(r)] once the awaited fetch has settled. *)
Definition handled (o : fetch_outcome) : task json :=
  Finished match o with
           | NetworkError e => Throw e
           | Responded r => handle r
           end.

Definition createRecord (payload : json) : task json :=
  Pending (mkCall (lit "POST") (lit "/api/records")
                  (Some (lit "application/json"))
                  (Some (JSON_stringify payload)))
          handled.

Definition listRecords : task json :=
  Pending (mkCall (lit "GET") (lit "/api/records") None None) handled.

Definition updateRecord (id payload : json) : task json :=
  Pending (mkCall (lit "PUT") (lit "/api/records/" ++ ToString id)
                  (Some (lit "application/json"))
                  (Some (JSON_stringify payload)))
          handled.

Definition deleteRecord (id : json) : task json :=
  Pending (mkCall (lit "DELETE") (lit "/api/records/" ++ ToString id)
                  None None)
          handled.

(** ** [App.jsx]: the saved records *)

(** The state of [App] with the hooks left out of [AppState]; [range] is
    its two fields. *)
Record Page : Type := mkPage {
  weather : AppState;
  records : json;
  selectedId : option json;
  range_start : jsstring;
  range_end : jsstring
}.

Definition setRecords (v : json) (p : Page) : Page :=
  mkPage (weather p) v (selectedId p) (range_start p) (range_end p).
Definition setSelectedId (v : option json) (p : Page) : Page :=
  mkPage (weather p) (records p) v (range_start p) (range_end p).
Definition setPageError (v : jsstring) (p : Page) : Page :=
  mkPage (setError v (weather p)) (records p) (selectedId p)
         (range_start p) (range_end p).

Definition initial_page (lastLocation lastUnit : option jsstring) : Page :=
  mkPage (initial lastLocation lastUnit) (JArr []) (Some JNull)
         (lit "2025-10-01") (lit "2025-10-05").

(** [{location, start_date: range.start, end_date: range.end}]; a property
    that is [undefined] is not there once the object is serialised. *)
Definition payload (p : Page) : json :=
  JObj (match location (weather p) with
        | Some v => [(lit "location", v)]
        | None => []
        end
        ++ [(lit "start_date", JStr (range_start p));
            (lit "end_date", JStr (range_end p))]).

(** A handler that has run up to an [await]: it is over, or a fetch is in
    flight and the handler goes on, from the state of that moment, with how
    the fetch settles. *)
Inductive proc : Type :=
| Halt
| Fetch (c : call) (k : fetch_outcome -> Page -> Page * proc).

(** [await t], then [k]. *)
Fixpoint await {A : Type} (t : task A)
  (k : result A -> Page -> Page * proc) (p : Page) : Page * proc :=
  match t with
  | Finished r => k r p
  | Pending c k' => (p, Fetch c (fun o p' => await (k' o) k p'))
  end.

(** [try{setRecords(await listRecords())}catch(e){console.error(e)}] *)
Definition refresh (p : Page) : Page * proc :=
  await listRecords
    (fun r p' =>
       match r with
       | Return v => (setRecords v p', Halt)
       | Throw _ => (p', Halt)
       end) p.

Definition onCreate (p : Page) : Page * proc :=
  await (createRecord (payload p))
    (fun r p' =>
       match r with
       | Return JNull =>
           (setPageError
              (cleanErr (TypeError (lit "Cannot read properties of null")))
              p', Halt)
       | Return v => refresh (setSelectedId (get (Some v) (lit "id")) p')
       | Throw e => (setPageError (cleanErr e) p', Halt)
       end) p.

Definition onUpdate (p : Page) : Page * proc :=
  match selectedId p with
  | Some id =>
      if negb (truthy (Some id)) then (p, Halt)
      else
        await (updateRecord id (payload p))
          (fun r p' =>
             match r with
             | Return _ => refresh p'
             | Throw e => (setPageError (cleanErr e) p', Halt)
             end) (setPageError [] p)
  | None => (p, Halt)
  end.

Definition onDelete (p : Page) : Page * proc :=
  match selectedId p with
  | Some id =>
      if negb (truthy (Some id)) then (p, Halt)
      else
        await (deleteRecord id)
          (fun r p' =>
             match r with
             | Return _ => refresh (setSelectedId (Some JNull) p')
             | Throw e => (setPageError (cleanErr e) p', Halt)
             end) p
  | None => (p, Halt)
  end.

(** A handler run to its end against the answers of the network, in order:
    the state it leaves, the calls it made, and whether it is over. *)
Fixpoint settle_all (p : Page) (h : proc) (answers : list fetch_outcome)
  : Page * list call * bool :=
  match h with
  | Halt => (p, [], true)
  | Fetch c k =>
      match answers with
      | [] => (p, [c], false)
      | o :: answers' =>
          let (p', h') := k o p in
          let '(p'', cs, done) := settle_all p' h' answers' in
          (p'', c :: cs, done)
      end
  end.

Definition run_handler (f : Page -> Page * proc) (p : Page)
  (answers : list fetch_outcome) : Page * list call * bool :=
  let (p', h) := f p in settle_all p' h answers.

(** * More of the client *)

(** ** What the two patterns accept, said without patterns *)

(** The text of a number as [COORD_RE] wants it: an optional minus, digits,
    an optional point, and digits or none. *)
Definition number_text (s : jsstring) : Prop :=
  exists sgn d1 dot d2,
    s = sgn ++ d1 ++ dot ++ d2 /\
    (sgn = [] \/ sgn = lit "-") /\
    forallb is_digit d1 = true /\ d1 <> [] /\
    (dot = [] \/ dot = lit ".") /\
    forallb is_digit d2 = true.

(** Two numbers with a comma between, white space allowed around each. *)
Definition coordinate_text (q : jsstring) : Prop :=
  exists w1 n1 w2 w3 n2 w4,
    q = w1 ++ n1 ++ w2 ++ lit "," ++ w3 ++ n2 ++ w4 /\
    forallb is_ws w1 = true /\ forallb is_ws w2 = true /\
    forallb is_ws w3 = true /\ forallb is_ws w4 = true /\
    number_text n1 /\ number_text n2.

(** Five digits, white space allowed around them. *)
Definition zip_text (q : jsstring) : Prop :=
  exists w1 d w2,
    q = w1 ++ d ++ w2 /\
    forallb is_ws w1 = true /\ forallb is_ws w2 = true /\
    forallb is_digit d = true /\ length d = 5.

(** ** The debounce of the suggestions *)

(** No timeout is pending, or one is and [typingTimer] holds its id. *)
Definition debounced (w : World) : Prop :=
  timers w = [] \/
  exists t q, timers w = [(t, q)] /\ typingTimer (app w) = Some t.

(** ** What [encodeURIComponent] takes and gives *)

(** [String.prototype.isWellFormed]: no surrogate stands alone. *)
Fixpoint isWellFormed (s : jsstring) : bool :=
  match s with
  | [] => true
  | c :: s' =>
      if is_high_surrogate c then
        match s' with
        | d :: s'' => is_low_surrogate d && isWellFormed s''
        | [] => false
        end
      else negb (is_low_surrogate c) && isWellFormed s'
  end.

(** Every code unit has 16 bits. *)
Definition code_units (s : jsstring) : bool :=
  forallb (fun c => (c <? 65536)%N) s.

(** The characters of an escaped component: the unreserved ones and [%]. *)
Definition uri_safe (c : char16) : bool := uri_unreserved c || (c =? 37)%N.

(** ** Fixed-point texts *)

(** A finite number below [10^21] in magnitude: where [toFixed] writes
    fixed-point digits. *)
Definition in_fixed_range (x : number) : bool :=
  match to_ratio x with
  | Some (_, num, den) => (num <? 10 ^ 21 * den)%Z
  | None => false
  end.

(** An optional minus, digits, a point, and [f] digits. *)
Definition fixed_text (f : nat) (s : jsstring) : Prop :=
  exists sgn d1 d2,
    s = sgn ++ d1 ++ lit "." ++ d2 /\
    (sgn = [] \/ sgn = lit "-") /\
    forallb is_digit d1 = true /\ d1 <> [] /\
    forallb is_digit d2 = true /\ length d2 = f.

(** ** Answers *)


(** What the promise of a function of [api.js] is rejected with when its
    fetch [rejects]. *)
Definition rejection (o : fetch_outcome) : exn :=
  match o with
  | NetworkError e => e
  | Responded r => Error (failure_text r)
  end.


(** * Strings and patterns *)

Lemma str_eqb_refl (s : jsstring) : str_eqb s s = true.
Proof.
  induction s as [|c s IH]; simpl; [reflexivity|].
  now rewrite N.eqb_refl.
Qed.

Lemma str_eqb_eq (a b : jsstring) : str_eqb a b = true <-> a = b.
Proof.
  split.
  - revert b; induction a as [|x a IH]; intros [|y b]; simpl; try discriminate.
    + reflexivity.
    + intros H. apply andb_true_iff in H as [Hx Hab].
      apply N.eqb_eq in Hx. f_equal; [assumption | now apply IH].
  - intros ->. apply str_eqb_refl.
Qed.

(** ** Trimming *)

Lemma trimStart_ws (w s : jsstring) :
  forallb is_ws w = true -> trimStart (w ++ s) = trimStart s.
Proof.
  induction w as [|c w IH]; simpl; [reflexivity|].
  intros H. apply andb_true_iff in H as [Hc Hw]. rewrite Hc. now apply IH.
Qed.

Lemma trimStart_solid (c : char16) (s : jsstring) :
  is_ws c = false -> trimStart (c :: s) = c :: s.
Proof. intros H. simpl. now rewrite H. Qed.

Lemma forallb_rev {A : Type} (p : A -> bool) (l : list A) :
  forallb p (rev l) = forallb p l.
Proof.
  induction l as [|x l IH]; simpl; [reflexivity|].
  rewrite forallb_app, IH. simpl. rewrite andb_true_r. apply andb_comm.
Qed.

Lemma trimEnd_ws (s w : jsstring) :
  forallb is_ws w = true -> trimEnd (s ++ w) = trimEnd s.
Proof.
  intros H. unfold trimEnd. rewrite rev_app_distr.
  rewrite trimStart_ws by (now rewrite forallb_rev). reflexivity.
Qed.

Lemma trimEnd_solid (s : jsstring) (b : char16) :
  is_ws b = false -> trimEnd (s ++ [b]) = s ++ [b].
Proof.
  intros H. unfold trimEnd. rewrite rev_app_distr.
  change (rev [b] ++ rev s) with (b :: rev s).
  rewrite trimStart_solid by assumption.
  change (b :: rev s) with (rev [b] ++ rev s).
  rewrite <- rev_app_distr. apply rev_involutive.
Qed.

(** Trimming a text that holds something between two runs of white space
    leaves what lies between, when that starts and ends with something else
    than white space. *)
Lemma trim_between (w1 w2 m : jsstring) (a b : char16) :
  forallb is_ws w1 = true -> forallb is_ws w2 = true ->
  is_ws a = false -> is_ws b = false ->
  trim (w1 ++ (a :: m ++ [b]) ++ w2) = a :: m ++ [b].
Proof.
  intros H1 H2 Ha Hb. unfold trim.
  rewrite trimStart_ws by assumption.
  change ((a :: m ++ [b]) ++ w2) with (a :: (m ++ [b]) ++ w2).
  rewrite trimStart_solid by assumption.
  change (a :: (m ++ [b]) ++ w2) with (((a :: m) ++ [b]) ++ w2).
  rewrite trimEnd_ws by assumption.
  now rewrite trimEnd_solid.
Qed.

Lemma trim_one (w1 w2 : jsstring) (a : char16) :
  forallb is_ws w1 = true -> forallb is_ws w2 = true -> is_ws a = false ->
  trim (w1 ++ [a] ++ w2) = [a].
Proof.
  intros H1 H2 Ha. unfold trim.
  rewrite trimStart_ws by assumption.
  change ([a] ++ w2) with (a :: w2).
  rewrite trimStart_solid by assumption.
  change (a :: w2) with (([] ++ [a]) ++ w2).
  rewrite trimEnd_ws by assumption.
  now rewrite trimEnd_solid.
Qed.

Lemma trim_ws (s : jsstring) : forallb is_ws s = true -> trim s = [].
Proof.
  intros H. unfold trim, trimEnd.
  rewrite <- (app_nil_r s), trimStart_ws by assumption. reflexivity.
Qed.

Lemma trimStart_nil_ws (s : jsstring) :
  trimStart s = [] -> forallb is_ws s = true.
Proof.
  induction s as [|c s IH]; simpl; [reflexivity|].
  destruct (is_ws c); [exact IH | discriminate].
Qed.

Lemma trimStart_suffix (s : jsstring) :
  exists w, s = w ++ trimStart s /\ forallb is_ws w = true.
Proof.
  induction s as [|c s [w [Hs Hw]]]; simpl.
  - exists []. split; reflexivity.
  - destruct (is_ws c) eqn:Hc.
    + exists (c :: w). simpl. rewrite Hc, Hw. split; [now f_equal | reflexivity].
    + exists []. split; reflexivity.
Qed.

Lemma trim_nil_ws (s : jsstring) : trim s = [] -> forallb is_ws s = true.
Proof.
  unfold trim, trimEnd. intros H.
  assert (Hr : trimStart (rev (trimStart s)) = []).
  { rewrite <- (rev_involutive (trimStart (rev (trimStart s)))), H.
    reflexivity. }
  apply trimStart_nil_ws in Hr. rewrite forallb_rev in Hr.
  destruct (trimStart_suffix s) as [w [Hs Hw]].
  rewrite Hs, forallb_app, Hw, Hr. reflexivity.
Qed.

(** ** The matcher against the relation *)

Section Matcher.

Variable A : Type.

Lemma star_loop_unfold (step : mstate -> (mstate -> option A) -> option A)
  (k : mstate -> option A) (fuel : nat) (st0 : mstate) :
  star_loop step k (S fuel) st0 =
  match step st0 (fun st1 =>
                    if (length (snd st1) <? length (snd st0))%nat
                    then star_loop step k fuel st1 else None) with
  | Some x => Some x
  | None => k st0
  end.
Proof. reflexivity. Qed.

(** What the matcher finds is a match. *)
Lemma rmatch_sound (r : regex) :
  forall (st : mstate) (k : mstate -> option A) (x : A),
    rmatch r st k = Some x ->
    exists s1 s2,
      snd st = s1 ++ s2 /\ matches r (fst st) s1 s2 /\
      k ((fst st + length s1)%nat, s2) = Some x.
Proof.
  induction r as [| | |p|a IHa b IHb|a IHa b IHb|a IHa];
    intros [n s] k x H; simpl in *.
  - exists [], s. rewrite Nat.add_0_r. repeat split; [constructor | exact H].
  - destruct n; [|discriminate].
    exists [], s. repeat split; [constructor | exact H].
  - destruct s; [|discriminate].
    exists [], []. rewrite Nat.add_0_r.
    repeat split; [constructor | exact H].
  - destruct s as [|c s]; [discriminate|].
    destruct (p c) eqn:Hp; [|discriminate].
    exists [c], s. simpl. rewrite Nat.add_1_r.
    repeat split; [now constructor | exact H].
  - apply IHa in H as (s1 & s' & Hs & Ha & H). simpl in *.
    apply IHb in H as (s2 & s3 & Hs' & Hb & H). simpl in *.
    subst. exists (s1 ++ s2), s3.
    rewrite length_app, Nat.add_assoc, app_assoc.
    repeat split; [now constructor | exact H].
  - destruct (rmatch a (n, s) k) eqn:Ea.
    + injection H as ->. apply IHa in Ea as (s1 & s2 & Hs & Ha & Hk).
      exists s1, s2. repeat split; [exact Hs | now apply M_AltL | exact Hk].
    + apply IHb in H as (s1 & s2 & Hs & Hb & Hk).
      exists s1, s2. repeat split; [exact Hs | now apply M_AltR | exact Hk].
  - remember (length s) as fuel eqn:Hf. clear Hf.
    revert n s H. induction fuel as [|fuel IHf]; intros n s H.
    + simpl in H. exists [], s. rewrite Nat.add_0_r.
      repeat split; [constructor | exact H].
    + rewrite star_loop_unfold in H.
      match type of H with
      | match ?m with _ => _ end = _ => destruct m eqn:Ea
      end.
      * injection H as ->.
        apply IHa in Ea as (s1 & s' & Hs & Ha & Hk). simpl in *.
        destruct (length s' <? length s)%nat eqn:Hlt; [|discriminate].
        apply IHf in Hk as (s2 & s3 & Hs' & Hb & Hk). subst.
        exists (s1 ++ s2), s3.
        rewrite length_app, Nat.add_assoc, app_assoc.
        repeat split; [|exact Hk].
        apply M_StarS; [exact Ha | | exact Hb].
        intros ->. apply Nat.ltb_lt in Hlt. simpl in Hlt. lia.
      * exists [], s. rewrite Nat.add_0_r.
        repeat split; [constructor | exact H].
Qed.

Lemma star_complete (a : regex)
  (IHa : forall n s1 s2 (k : mstate -> option A),
      matches a n s1 s2 ->
      (exists y, k ((n + length s1)%nat, s2) = Some y) ->
      exists x, rmatch a (n, s1 ++ s2) k = Some x)
  (r : regex) (n : nat) (s1 s2 : jsstring) (k : mstate -> option A) :
  matches r n s1 s2 -> r = Star a ->
  (exists y, k ((n + length s1)%nat, s2) = Some y) ->
  forall fuel, (length (s1 ++ s2) <= fuel)%nat ->
    exists x, star_loop (rmatch a) k fuel (n, s1 ++ s2) = Some x.
Proof.
  induction 1 as [| | | | | | |a' n rest|a' n t1 t2 rest Ha _ Hne Hs IHs];
    try discriminate; intros Hr [y Hk] fuel Hfuel;
    injection Hr as ->.
  - rewrite Nat.add_0_r in Hk. simpl app.
    destruct fuel as [|fuel]; [exists y; exact Hk|].
    rewrite star_loop_unfold.
    match goal with
    | |- exists x, match ?m with _ => _ end = _ => destruct m as [x|]
    end; [now exists x | now exists y].
  - destruct fuel as [|fuel].
    { destruct t1; [congruence|]. simpl in Hfuel. lia. }
    rewrite <- app_assoc, star_loop_unfold.
    assert (Hlt : (length (t2 ++ rest) <? length (t1 ++ t2 ++ rest))%nat
                  = true).
    { apply Nat.ltb_lt. rewrite (length_app t1).
      destruct t1; [congruence | simpl; lia]. }
    match goal with
    | |- exists x, match rmatch a ?st ?K with _ => _ end = _ =>
        destruct (IHa n t1 (t2 ++ rest) K Ha) as [x Hx]
    end.
    + simpl snd. rewrite Hlt. apply IHs; [reflexivity | |].
      * exists y. now rewrite length_app, Nat.add_assoc in Hk.
      * rewrite <- app_assoc, (length_app t1) in Hfuel.
        destruct t1; [congruence | simpl in Hfuel; lia].
    + rewrite Hx. now exists x.
Qed.

(** Where there is a match that the continuation accepts, the matcher
    finds one. *)
Lemma rmatch_complete (r : regex) :
  forall n s1 s2 (k : mstate -> option A),
    matches r n s1 s2 ->
    (exists y, k ((n + length s1)%nat, s2) = Some y) ->
    exists x, rmatch r (n, s1 ++ s2) k = Some x.
Proof.
  induction r as [| | |p|a IHa b IHb|a IHa b IHb|a IHa];
    intros n s1 s2 k Hm [y Hk].
  - inversion Hm; subst. rewrite Nat.add_0_r in Hk. now exists y.
  - inversion Hm; subst. now exists y.
  - inversion Hm; subst. rewrite Nat.add_0_r in Hk. now exists y.
  - inversion Hm; subst. simpl in *. rewrite Nat.add_1_r in Hk.
    match goal with H : p _ = true |- _ => rewrite H end. now exists y.
  - inversion Hm; subst. simpl. rewrite <- app_assoc.
    apply IHa; [assumption|]. apply IHb; [assumption|].
    exists y. now rewrite length_app, Nat.add_assoc in Hk.
  - simpl. destruct (rmatch a (n, s1 ++ s2) k) as [x|] eqn:Ea;
      [now exists x|].
    inversion Hm; subst.
    + destruct (IHa n s1 s2 k) as [x Hx]; [assumption | now exists y |].
      congruence.
    + apply IHb; [assumption | now exists y].
  - simpl. eapply star_complete; eauto.
Qed.

End Matcher.

(** ** [test] against the relation *)

Lemma search_from_sound (r : regex) (s : jsstring) :
  forall pos res, search_from r pos s = Some res ->
  exists pre s1 s2,
    s = pre ++ s1 ++ s2 /\ matches r (pos + length pre) s1 s2.
Proof.
  induction s as [|c s IH]; intros pos res H; simpl in H;
    match type of H with
    | context [rmatch ?a ?b ?k] =>
        destruct (rmatch a b k) as [[e t]|] eqn:E
    end; try discriminate.
  - apply rmatch_sound in E as (s1 & s2 & Hs & Hm & _). simpl in *.
    exists [], s1, s2. simpl. rewrite Nat.add_0_r. now split.
  - apply rmatch_sound in E as (s1 & s2 & Hs & Hm & _). simpl in *.
    exists [], s1, s2. simpl. rewrite Nat.add_0_r. now split.
  - apply IH in H as (pre & s1 & s2 & Hs & Hm).
    exists (c :: pre), s1, s2. simpl.
    rewrite Nat.add_succ_r. split; [now f_equal | exact Hm].
Qed.

Lemma test_sound (r : regex) (s : jsstring) :
  test r s = true ->
  exists pre s1 s2, s = pre ++ s1 ++ s2 /\ matches r (length pre) s1 s2.
Proof.
  unfold test, exec. destruct (search_from r 0 s) as [res|] eqn:E;
    [intros _ | discriminate].
  now apply search_from_sound in E.
Qed.

Lemma test_complete (r : regex) (s : jsstring) :
  matches r 0 s [] -> test r s = true.
Proof.
  intros Hm. unfold test, exec.
  destruct (@rmatch_complete (nat * jsstring) r 0 s [] (fun st => Some st) Hm)
    as [[e t] Hx].
  { now eexists. }
  rewrite app_nil_r in Hx.
  destruct s; simpl;
    match goal with
    | |- context [rmatch ?a ?b ?k] =>
        replace (rmatch a b k) with (Some (e, t)) by (symmetry; exact Hx)
    end; reflexivity.
Qed.

(** ** Reading a match apart *)

Lemma matches_Cls_inv (p : char16 -> bool) n s rest :
  matches (Cls p) n s rest -> exists c, s = [c] /\ p c = true.
Proof. inversion 1; subst. now eexists. Qed.

Lemma matches_Eol_inv n s rest :
  matches Eol n s rest -> s = [] /\ rest = [].
Proof. inversion 1; now split. Qed.

Lemma matches_Star_Cls (p : char16 -> bool) n s rest :
  matches (Star (Cls p)) n s rest -> forallb p s = true.
Proof.
  remember (Star (Cls p)) as r eqn:Hr. intros H.
  induction H; try discriminate; injection Hr as ->; [reflexivity|].
  match goal with H : matches (Cls p) _ _ _ |- _ =>
    apply matches_Cls_inv in H as (c & -> & Hc) end.
  simpl. rewrite Hc. auto.
Qed.

Lemma Star_Cls_matches (p : char16 -> bool) s :
  forallb p s = true -> forall n rest, matches (Star (Cls p)) n s rest.
Proof.
  induction s as [|c s IH]; intros H n rest; [constructor|].
  simpl in H. apply andb_true_iff in H as [Hc Hs].
  change (c :: s) with ([c] ++ s).
  apply M_StarS; [now constructor | discriminate | now apply IH].
Qed.

Lemma matches_Plus_Cls (p : char16 -> bool) n s rest :
  matches (Plus (Cls p)) n s rest -> forallb p s = true /\ s <> [].
Proof.
  unfold Plus. inversion 1; subst.
  match goal with H : matches (Cls p) _ _ _ |- _ =>
    apply matches_Cls_inv in H as (c & -> & Hc) end.
  match goal with H : matches (Star _) _ _ _ |- _ =>
    apply matches_Star_Cls in H end.
  simpl. rewrite Hc. split; [assumption | discriminate].
Qed.

Lemma Plus_Cls_matches (p : char16 -> bool) s :
  forallb p s = true -> s <> [] ->
  forall n rest, matches (Plus (Cls p)) n s rest.
Proof.
  destruct s as [|c s]; [congruence|]. intros H _ n rest.
  simpl in H. apply andb_true_iff in H as [Hc Hs].
  change (c :: s) with ([c] ++ s). unfold Plus.
  apply M_Seq; [now constructor | now apply Star_Cls_matches].
Qed.

Lemma matches_Opt_inv (a : regex) n s rest :
  matches (Opt a) n s rest -> s = [] \/ matches a n s rest.
Proof.
  unfold Opt. inversion 1; subst; [now right | left].
  match goal with H : matches Eps _ _ _ |- _ => now inversion H end.
Qed.

Lemma matches_chars_inv (l : jsstring) : forall n s rest,
  matches (fold_right (fun c r => Seq (Cls (N.eqb c)) r) Eps l) n s rest ->
  s = l.
Proof.
  induction l as [|c l IH]; intros n s rest H; simpl in H.
  - now inversion H.
  - inversion H; subst.
    match goal with H : matches (Cls _) _ _ _ |- _ =>
      apply matches_Cls_inv in H as (x & -> & Hx) end.
    apply N.eqb_eq in Hx. subst.
    match goal with H : matches (fold_right _ _ _) _ _ _ |- _ =>
      apply IH in H end.
    now subst.
Qed.

Lemma matches_Lit_inv (t : string) n s rest :
  matches (Lit t) n s rest -> s = lit t.
Proof. apply matches_chars_inv. Qed.

Lemma Lit_matches (t : string) n rest : matches (Lit t) n (lit t) rest.
Proof.
  unfold Lit. revert n. induction (lit t) as [|c l IH]; intros n; simpl.
  - constructor.
  - change (c :: l) with ([c] ++ l).
    apply M_Seq; [constructor; apply N.eqb_refl | apply IH].
Qed.

(** A pattern without anchors matches wherever it stands. *)
Lemma matches_shift (r : regex) n s rest :
  matches r n s rest -> anchor_free r = true ->
  forall n' rest', matches r n' s rest'.
Proof.
  induction 1; simpl; intros Hfree n' rest'; try discriminate.
  - constructor.
  - now constructor.
  - apply andb_true_iff in Hfree as [Ha Hb]. apply M_Seq; auto.
  - apply andb_true_iff in Hfree as [Ha Hb]. apply M_AltL; auto.
  - apply andb_true_iff in Hfree as [Ha Hb]. apply M_AltR; auto.
  - constructor.
  - apply M_StarS; auto.
Qed.

(** A sequence of items matches piece by piece. *)
Lemma matches_Cat_cons (a : regex) (l : list regex) n s rest :
  matches (Cat (a :: l)) n s rest <->
  exists s1 s2, s = s1 ++ s2 /\ matches a n s1 (s2 ++ rest) /\
                matches (Cat l) (n + length s1) s2 rest.
Proof.
  split.
  - inversion 1; subst. now eexists _, _.
  - intros (s1 & s2 & -> & Ha & Hl). now apply M_Seq.
Qed.

Lemma matches_Cat_nil n s rest : matches (Cat []) n s rest <-> s = [].
Proof.
  split; [now inversion 1 | intros ->; constructor].
Qed.

Lemma Cat_anchor_free (l : list regex) :
  forallb anchor_free l = true -> anchor_free (Cat l) = true.
Proof.
  induction l as [|a l IH]; simpl; [reflexivity|].
  intros H. apply andb_true_iff in H as [Ha Hl]. rewrite Ha. now apply IH.
Qed.

Lemma matches_Cat_app (l1 l2 : list regex) : forall n s rest,
  matches (Cat (l1 ++ l2)) n s rest <->
  exists s1 s2, s = s1 ++ s2 /\ matches (Cat l1) n s1 (s2 ++ rest) /\
                matches (Cat l2) (n + length s1) s2 rest.
Proof.
  induction l1 as [|a l1 IH]; intros n s rest.
  - simpl app. split.
    + intros H. exists [], s. simpl. rewrite Nat.add_0_r.
      repeat split; [constructor | exact H].
    + intros (s1 & s2 & -> & H1 & H2).
      apply matches_Cat_nil in H1. subst. simpl in *.
      now rewrite Nat.add_0_r in H2.
  - change ((a :: l1) ++ l2) with (a :: (l1 ++ l2)).
    rewrite matches_Cat_cons. split.
    + intros (s1 & s2 & -> & Ha & H). apply IH in H as (t1 & t2 & -> & H1 & H2).
      exists (s1 ++ t1), t2. rewrite <- app_assoc. split; [reflexivity|].
      split.
      * apply matches_Cat_cons. exists s1, t1.
        rewrite <- app_assoc in Ha. now repeat split.
      * now rewrite length_app, Nat.add_assoc.
    + intros (s1 & s2 & -> & H1 & H2).
      apply matches_Cat_cons in H1 as (t1 & t2 & -> & Ha & H1).
      exists t1, (t2 ++ s2). rewrite <- !app_assoc.
      split; [reflexivity|]. split; [exact Ha|].
      apply IH. exists t2, s2. split; [reflexivity|]. split; [exact H1|].
      now rewrite length_app, Nat.add_assoc in H2.
Qed.

(** * [JSON.parse]: the fuel is enough *)

Lemma skip_ws_le (s : jsstring) : length (skip_ws s) <= length s.
Proof.
  induction s as [|c s IH]; simpl; [lia|].
  destruct (json_ws c); simpl; lia.
Qed.

Lemma starts_length (c : char16) (s r : jsstring) :
  starts c s = Some r -> length s = S (length r).
Proof.
  destruct s as [|x s]; simpl; [discriminate|].
  destruct (x =? c)%N; [|discriminate]. now intros [= ->].
Qed.

Lemma after_word_length (w : jsstring) : forall s r,
  after_word w s = Some r -> length s = length w + length r.
Proof.
  induction w as [|c w IH]; intros s r; simpl.
  - now intros [= ->].
  - destruct (starts c s) as [s'|] eqn:E; [|discriminate].
    intros H. apply IH in H. apply starts_length in E. lia.
Qed.

Lemma parse_chars_lt (n : nat) : forall s acc t r,
  length s <= n -> parse_chars s acc = Some (t, r) -> length r < length s.
Proof.
  induction n as [|n IH]; intros s acc t r Hn H.
  - destruct s; [discriminate | simpl in Hn; lia].
  - destruct s as [|c s]; [discriminate|]. simpl in Hn.
    cbn [parse_chars] in H.
    destruct (c =? 34)%N; [injection H as _ ->; simpl; lia|].
    destruct (c =? 92)%N.
    + destruct s as [|e s]; [discriminate|]. simpl in Hn.
      destruct (e =? 117)%N.
      * destruct s as [|a [|b [|c' [|d s]]]]; try discriminate.
        destruct (hex_value a), (hex_value b), (hex_value c'), (hex_value d);
          try discriminate.
        apply IH in H; simpl in *; lia.
      * destruct (escape e); [|discriminate].
        apply IH in H; simpl in *; lia.
    + destruct (c <? 32)%N; [discriminate|].
      apply IH in H; simpl in *; lia.
Qed.

Lemma parse_digits_length (s : jsstring) : forall a n a' n' r,
  parse_digits s a n = (a', n', r) ->
  length r <= length s /\ (n' = n + Z.of_nat (length s - length r))%Z.
Proof.
  induction s as [|c s IH]; intros a n a' n' r H; simpl in H.
  - injection H as <- <- <-. simpl. split; lia.
  - destruct (is_digit c).
    + apply IH in H as [H1 H2]. cbn [length]. split; lia.
    + injection H as <- <- <-. split; [lia|]. rewrite Nat.sub_diag. lia.
Qed.

(** One step through a parser's tests, keeping what each says of lengths. *)
Ltac parser_step :=
  match goal with
  | |- context [starts ?c ?s] =>
      let E := fresh "E" in
      let L := fresh "L" in
      destruct (starts c s) eqn:E; [pose proof (starts_length _ _ E) as L|]
  | |- context [parse_digits ?s ?a ?n] =>
      let D := fresh "D" in
      let L := fresh "L" in
      let L' := fresh "L" in
      destruct (parse_digits s a n) as [[? ?] ?] eqn:D;
      pose proof (parse_digits_length _ _ _ D) as [L L']
  | |- context [(?n =? 0)%Z] =>
      let Z := fresh "Z" in
      destruct (n =? 0)%Z eqn:Z; [|apply Z.eqb_neq in Z]
  end.

(** Running a parser again along the tests already made. *)
Ltac replay :=
  repeat match goal with
         | H : starts _ _ = _ |- _ => rewrite H
         end.

(** The lengths around every [skip_ws] in sight. *)
Ltac ws_facts :=
  repeat match goal with
         | H : context [skip_ws ?x] |- _ =>
             lazymatch goal with
             | _ : length (skip_ws x) <= length x |- _ => fail
             | _ => pose proof (skip_ws_le x)
             end
         end.

Lemma parse_number_lt (s : jsstring) (x : number) (r : jsstring) :
  parse_number s = Some (x, r) -> length r < length s.
Proof.
  unfold parse_number. repeat parser_step; try discriminate;
    intros [= _ <-]; cbn [length] in *; lia.
Qed.

(** What a parser of the three returns has a shorter rest, and comes out the
    same with any fuel of twice the consumed length or more. *)
Lemma parse_fuel (f : nat) :
  (forall s v r,
      parse_value f s = Some (v, r) ->
      length r < length s /\
      forall f', 2 * (length s - length r) <= f' ->
                 parse_value f' s = Some (v, r)) /\
  (forall s acc v r,
      parse_elements f s acc = Some (v, r) ->
      length r < length s /\
      forall f', 2 * (length s - length r) <= f' ->
                 parse_elements f' s acc = Some (v, r)) /\
  (forall s acc v r,
      parse_members f s acc = Some (v, r) ->
      length r < length s /\
      forall f', 2 * (length s - length r) <= f' ->
                 parse_members f' s acc = Some (v, r)).
Proof.
  induction f as [|f (IHv & IHe & IHm)];
    [repeat split; discriminate|].
  assert (Hv : forall s v r,
             parse_value (S f) s = Some (v, r) -> length r < length s).
  { intros s v r. cbn [parse_value]. pose proof (skip_ws_le s) as Hs.
    repeat parser_step.
    + intros [= <- <-]. ws_facts. lia.
    + intros H. apply IHm in H as [H _]. lia.
    + intros [= <- <-]. ws_facts. lia.
    + intros H. apply IHe in H as [H _]. lia.
    + match goal with
      | |- context [parse_chars ?x []] =>
          destruct (parse_chars x []) as [[t r']|] eqn:C; [|discriminate];
          apply (parse_chars_lt (n := length x)) in C; [|lia]
      end.
      intros [= <- <-]. lia.
    + destruct (after_word (lit "true") (skip_ws s)) as [r'|] eqn:W1.
      { apply after_word_length in W1. intros [= <- <-].
        change (length (lit "true")) with 4 in W1. lia. }
      destruct (after_word (lit "false") (skip_ws s)) as [r'|] eqn:W2.
      { apply after_word_length in W2. intros [= <- <-].
        change (length (lit "false")) with 5 in W2. lia. }
      destruct (after_word (lit "null") (skip_ws s)) as [r'|] eqn:W3.
      { apply after_word_length in W3. intros [= <- <-].
        change (length (lit "null")) with 4 in W3. lia. }
      destruct (parse_number (skip_ws s)) as [[x r']|] eqn:N; [|discriminate].
      apply parse_number_lt in N. intros [= <- <-]. lia. }
  assert (He : forall s acc v r,
             parse_elements (S f) s acc = Some (v, r) -> length r < length s).
  { intros s acc v r. cbn [parse_elements].
    destruct (parse_value f s) as [[v1 r1]|] eqn:V; [|discriminate].
    apply IHv in V as [V _]. repeat parser_step; try discriminate.
    + intros H. apply IHe in H as [H _]. ws_facts. lia.
    + intros [= <- <-]. ws_facts. lia. }
  assert (Hm : forall s acc v r,
             parse_members (S f) s acc = Some (v, r) -> length r < length s).
  { intros s acc v r. cbn [parse_members]. parser_step; [|discriminate].
    match goal with
    | |- context [parse_chars ?x []] =>
        destruct (parse_chars x []) as [[k r1]|] eqn:C; [|discriminate];
        apply (parse_chars_lt (n := length x)) in C; [|lia]
    end.
    parser_step; [|discriminate].
    match goal with
    | |- context [parse_value f ?x] =>
        destruct (parse_value f x) as [[v1 r3]|] eqn:V; [|discriminate]
    end.
    apply IHv in V as [V _]. repeat parser_step; try discriminate.
    + intros H. apply IHm in H as [H _]. ws_facts. lia.
    + intros [= <- <-]. ws_facts. lia. }
  split; [|split].
  - intros s v r H. split; [now apply Hv in H|].
    intros f' Hf'. pose proof (Hv _ _ _ H) as Hlt.
    destruct f' as [|f']; [lia|]. revert H. cbn [parse_value].
    repeat parser_step; try (intros H; exact H); intros H.
    + pose proof H as H'. apply IHm in H' as [Hl H']. apply H'.
      ws_facts. lia.
    + pose proof H as H'. apply IHe in H' as [Hl H']. apply H'.
      ws_facts. lia.
  - intros s acc v r H. split; [now apply He in H|].
    intros f' Hf'. pose proof (He _ _ _ _ H) as Hlt.
    destruct f' as [|f']; [lia|]. revert H. cbn [parse_elements].
    destruct (parse_value f s) as [[v1 r1]|] eqn:V; [|discriminate].
    apply IHv in V as [Vl V].
    repeat parser_step; try discriminate; intros H.
    + pose proof H as H'. apply IHe in H' as [Hl H'].
      rewrite V by (ws_facts; lia). replay. apply H'. ws_facts. lia.
    + injection H as <- <-. rewrite V by (ws_facts; lia).
      replay. reflexivity.
  - intros s acc v r H. split; [now apply Hm in H|].
    intros f' Hf'. pose proof (Hm _ _ _ _ H) as Hlt.
    destruct f' as [|f']; [lia|]. revert H. cbn [parse_members].
    parser_step; [|discriminate].
    match goal with
    | |- context [parse_chars ?x []] =>
        destruct (parse_chars x []) as [[k r1]|] eqn:C; [|discriminate];
        pose proof (parse_chars_lt (n := length x) _ _ (le_n _) C) as Lc
    end.
    parser_step; [|discriminate].
    match goal with
    | |- context [parse_value f ?x] =>
        destruct (parse_value f x) as [[v1 r3]|] eqn:V; [|discriminate]
    end.
    apply IHv in V as [Vl V].
    repeat parser_step; try discriminate; intros H.
    + pose proof H as H'. apply IHm in H' as [Hl H'].
      rewrite V by (ws_facts; lia). replay. apply H'. ws_facts. lia.
    + injection H as <- <-. rewrite V by (ws_facts; lia).
      replay. reflexivity.
Qed.

(** Whatever some fuel parses, the fuel of [JSON_parse] parses. *)
Lemma JSON_parse_fuel (f : nat) (text : jsstring) (v : json) (r : jsstring) :
  parse_value f text = Some (v, r) ->
  parse_value (2 * length text + 2) text = Some (v, r).
Proof.
  intros H. destruct (parse_fuel f) as (Hv & _).
  apply Hv in H as [_ H]. apply H. lia.
Qed.

(** * Input classification *)

Lemma digit_not_ws (c : char16) : is_digit c = true -> is_ws c = false.
Proof.
  unfold is_digit, is_ws. intros H.
  apply andb_true_iff in H as [H1 H2].
  apply N.leb_le in H1, H2.
  repeat rewrite orb_false_iff. repeat split;
    first [ apply N.eqb_neq; lia
          | apply andb_false_iff; right; apply N.leb_gt; lia
          | apply andb_false_iff; left; apply N.leb_gt; lia ].
Qed.

Lemma digits_solid (s : jsstring) : forallb is_digit s = true -> solid s = true.
Proof.
  unfold solid. induction s as [|c s IH]; simpl; [reflexivity|].
  intros H. apply andb_true_iff in H as [Hc Hs].
  rewrite (digit_not_ws _ Hc). now apply IH.
Qed.

Lemma solid_app (a b : jsstring) :
  solid (a ++ b) = solid a && solid b.
Proof. apply forallb_app. Qed.

(** A text that starts and ends with a solid, non-empty part starts and ends
    with something else than white space. *)
Lemma solid_edges (h m t : jsstring) :
  solid h = true -> h <> [] -> solid t = true -> t <> [] ->
  exists a x b, h ++ m ++ t = a :: x ++ [b] /\
                is_ws a = false /\ is_ws b = false.
Proof.
  intros Hh Hne Ht Hnt.
  destruct h as [|a h]; [congruence|].
  destruct (exists_last Hnt) as (t' & b & ->).
  exists a, (h ++ m ++ t'), b. repeat split.
  - simpl. now rewrite <- !app_assoc.
  - simpl in Hh. apply andb_true_iff in Hh as [Ha _].
    now apply negb_true_iff in Ha.
  - rewrite solid_app in Ht. apply andb_true_iff in Ht as [_ Hb].
    simpl in Hb. rewrite andb_true_r in Hb. now apply negb_true_iff in Hb.
Qed.

(** The text of a number [-?\d+\.?\d*] is solid and not empty. *)
Lemma NUMBER_solid n s rest :
  matches (Cat NUMBER) n s rest -> solid s = true /\ s <> [].
Proof.
  unfold NUMBER. intros H.
  apply matches_Cat_cons in H as (sgn & s1 & -> & Hsgn & H).
  apply matches_Cat_cons in H as (d1 & s2 & -> & Hd1 & H).
  apply matches_Cat_cons in H as (dot & s3 & -> & Hdot & H).
  apply matches_Cat_cons in H as (d2 & s4 & -> & Hd2 & H).
  apply matches_Cat_nil in H. subst.
  apply matches_Plus_Cls in Hd1 as [Hd1 Hne].
  apply matches_Star_Cls in Hd2.
  assert (Hs : solid sgn = true).
  { apply matches_Opt_inv in Hsgn as [->|Hsgn]; [reflexivity|].
    apply matches_Lit_inv in Hsgn. now subst. }
  assert (Hp : solid dot = true).
  { apply matches_Opt_inv in Hdot as [->|Hdot]; [reflexivity|].
    apply matches_Lit_inv in Hdot. now subst. }
  split.
  - rewrite !solid_app, Hs, Hp, !digits_solid by assumption. reflexivity.
  - intros E. apply app_eq_nil in E as [_ E].
    apply app_eq_nil in E as [E _]. contradiction.
Qed.

Lemma PAIR_anchor_free : anchor_free (Cat PAIR) = true.
Proof. reflexivity. Qed.

(** The text of a pair starts and ends with something else than white space,
    and holds a comma. *)
Lemma PAIR_edges n s rest :
  matches (Cat PAIR) n s rest ->
  (exists a x b, s = a :: x ++ [b] /\ is_ws a = false /\ is_ws b = false)
  /\ In 44%N s.
Proof.
  unfold PAIR. intros H.
  apply matches_Cat_app in H as (h & s1 & -> & Hh & H).
  apply matches_Cat_app in H as (m & t & -> & Hm & Ht).
  apply NUMBER_solid in Hh as [Hh Hhne].
  apply NUMBER_solid in Ht as [Ht Htne].
  split; [now apply solid_edges|].
  apply matches_Cat_cons in Hm as (w & m1 & -> & _ & Hm).
  apply matches_Cat_cons in Hm as (c & m2 & -> & Hc & _).
  apply matches_Lit_inv in Hc. subst c.
  rewrite !in_app_iff. right; left; right; left. now left.
Qed.

(** What [COORD_RE] matches: a pair between two runs of white space. *)
Lemma COORD_RE_shape (q : jsstring) :
  test COORD_RE q = true ->
  exists w1 x w2,
    q = w1 ++ x ++ w2 /\
    forallb is_ws w1 = true /\ forallb is_ws w2 = true /\
    matches (Cat PAIR) 0 x [].
Proof.
  intros H. apply test_sound in H as (pre & s1 & s2 & -> & H).
  unfold COORD_RE in H.
  apply matches_Cat_cons in H as (b & s & -> & Hb & H).
  assert (Hpre : pre = [] /\ b = []).
  { inversion Hb. destruct pre; [now split | discriminate]. }
  destruct Hpre as [-> ->]. cbn [app length Nat.add] in *.
  apply matches_Cat_cons in H as (w1 & s0 & -> & Hw1 & H).
  apply matches_Cat_app in H as (x & s3 & -> & Hx & H).
  apply matches_Cat_cons in H as (w2 & s4 & -> & Hw2 & H).
  apply matches_Cat_cons in H as (e & s5 & -> & He & H).
  apply matches_Cat_nil in H. subst.
  apply matches_Eol_inv in He as [-> Hrest].
  assert (s2 = []) by exact Hrest. subst s2.
  apply matches_Star_Cls in Hw1, Hw2.
  exists w1, x, w2. cbn [app]. rewrite !app_nil_r.
  repeat split; try assumption.
  eapply matches_shift; [exact Hx | exact PAIR_anchor_free].
Qed.

Lemma COORD_RE_pair (x : jsstring) :
  matches (Cat PAIR) 0 x [] -> test COORD_RE x = true.
Proof.
  intros Hx. apply test_complete. unfold COORD_RE.
  apply matches_Cat_cons. exists [], x. repeat split; [constructor|].
  apply matches_Cat_cons. exists [], x. repeat split; [constructor|].
  apply matches_Cat_app. exists x, []. rewrite app_nil_r.
  repeat split.
  - eapply matches_shift; [exact Hx | exact PAIR_anchor_free].
  - apply matches_Cat_cons. exists [], []. repeat split; [constructor|].
    apply matches_Cat_cons. exists [], []. repeat split; [constructor|].
    now apply matches_Cat_nil.
Qed.

(** [COORD_RE] matches a text if and only if it matches the trimmed text; the
    trimmed text is then not empty. *)
Lemma COORD_RE_trim (q : jsstring) :
  test COORD_RE q = true -> test COORD_RE (trim q) = true /\ trim q <> [].
Proof.
  intros H. apply COORD_RE_shape in H as (w1 & x & w2 & -> & H1 & H2 & Hx).
  destruct (PAIR_edges Hx) as [(a & m & b & -> & Ha & Hb) _].
  rewrite trim_between by assumption.
  split; [now apply COORD_RE_pair | discriminate].
Qed.

Lemma isWordyQuery_coord (q : jsstring) :
  test COORD_RE q = true -> isWordyQuery q = false.
Proof.
  intros H. apply COORD_RE_trim in H as [H Hne].
  unfold isWordyQuery. destruct (trim q); [reflexivity|]. now rewrite H.
Qed.

(** ** [scheduleSuggest] on an input that is not a freeform query *)

Lemma In_remove_id {A : Type} (id : nat) (l : list (nat * A)) p :
  In p (remove_id id l) -> In p l.
Proof. unfold remove_id. intros H. now apply filter_In in H. Qed.

Lemma scheduleSuggest_not_wordy (q : jsstring) (w : World) :
  isWordyQuery q = false ->
  let w' := scheduleSuggest q w in
  cands (app w') = JArr [] /\ openSug (app w') = false /\
  error (app w') = error (app w) /\
  requests w' = requests w /\ inflight w' = inflight w /\
  next_id w' = next_id w /\
  (forall p, In p (timers w') -> In p (timers w)).
Proof.
  intros H. unfold scheduleSuggest. rewrite H. simpl negb. cbv iota.
  destruct (typingTimer (app w)); simpl; repeat split; auto.
  intros p. apply In_remove_id.
Qed.



(** ** Five digits *)

Lemma Times_Cls_matches (p : char16 -> bool) (s : jsstring) :
  forallb p s = true ->
  forall n rest, matches (Times (length s) (Cls p)) n s rest.
Proof.
  induction s as [|c s IH]; intros H n rest; simpl.
  - constructor.
  - simpl in H. apply andb_true_iff in H as [Hc Hs].
    change (c :: s) with ([c] ++ s).
    apply M_Seq; [now constructor | now apply IH].
Qed.

Lemma ZIP_RE_digits (d : jsstring) :
  forallb is_digit d = true -> length d = 5 -> test ZIP_RE d = true.
Proof.
  intros Hd Hl. apply test_complete. unfold ZIP_RE.
  apply matches_Cat_cons. exists [], d. repeat split; [constructor|].
  apply matches_Cat_cons. exists [], d. repeat split; [constructor|].
  apply matches_Cat_cons. exists d, []. rewrite app_nil_r.
  repeat split; [rewrite <- Hl; now apply Times_Cls_matches|].
  apply matches_Cat_cons. exists [], []. repeat split; [constructor|].
  apply matches_Cat_cons. exists [], []. repeat split; [constructor|].
  now apply matches_Cat_nil.
Qed.

Lemma ZIP_RE_padded (w1 d w2 : jsstring) :
  forallb is_ws w1 = true -> forallb is_digit d = true -> length d = 5 ->
  forallb is_ws w2 = true -> test ZIP_RE (w1 ++ d ++ w2) = true.
Proof.
  intros H1 Hd Hl H2. apply test_complete. unfold ZIP_RE.
  apply matches_Cat_cons. exists [], (w1 ++ d ++ w2).
  repeat split; [constructor|].
  apply matches_Cat_cons. exists w1, (d ++ w2).
  repeat split; [now apply Star_Cls_matches|].
  apply matches_Cat_cons. exists d, w2.
  repeat split; [rewrite <- Hl; now apply Times_Cls_matches|].
  apply matches_Cat_cons. exists w2, []. rewrite app_nil_r.
  repeat split; [now apply Star_Cls_matches|].
  apply matches_Cat_cons. exists [], []. repeat split; [constructor|].
  now apply matches_Cat_nil.
Qed.

Lemma five_digits_edges (d : jsstring) :
  forallb is_digit d = true -> length d = 5 ->
  exists a m b, d = a :: m ++ [b] /\ is_ws a = false /\ is_ws b = false.
Proof.
  intros Hd Hl.
  destruct d as [|a [|b [|c [|e [|f [|g d]]]]]]; try discriminate.
  simpl in Hd. repeat rewrite andb_true_iff in Hd.
  destruct Hd as (Ha & _ & _ & _ & Hf & _).
  exists a, [b; c; e], f. repeat split; now apply digit_not_ws.
Qed.

(** Digits and white space hold no comma, so [COORD_RE] does not match them. *)
Lemma COORD_RE_needs_comma (q : jsstring) :
  forallb (fun c => is_ws c || is_digit c) q = true ->
  test COORD_RE q = false.
Proof.
  intros Hq. destruct (test COORD_RE q) eqn:E; [exfalso | reflexivity].
  apply COORD_RE_shape in E as (w1 & x & w2 & -> & _ & _ & Hx).
  apply PAIR_edges in Hx as [_ Hin].
  rewrite forallb_forall in Hq.
  specialize (Hq 44%N). rewrite !in_app_iff in Hq.
  assert (F : is_ws 44%N || is_digit 44%N = true)
    by (apply Hq; right; now left).
  discriminate F.
Qed.

(** C2.  Five digits, with white space around them or not, are a ZIP and not
    a freeform query: [ZIP_RE] matches, [COORD_RE] does not, [isWordyQuery]
    returns false, and [scheduleSuggest] sets no timer and issues no search
    for them. *)
Theorem zip_not_suggested (w1 d w2 : jsstring) (w : World) :
  forallb is_ws w1 = true -> forallb is_digit d = true -> length d = 5 ->
  forallb is_ws w2 = true ->
  let q := w1 ++ d ++ w2 in
  test ZIP_RE q = true /\ test COORD_RE q = false /\
  isWordyQuery q = false /\
  let w' := scheduleSuggest q w in
  cands (app w') = JArr [] /\ openSug (app w') = false /\
  requests w' = requests w /\ inflight w' = inflight w /\
  next_id w' = next_id w /\
  (forall p, In p (timers w') -> In p (timers w)).
Proof.
  intros H1 Hd Hl H2 q.
  assert (Hz : test ZIP_RE q = true) by now apply ZIP_RE_padded.
  assert (Hc : test COORD_RE q = false).
  { apply COORD_RE_needs_comma. unfold q.
    rewrite !forallb_app. repeat (apply andb_true_iff; split);
      apply forallb_forall; intros c Hin.
    - rewrite forallb_forall in H1. now rewrite H1.
    - rewrite forallb_forall in Hd. rewrite (Hd _ Hin). apply orb_true_r.
    - rewrite forallb_forall in H2. now rewrite H2. }
  assert (Hw : isWordyQuery q = false).
  { unfold isWordyQuery, q.
    destruct (five_digits_edges d Hd Hl) as (a & m & b & E & Ha & Hb).
    rewrite E, trim_between by assumption. rewrite <- E.
    rewrite (ZIP_RE_digits d Hd Hl).
    destruct (test COORD_RE d); destruct d; try reflexivity; discriminate. }
  repeat split; try assumption;
    destruct (scheduleSuggest_not_wordy q w Hw) as (? & ? & ? & ? & ? & ? & ?);
    assumption.
Qed.

Lemma zip_not_suggested_witness :
  (forallb is_ws (lit " ") = true /\ forallb is_digit (lit "10001") = true /\
   length (lit "10001") = 5 /\ forallb is_ws (lit "  ") = true) /\
  test ZIP_RE (lit " 10001  ") = true /\
  isWordyQuery (lit " 10001  ") = false.
Proof.
  split; [repeat split|].
  destruct (zip_not_suggested (lit " ") (lit "10001") (lit "  ")
              (mount None None)) as (Hz & _ & Hw & _);
    try reflexivity.
  split; [exact Hz | exact Hw].
Defined.

(** * Display helpers *)

Lemma includes_app (xs ys : list number) (v : option json) :
  includes (xs ++ ys) v = includes xs v || includes ys v.
Proof.
  destruct v as [[| |y| | |]|]; try reflexivity. apply existsb_app.
Qed.

Lemma wcToEmoji_in_emojis (v : option json) : In (wcToEmoji v) emojis.
Proof.
  unfold wcToEmoji, emojis.
  repeat match goal with
         | |- context [if ?b then _ else _] => destruct b
         end; simpl; tauto.
Qed.

Lemma emojis_NoDup : NoDup emojis.
Proof.
  unfold emojis. repeat constructor; cbv; intuition discriminate.
Qed.

Lemma wcToEmoji_unknown (v : option json) :
  includes known_codes v = false -> wcToEmoji v = emoji_thermometer.
Proof.
  intros H. unfold wcToEmoji.
  change known_codes with
    ([0] ++ [1; 2; 3] ++ [45; 48]
     ++ [51; 53; 55; 61; 63; 65; 80; 81; 82]
     ++ [71; 73; 75; 85; 86] ++ [95; 96; 99])%float in H.
  rewrite !includes_app in H. repeat rewrite orb_false_iff in H.
  destruct H as (-> & -> & -> & -> & -> & ->). reflexivity.
Qed.

(** C10.  [wcToEmoji] returns, on every input, one of seven emoji that differ
    from one another: the sun for code 0, partly cloudy for 1 to 3, fog for 45
    and 48, rain for the drizzle, rain and shower codes, snow for the snow
    codes, the storm for the thunderstorm codes, and the thermometer for every
    value that is none of these codes. *)
Theorem wcToEmoji_table :
  (forall v, In (wcToEmoji v) emojis) /\
  NoDup emojis /\ length emojis = 7 /\
  wcToEmoji (Some (JNum 0)) = emoji_sun /\
  Forall (fun c => wcToEmoji (Some (JNum c)) = emoji_partly_cloudy)
         [1; 2; 3]%float /\
  Forall (fun c => wcToEmoji (Some (JNum c)) = emoji_fog) [45; 48]%float /\
  Forall (fun c => wcToEmoji (Some (JNum c)) = emoji_rain)
         [51; 53; 55; 61; 63; 65; 80; 81; 82]%float /\
  Forall (fun c => wcToEmoji (Some (JNum c)) = emoji_snow)
         [71; 73; 75; 85; 86]%float /\
  Forall (fun c => wcToEmoji (Some (JNum c)) = emoji_storm)
         [95; 96; 99]%float /\
  (forall v, includes known_codes v = false ->
             wcToEmoji v = emoji_thermometer).
Proof.
  split; [exact wcToEmoji_in_emojis|].
  split; [exact emojis_NoDup|].
  split; [reflexivity|].
  split; [reflexivity|].
  repeat (split; [repeat constructor|]).
  exact wcToEmoji_unknown.
Qed.

Lemma wcToEmoji_table_witness :
  includes known_codes (Some (JNum 4)) = false /\
  includes known_codes (Some (JStr (lit "0"))) = false /\
  includes known_codes None = false /\
  wcToEmoji (Some (JNum 4)) = emoji_thermometer /\
  wcToEmoji (Some (JStr (lit "0"))) = emoji_thermometer /\
  wcToEmoji None = emoji_thermometer.
Proof.
  destruct wcToEmoji_table as (_ & _ & _ & _ & _ & _ & _ & _ & _ & H).
  repeat split; try reflexivity; apply H; reflexivity.
Defined.

(** The zero of either sign is code 0; a text or a missing code is no code. *)
Example wcToEmoji_negative_zero :
  wcToEmoji (Some (JNum (-0)%float)) = emoji_sun.
Proof. reflexivity. Qed.



Example fmtTemp_boiling :
  fmtTemp (Num 100) (lit "f") = lit "212" ++ degree ++ lit "F"
  /\ fmtTemp (Num 100) (lit "c") = lit "100" ++ degree ++ lit "C".
Proof. split; vm_compute; reflexivity. Qed.

Example fmtTemp_rounds_half_up :
  fmtTemp (Num 2.5) (lit "c") = lit "3" ++ degree ++ lit "C"
  /\ fmtTemp (Num (-2.5)) (lit "c") = lit "-2" ++ degree ++ lit "C"
  /\ fmtTemp (Num 20.6) (lit "f") = lit "69" ++ degree ++ lit "F".
Proof. repeat split; vm_compute; reflexivity. Qed.

Example fmtWind_gale :
  fmtWind (Num 100) (lit "f") = lit "62 mph"
  /\ fmtWind (Num 100) (lit "c") = lit "100 km/h".
Proof. split; vm_compute; reflexivity. Qed.

Example fmtPrecip_tenths :
  fmtPrecip (Num 0.25) = lit "0.3 mm" /\ fmtPrecip (Num 12) = lit "12.0 mm".
Proof. split; vm_compute; reflexivity. Qed.

(** * The component *)

(** ** [handle] on a response that is not 2xx *)

Lemma handle_not_ok (r : Response) :
  ok r = false -> handle r = Throw (Error (failure_text r)).
Proof.
  intros H. unfold handle, failure_text. rewrite H. simpl negb. cbv iota.
  destruct (JSON_parse_or_throw (text r)); reflexivity.
Qed.

Lemma handle_ok (r : Response) :
  ok r = true ->
  handle r = Return match JSON_parse (text r) with
                    | Some v => v
                    | None => JStr (text r)
                    end.
Proof.
  intros H. unfold handle, JSON_parse_or_throw. rewrite H. simpl negb.
  cbv iota. destruct (JSON_parse (text r)); reflexivity.
Qed.

(** A fetch that [rejects] rejects the promise of the function that awaits it
    and hands the response to [handle]. *)
Lemma rejects_handle (o : fetch_outcome) :
  rejects o -> exists e, after_fetch o = Done (Throw e).
Proof.
  unfold after_fetch. destruct o as [e|r]; simpl; intros H.
  - now exists e.
  - rewrite (handle_not_ok r H). now eexists.
Qed.

(** ** [fetchCurrent] *)

(** C5.  With a location that is missing, empty or white space only,
    [fetchCurrent] sets the error to "Please enter a location" and returns: no
    fetch is issued and none waits.  A fetch is issued only for a location
    that is a text not empty once trimmed, and such a location is handed to
    [fetchCurrentFor] as it is. *)
Theorem fetchCurrent_validates (w : World) :
  (blank (location (app w)) ->
   fetchCurrent w = update (setError (lit "Please enter a location")) w /\
   error (app (fetchCurrent w)) = lit "Please enter a location" /\
   requests (fetchCurrent w) = requests w /\
   inflight (fetchCurrent w) = inflight w)
  /\ (requests (fetchCurrent w) <> requests w ->
      exists s, location (app w) = Some (JStr s) /\ trim s <> [])
  /\ (forall s, location (app w) = Some (JStr s) -> trim s <> [] ->
      fetchCurrent w = fetchCurrentFor s w).
Proof.
  unfold fetchCurrent. repeat split.
  1-4: destruct (location (app w)) as [[| | |s| |]|]; simpl in H;
       try contradiction; try reflexivity;
       rewrite (trim_ws s H); reflexivity.
  - intros H. destruct (location (app w)) as [[| | |s| |]|];
      try (exfalso; apply H; reflexivity).
    exists s. split; [reflexivity|].
    intros E. rewrite E in H. apply H. reflexivity.
  - intros s -> Hs. destruct (trim s); [congruence | reflexivity].
Qed.

Lemma fetchCurrent_validates_witness :
  blank (Some (JStr (lit "   "))) /\
  requests (fetchCurrent
              (update (setLocation (Some (JStr (lit "   "))))
                      (mount None None))) = [].
Proof.
  split; [reflexivity|].
  destruct (fetchCurrent_validates
              (update (setLocation (Some (JStr (lit "   "))))
                      (mount None None))) as [H _].
  destruct H as (_ & _ & H & _); [reflexivity | exact H].
Defined.

(** ** The candidate list *)

Lemma app_start_with_fetch settled0 (h : handler) (u : jsstring)
  (f : Response -> async json) (w : World) :
  app (start_with settled0 h (bind (fetch u) f) w) = app w.
Proof. reflexivity. Qed.

Lemma search_settled_bounded (r : result json) (s : AppState) :
  at_most_8 (cands (search_settled r s)).
Proof.
  destruct r as [e|[| | |t|xs|]];
    cbn [search_settled slice_0_8 cands setOpenSug setCands at_most_8
         length]; try lia; apply firstn_le_length.
Qed.

Lemma leaf_settled_bounded (h : handler) (r : result json) (w : World) :
  at_most_8 (cands (app w)) -> at_most_8 (cands (app (leaf_settled h r w))).
Proof.
  intros H. destruct h; simpl; try exact H.
  - destruct r as [e|[]]; exact H.
  - destruct r; exact H.
  - destruct r; exact H.
  - apply search_settled_bounded.
Qed.

Lemma current_settled_app (r : result json) (w : World) :
  app (current_settled r w)
  = match r with
    | Return j => setCurrent j (app w)
    | Throw e => setError (cleanErr e) (app w)
    end.
Proof.
  destruct r as [e|j]; [reflexivity|]. unfold current_settled.
  destruct (get (get (Some j) (lit "resolved")) (lit "latitude")) as [lat|];
    [|reflexivity].
  destruct (get (get (Some j) (lit "resolved")) (lit "longitude")) as [lon|];
    [|reflexivity].
  destruct (negb (nullish (Some lat)) && negb (nullish (Some lon)));
    [|reflexivity].
  unfold getNearby, getAstronomy, getAir.
  now rewrite !app_start_with_fetch.
Qed.

Lemma settled_bounded (h : handler) (r : result json) (w : World) :
  at_most_8 (cands (app w)) -> at_most_8 (cands (app (settled h r w))).
Proof.
  intros H. destruct h; try now apply leaf_settled_bounded.
  unfold settled. rewrite current_settled_app. destruct r; exact H.
Qed.

Lemma start_bounded (h : handler) (a : async json) (w : World) :
  at_most_8 (cands (app w)) -> at_most_8 (cands (app (start h a w))).
Proof.
  intros H. destruct a as [r|req k]; [now apply settled_bounded | exact H].
Qed.

Lemma scheduleSuggest_bounded (q : jsstring) (w : World) :
  at_most_8 (cands (app w)) ->
  at_most_8 (cands (app (scheduleSuggest q w))).
Proof.
  intros H. unfold scheduleSuggest.
  destruct (isWordyQuery q); simpl negb; cbv iota.
  - destruct (typingTimer (app w)); exact H.
  - simpl. lia.
Qed.

Lemma chooseCand_bounded (c : json) (autoFetch : bool) (w : World) :
  at_most_8 (cands (app w)) ->
  at_most_8 (cands (app (chooseCand c autoFetch w))).
Proof.
  intros H. unfold chooseCand.
  assert (E : at_most_8 (JArr [])) by (simpl; lia).
  destruct c; try exact H;
    repeat match goal with
           | |- context [match ?x with _ => _ end] => destruct x
           end;
    try exact E; apply start_bounded; exact E.
Qed.

Lemma step_bounded (e : event) (w : World) :
  at_most_8 (cands (app w)) -> at_most_8 (cands (app (step e w))).
Proof.
  intros H. destruct e as [v| | |c af|lat lon|msg|id|id o]; unfold step.
  - now apply scheduleSuggest_bounded.
  - unfold fetchCurrent.
    destruct (location (app w)) as [[| | |s| |]|]; try exact H.
    destruct (trim s); [exact H|]. now apply start_bounded.
  - exact H.
  - now apply chooseCand_bounded.
  - now apply start_bounded.
  - exact H.
  - destruct (find_id id (timers w)); [|exact H]. now apply start_bounded.
  - destruct (find_id id (inflight w)) as [[h k]|]; [|exact H].
    now apply start_bounded.
Qed.

Lemma run_bounded (es : list event) : forall w,
  at_most_8 (cands (app w)) -> at_most_8 (cands (app (run es w))).
Proof.
  induction es as [|e es IH]; intros w H; [exact H|].
  simpl. apply IH. now apply step_bounded.
Qed.

Lemma start_HCurrent_cands (a : async json) (w : World) :
  cands (app (start HCurrent a w)) = cands (app w)
  /\ openSug (app (start HCurrent a w)) = openSug (app w).
Proof.
  destruct a as [r|req k]; [|now split].
  unfold start, start_with, settled. rewrite current_settled_app.
  destruct r; now split.
Qed.

Lemma chooseCand_resets (c : json) (autoFetch : bool) (w : World) :
  c <> JNull ->
  cands (app (chooseCand c autoFetch w)) = JArr [] /\
  openSug (app (chooseCand c autoFetch w)) = false.
Proof.
  intros Hc. unfold chooseCand. destruct c; try congruence;
    repeat match goal with
           | |- context [match ?x with _ => _ end] => destruct x
           end;
    try (split; reflexivity);
    unfold fetchCurrentFor;
    match goal with
    | |- context [start HCurrent ?a ?w] =>
        destruct (start_HCurrent_cands a w) as [-> ->]
    end; split; reflexivity.
Qed.

(** A search that fails: typing a freeform query on a fresh component, the
    timer elapsing, and the fetch, if the query could be encoded at all,
    settling without a 2xx response. *)
Lemma failed_search (a b : option jsstring) (q : jsstring)
  (o : fetch_outcome) :
  isWordyQuery q = true -> rejects o ->
  let w := run [EInput q; ETimer 1; ESettle 2 o] (mount a b) in
  cands (app w) = JArr [] /\ openSug (app w) = false /\ error (app w) = [].
Proof.
  intros Hq Ho.
  assert (E1 : step (EInput q) (mount a b)
               = mkWorld (setTypingTimer (Some 1)
                            (setLocation (Some (JStr q)) (initial a b)))
                         [] [] [(1, q)] 2 []).
  { unfold step, scheduleSuggest.
    cbn [mount app update typingTimer setLocation initial].
    rewrite Hq. reflexivity. }
  cbv zeta. unfold run. cbn [fold_left]. rewrite E1. clear E1.
  set (s1 := setTypingTimer (Some 1)
               (setLocation (Some (JStr q)) (initial a b))).
  destruct (encodeURIComponent q) as [e|t] eqn:Eq.
  - assert (E2 : step (ETimer 1) (mkWorld s1 [] [] [(1, q)] 2 [])
                 = mkWorld (search_settled (Throw e) s1) [] [] [] 2 []).
    { unfold step. cbn [timers find_id Nat.eqb].
      unfold searchLocations. rewrite Eq. reflexivity. }
    rewrite E2. repeat split.
  - assert (E2 : step (ETimer 1) (mkWorld s1 [] [] [(1, q)] 2 [])
                 = mkWorld s1
                     [mkRequest (lit "/api/locations/search?q=" ++ t)]
                     [(2, (HSearch, after_fetch))] [] 3 []).
    { unfold step. cbn [timers find_id Nat.eqb].
      unfold searchLocations. rewrite Eq. reflexivity. }
    rewrite E2. unfold step. cbn [inflight find_id Nat.eqb].
    unfold start, start_with.
    destruct (rejects_handle o Ho) as [e He]. rewrite He.
    repeat split.
Qed.

(** C6.  The candidate list never holds more than eight entries.  It is empty
    on mount; what a settled search assigns is the first eight entries of the
    response, or the empty list; every step of the component keeps the
    bound, so it holds after any run of events.  [chooseCand] empties the
    list.  A search that fails, and an input that is not a freeform query,
    leave the list empty and the dropdown closed, and set no error. *)
Theorem candidates_at_most_8 :
  (forall a b, cands (initial a b) = JArr []) /\
  (forall xs s, cands (search_settled (Return (JArr xs)) s)
                = JArr (firstn 8 xs)) /\
  (forall r s, at_most_8 (cands (search_settled r s))) /\
  (forall e w, at_most_8 (cands (app w)) ->
               at_most_8 (cands (app (step e w)))) /\
  (forall es a b,
      at_most_8 (cands (app (run es (mount a b)))) /\
      entries (cands (app (run es (mount a b)))) <= 8) /\
  (forall c autoFetch w, c <> JNull ->
      cands (app (chooseCand c autoFetch w)) = JArr [] /\
      openSug (app (chooseCand c autoFetch w)) = false) /\
  (forall e s, search_settled (Throw e) s
               = setOpenSug false (setCands (JArr []) s)) /\
  (forall a b q o, isWordyQuery q = true -> rejects o ->
      let w := run [EInput q; ETimer 1; ESettle 2 o] (mount a b) in
      cands (app w) = JArr [] /\ openSug (app w) = false /\
      error (app w) = []) /\
  (forall q w, isWordyQuery q = false ->
      let w' := scheduleSuggest q w in
      cands (app w') = JArr [] /\ openSug (app w') = false /\
      error (app w') = error (app w)).
Proof.
  split; [reflexivity|].
  split; [reflexivity|].
  split; [exact search_settled_bounded|].
  split; [exact step_bounded|].
  split.
  { intros es a b.
    assert (H : at_most_8 (cands (app (run es (mount a b)))))
      by (apply run_bounded; simpl; lia).
    split; [exact H|].
    destruct (cands (app (run es (mount a b)))); simpl in *;
      try contradiction; exact H. }
  split; [exact chooseCand_resets|].
  split; [reflexivity|].
  split; [exact failed_search|].
  intros q w H.
  destruct (scheduleSuggest_not_wordy q w H) as (? & ? & ? & _).
  cbv zeta. repeat split; assumption.
Qed.

Lemma candidates_at_most_8_witness :
  (isWordyQuery (lit "New York") = true /\
   rejects (Responded (mkResponse 500 (lit "boom")))) /\
  cands (app (run [EInput (lit "New York"); ETimer 1;
                   ESettle 2 (Responded (mkResponse 500 (lit "boom")))]
                  (mount None None))) = JArr [] /\
  (isWordyQuery (lit "10001") = false /\
   cands (app (scheduleSuggest (lit "10001") (mount None None))) = JArr []).
Proof.
  destruct candidates_at_most_8 as (_ & _ & _ & _ & _ & _ & _ & Hfail & Hnot).
  assert (H1 : isWordyQuery (lit "New York") = true) by (vm_compute; reflexivity).
  assert (H2 : rejects (Responded (mkResponse 500 (lit "boom"))))
    by reflexivity.
  assert (H3 : isWordyQuery (lit "10001") = false) by (vm_compute; reflexivity).
  split; [split; assumption|].
  split.
  - exact (proj1 (Hfail None None (lit "New York") _ H1 H2)).
  - split; [exact H3|].
    exact (proj1 (Hnot (lit "10001") (mount None None) H3)).
Defined.

(** The bound is reached: a search answered with ten places keeps eight. *)
Example search_keeps_eight :
  entries (cands (app (run
    [EInput (lit "New York"); ETimer 1;
     ESettle 2 (Responded (mkResponse 200 (lit "[1,2,3,4,5,6,7,8,9,10]")))]
    (mount None None)))) = 8.
Proof. vm_compute. reflexivity. Qed.

(** ** The enrichment fetches *)







(** The place is shown and the air quality arrives although the nearby
    places and the astronomy both fail. *)
Example enrichment_partial_failure :
  let j := JObj [(lit "resolved",
                  JObj [(lit "latitude", JNum 40.7128);
                        (lit "longitude", JNum (-74.006))])] in
  let w := run [ESettle 1 (Responded (mkResponse 502 (lit "bad gateway")));
                ESettle 3 (Responded (mkResponse 200 (lit "[1]")));
                ESettle 2 (NetworkError (TypeError (lit "Failed to fetch")))]
               (current_settled (Return j) (mount None None)) in
  current (app w) = j /\ error (app w) = [] /\ pois (app w) = JArr []
  /\ astro (app w) = JNull /\ air (app w) = JArr [JNum 1]
  /\ inflight w = [] /\ uncaught w = [].
Proof. vm_compute. repeat split. Qed.

(** ** [exportData] *)

(** C7.  [exportData] issues one fetch.  On a 2xx response it resolves to the
    parsed body when [fmt] is [json] (the default) and the body is JSON, and
    to the body text for every other [fmt].  On a response that is not 2xx
    it rejects, for every [fmt], with an Error that carries the body (or
    "HTTP <status>" for [json] and an empty body); the error body is never
    returned as data.  It rejects too when the fetch itself fails. *)
Theorem exportData_result (fmt : option jsstring) (r : Response) :
  let f := match fmt with None => lit "json" | Some f => f end in
  let res := snd (run_async (exportData fmt) [Responded r]) in
  fst (run_async (exportData fmt) [Responded r])
  = [mkRequest (lit "/api/export?fmt=" ++ f)] /\
  (ok r = true -> str_eqb f (lit "json") = true ->
   forall v, JSON_parse (text r) = Some v -> res = Some (Return v)) /\
  (ok r = true -> str_eqb f (lit "json") = false ->
   res = Some (Return (JStr (text r)))) /\
  (ok r = false ->
   res = Some (Throw (Error (if str_eqb f (lit "json")
                             then failure_text r else text r)))) /\
  (forall e, snd (run_async (exportData fmt) [NetworkError e])
             = Some (Throw e)).
Proof.
  intros f res. subst res. unfold exportData. fold f.
  destruct (str_eqb f (lit "json"));
    cbn [fetch bind run_async fst snd];
    destruct (ok r) eqn:Hok; cbn [run_async fst snd negb];
    (split; [reflexivity|]); (split; [|split; [|split]]);
    try discriminate; try reflexivity.
  - intros _ _ v Hv. rewrite (handle_ok r Hok), Hv. reflexivity.
  - intros _. now rewrite (handle_not_ok r Hok).
Qed.

Lemma exportData_result_witness :
  (ok (mkResponse 200 (lit "[]")) = true /\
   str_eqb (lit "json") (lit "json") = true /\
   JSON_parse (lit "[]") = Some (JArr []) /\
   str_eqb (lit "csv") (lit "json") = false /\
   ok (mkResponse 400 (lit "bad format")) = false) /\
  snd (run_async (exportData None) [Responded (mkResponse 200 (lit "[]"))])
  = Some (Return (JArr [])) /\
  snd (run_async (exportData (Some (lit "csv")))
         [Responded (mkResponse 200 (lit "[]"))])
  = Some (Return (JStr (lit "[]"))) /\
  snd (run_async (exportData (Some (lit "csv")))
         [Responded (mkResponse 400 (lit "bad format"))])
  = Some (Throw (Error (lit "bad format"))).
Proof.
  split; [repeat split|].
  split; [|split].
  - destruct (exportData_result None (mkResponse 200 (lit "[]")))
      as (_ & H & _).
    exact (H eq_refl eq_refl (JArr []) eq_refl).
  - destruct (exportData_result (Some (lit "csv"))
                (mkResponse 200 (lit "[]"))) as (_ & _ & H & _).
    exact (H eq_refl eq_refl).
  - destruct (exportData_result (Some (lit "csv"))
                (mkResponse 400 (lit "bad format"))) as (_ & _ & _ & H & _).
    exact (H eq_refl).
Defined.

(** * Errors shown to the user *)

(** ** The two patterns of [cleanErr] *)

Lemma upto_last_prefix (c : char16) (s p : jsstring) :
  upto_last c s = Some p -> firstn (length p) s = p.
Proof.
  revert p. induction s as [|x s IH]; intros p H; simpl in H; [discriminate|].
  destruct (upto_last c s) as [p'|].
  - injection H as <-. simpl. f_equal. now apply IH.
  - destruct (x =? c)%N; [|discriminate]. injection H as <-. reflexivity.
Qed.

Lemma upto_last_whole (c : char16) (m : jsstring) :
  upto_last c (m ++ [c]) = Some (m ++ [c]).
Proof.
  induction m as [|x m IH]; simpl.
  - now rewrite N.eqb_refl.
  - now rewrite IH.
Qed.

(** The greedy [.*] before a closing brace runs to the last closing brace. *)
Lemma star_any_close (t : jsstring) : forall fuel n,
  length t <= fuel ->
  star_loop (rmatch AnyS)
    (fun st => rmatch (Cat [Lit "}"]) st (fun st' : mstate => Some st'))
    fuel (n, t)
  = match upto_last 125%N t with
    | Some p => Some (n + length p, skipn (length p) t)
    | None => None
    end.
Proof.
  induction t as [|c t IH]; intros fuel n Hf.
  - destruct fuel; reflexivity.
  - destruct fuel as [|fuel]; [simpl in Hf; lia|].
    rewrite star_loop_unfold.
    cbn [rmatch AnyS snd fst length].
    rewrite (proj2 (Nat.ltb_lt _ _) (Nat.lt_succ_diag_r _)).
    rewrite IH by (simpl in Hf; lia).
    cbn [upto_last]. destruct (upto_last 125%N t) as [p|].
    + cbn [length skipn]. now rewrite Nat.add_succ_r.
    + change (rmatch (Cat [Lit "}"]) (n, c :: t)
                (fun st' : mstate => Some st'))
        with (if (125 =? c)%N then Some (S n, t) else None).
      rewrite N.eqb_sym. destruct (c =? 125)%N; [|reflexivity].
      cbn [length skipn]. now rewrite Nat.add_1_r.
Qed.

Lemma String_match_braces (s : jsstring) :
  String_match s BRACES_RE = braces s.
Proof.
  unfold String_match, exec. generalize 0 as pos.
  induction s as [|x s IH]; intros pos; [reflexivity|].
  cbn [search_from braces].
  change (rmatch BRACES_RE (pos, x :: s) (fun st : mstate => Some st))
    with (if (123 =? x)%N
          then star_loop (rmatch AnyS)
                 (fun st => rmatch (Cat [Lit "}"]) st
                              (fun st' : mstate => Some st'))
                 (length s) (S pos, s)
          else None).
  rewrite N.eqb_sym. destruct (x =? 123)%N; [|apply IH].
  rewrite star_any_close by lia.
  destruct (upto_last 125%N s) as [p|] eqn:E; [|apply IH].
  cbn [option_map snd]. f_equal.
  replace (S pos + length p - pos) with (S (length p)) by lia.
  cbn [firstn]. f_equal. exact (upto_last_prefix _ _ E).
Qed.

(** The greedy [\s*] at the end of a pattern takes all the white space there
    is. *)
Lemma star_ws_all (t : jsstring) : forall fuel n,
  length t <= fuel ->
  star_loop (rmatch ws) (fun st => rmatch (Cat []) st
                                     (fun st' : mstate => Some st'))
            fuel (n, t)
  = Some (n + (length t - length (trimStart t)), trimStart t).
Proof.
  induction t as [|c t IH]; intros fuel n Hf.
  - destruct fuel; cbn; now rewrite Nat.add_0_r.
  - destruct fuel as [|fuel]; [simpl in Hf; lia|].
    rewrite star_loop_unfold. cbn [rmatch ws snd fst length trimStart].
    destruct (is_ws c).
    + rewrite (proj2 (Nat.ltb_lt _ _) (Nat.lt_succ_diag_r _)).
      rewrite IH by (simpl in Hf; lia).
      destruct (trimStart_suffix t) as (w & Hw & _).
      assert (length (trimStart t) <= length t).
      { rewrite Hw at 2. rewrite length_app. lia. }
      f_equal. f_equal. lia.
    + cbn [Cat fold_right rmatch length]. f_equal. f_equal. lia.
Qed.

Lemma skipn_trimStart (t : jsstring) :
  skipn (length t - length (trimStart t)) t = trimStart t.
Proof.
  destruct (trimStart_suffix t) as (w & Hw & _).
  rewrite Hw at 1 3. rewrite length_app.
  replace (length w + length (trimStart t) - length (trimStart t))
    with (length w + 0) by lia.
  rewrite skipn_app, Nat.add_0_r, skipn_all.
  replace (length w - length w) with 0 by lia. reflexivity.
Qed.

(** Stripping [/^Error:\s*/] off the text of an Error. *)
Lemma String_replace_prefix (msg : jsstring) :
  String_replace (lit "Error: " ++ msg) ERROR_PREFIX_RE [] = trimStart msg.
Proof.
  unfold String_replace, exec.
  change (lit "Error: " ++ msg)
    with (69 :: 114 :: 114 :: 111 :: 114 :: 58 :: 32 :: msg)%N.
  cbn [search_from].
  set (s := (69 :: 114 :: 114 :: 111 :: 114 :: 58 :: 32 :: msg)%N).
  change (rmatch ERROR_PREFIX_RE (0, s) (fun st : mstate => Some st))
    with (star_loop (rmatch ws)
            (fun st => rmatch (Cat []) st (fun st' : mstate => Some st'))
            (length (32%N :: msg)) (6, 32%N :: msg)).
  rewrite star_ws_all by apply le_n.
  cbn [trimStart]. change (is_ws 32%N) with true. cbv iota.
  cbn [length].
  assert (Hle : length (trimStart msg) <= length msg).
  { destruct (trimStart_suffix msg) as (w & Hw & _).
    rewrite Hw at 2. rewrite length_app. lia. }
  set (k := length msg - length (trimStart msg)).
  replace (6 + (S (length msg) - length (trimStart msg)) - 0)
    with (S (S (S (S (S (S (S k))))))) by (unfold k; lia).
  unfold s. cbn [firstn app length Nat.add skipn].
  rewrite length_firstn, Nat.min_l by (unfold k; lia).
  apply skipn_trimStart.
Qed.

(** ** [cleanErr] on the Error of [handle] *)

Lemma String_of_Error (msg : jsstring) :
  msg <> [] -> String_of_exn (Error msg) = lit "Error: " ++ msg.
Proof. destruct msg; [congruence | reflexivity]. Qed.

Lemma failure_text_nonempty (r : Response) : failure_text r <> [].
Proof. unfold failure_text. destruct (text r); discriminate. Qed.

Lemma cleanErr_Error (msg : jsstring) :
  msg <> [] ->
  cleanErr (Error msg)
  = match braces msg with
    | Some span =>
        match JSON_parse span with
        | Some j =>
            match get (Some j) (lit "detail") with
            | Some d =>
                if truthy (Some d)
                then match d with JStr t => t | _ => JSON_stringify d end
                else trimStart msg
            | None => trimStart msg
            end
        | None => trimStart msg
        end
    | None => trimStart msg
    end.
Proof.
  intros Hne. unfold cleanErr.
  rewrite (String_of_Error Hne), String_match_braces, String_replace_prefix.
  change (braces (lit "Error: " ++ msg)) with (braces msg).
  destruct (braces msg) as [span|]; [|reflexivity].
  destruct (JSON_parse span) as [j|]; [|reflexivity].
  destruct (get (Some j) (lit "detail")) as [d|]; [|reflexivity].
  destruct d; reflexivity.
Qed.

(** C4, as the code has it.  For a response that is not 2xx [handle] throws,
    and never returns: the Error carries the body text, or "HTTP <status>"
    when the body is empty.  [cleanErr] of that Error returns [detail], as it
    is when it is a text and serialised otherwise, whenever the text from
    the first opening brace to the last closing brace parses as JSON and has
    a truthy [detail]; in every other case it returns the Error's text
    without the leading "Error:" and without the white space that follows
    it. *)
Theorem non_2xx_error_surfaced (r : Response) :
  ok r = false ->
  let raw := failure_text r in
  handle r = Throw (Error raw) /\
  (text r <> [] -> raw = text r) /\
  (text r = [] -> raw = lit "HTTP " ++ dec_digits (Z.of_N (status r))) /\
  String_replace (String_of_exn (Error raw)) ERROR_PREFIX_RE []
  = trimStart raw /\
  (forall span j d,
      braces raw = Some span -> JSON_parse span = Some j ->
      get (Some j) (lit "detail") = Some d -> truthy (Some d) = true ->
      cleanErr (Error raw)
      = match d with JStr t => t | _ => JSON_stringify d end) /\
  ((forall span j,
       braces raw = Some span -> JSON_parse span = Some j ->
       truthy (get (Some j) (lit "detail")) = false) ->
   cleanErr (Error raw) = trimStart raw).
Proof.
  intros Hok raw.
  split; [now apply handle_not_ok|].
  split; [unfold raw, failure_text; destruct (text r); congruence|].
  split; [unfold raw, failure_text; now intros ->|].
  split.
  { rewrite String_of_Error by apply failure_text_nonempty.
    apply String_replace_prefix. }
  subst raw. rewrite (cleanErr_Error (failure_text_nonempty r)).
  split.
  - intros span j d -> -> -> ->. reflexivity.
  - intros H. destruct (braces (failure_text r)) as [span|]; [|reflexivity].
    destruct (JSON_parse span) as [j|] eqn:Ej; [|reflexivity].
    specialize (H span j eq_refl Ej).
    destruct (get (Some j) (lit "detail")) as [d|]; [|reflexivity].
    now rewrite H.
Qed.

Lemma non_2xx_error_surfaced_witness :
  let r := mkResponse 404 (json_text "{'detail':'Location not found'}") in
  (ok r = false /\
   braces (failure_text r) = Some (text r) /\
   JSON_parse (text r)
   = Some (JObj [(lit "detail", JStr (lit "Location not found"))])) /\
  handle r = Throw (Error (text r)) /\
  cleanErr (Error (text r)) = lit "Location not found".
Proof.
  intros r.
  assert (H1 : ok r = false) by reflexivity.
  assert (H2 : braces (failure_text r) = Some (text r))
    by (vm_compute; reflexivity).
  assert (H3 : JSON_parse (text r)
               = Some (JObj [(lit "detail", JStr (lit "Location not found"))]))
    by (vm_compute; reflexivity).
  split; [repeat split; assumption|].
  destruct (non_2xx_error_surfaced r H1) as (Hh & _ & _ & _ & Hd & _).
  split; [exact Hh|].
  exact (Hd (text r) _ (JStr (lit "Location not found")) H2 H3
            eq_refl eq_refl).
Defined.

(** C4 as it is worded fails in three ways.  A body that is a JSON object
    with an empty [detail] is shown whole, not as its [detail].  A body that
    is not a JSON object but holds one gives that object's [detail], not the
    body.  A body without JSON loses its leading white space. *)
Lemma cleanErr_not_as_claimed :
  let empty_detail := mkResponse 422 (json_text "{'detail':''}") in
  let array_body := mkResponse 500 (json_text "[{'detail':'x'}]") in
  let padded := mkResponse 502 (lit "  Bad Gateway") in
  (ok empty_detail = false /\
   JSON_parse (text empty_detail) = Some (JObj [(lit "detail", JStr [])]) /\
   handle empty_detail = Throw (Error (text empty_detail)) /\
   cleanErr (Error (text empty_detail)) = text empty_detail /\
   cleanErr (Error (text empty_detail)) <> []) /\
  (ok array_body = false /\
   JSON_parse (text array_body)
   = Some (JArr [JObj [(lit "detail", JStr (lit "x"))]]) /\
   handle array_body = Throw (Error (text array_body)) /\
   cleanErr (Error (text array_body)) = lit "x" /\
   cleanErr (Error (text array_body)) <> text array_body) /\
  (ok padded = false /\
   JSON_parse (text padded) = None /\
   handle padded = Throw (Error (text padded)) /\
   cleanErr (Error (text padded)) = lit "Bad Gateway" /\
   cleanErr (Error (text padded)) <> text padded).
Proof.
  cbv zeta. repeat split; try (vm_compute; reflexivity);
    vm_compute; discriminate.
Qed.

(** An empty body: the status stands in for it. *)
Example cleanErr_empty_body :
  handle (mkResponse 503 []) = Throw (Error (lit "HTTP 503"))
  /\ cleanErr (Error (lit "HTTP 503")) = lit "HTTP 503".
Proof. split; vm_compute; reflexivity. Qed.

(** A structured [detail] is serialised. *)
Example cleanErr_structured_detail :
  cleanErr (Error (json_text
    "{'detail': [{'loc': ['query', 'location'], 'msg': 'field required'}]}"))
  = json_text "[{'loc':['query','location'],'msg':'field required'}]".
Proof. vm_compute. reflexivity. Qed.

(** * The input classes *)

Lemma trimEnd_suffix (s : jsstring) :
  exists w, s = trimEnd s ++ w /\ forallb is_ws w = true.
Proof.
  unfold trimEnd. destruct (trimStart_suffix (rev s)) as (w & Hs & Hw).
  exists (rev w). split; [|now rewrite forallb_rev].
  rewrite <- rev_app_distr, <- Hs. now rewrite rev_involutive.
Qed.

(** A text is its trimmed text between two runs of white space. *)
Lemma trim_decompose (q : jsstring) :
  exists w1 w2, q = w1 ++ trim q ++ w2 /\
                forallb is_ws w1 = true /\ forallb is_ws w2 = true.
Proof.
  destruct (trimStart_suffix q) as (w1 & H1 & Hw1).
  destruct (trimEnd_suffix (trimStart q)) as (w2 & H2 & Hw2).
  exists w1, w2. unfold trim. rewrite <- H2, <- H1. now repeat split.
Qed.

Lemma forallb_app_true {A : Type} (p : A -> bool) (a b : list A) :
  forallb p a = true -> forallb p b = true -> forallb p (a ++ b) = true.
Proof. intros Ha Hb. now rewrite forallb_app, Ha, Hb. Qed.

(** [COORD_RE] on a pair between two runs of white space. *)
Lemma COORD_RE_padded (w1 x w2 : jsstring) :
  forallb is_ws w1 = true -> forallb is_ws w2 = true ->
  matches (Cat PAIR) 0 x [] -> test COORD_RE (w1 ++ x ++ w2) = true.
Proof.
  intros H1 H2 Hx. apply test_complete. unfold COORD_RE.
  apply matches_Cat_cons. exists [], (w1 ++ x ++ w2).
  repeat split; [constructor|].
  apply matches_Cat_cons. exists w1, (x ++ w2).
  repeat split; [now apply Star_Cls_matches|].
  apply matches_Cat_app. exists x, w2. repeat split.
  - eapply matches_shift; [exact Hx | exact PAIR_anchor_free].
  - apply matches_Cat_cons. exists w2, []. rewrite app_nil_r.
    repeat split; [now apply Star_Cls_matches|].
    apply matches_Cat_cons. exists [], []. repeat split; [constructor|].
    now apply matches_Cat_nil.
Qed.

Lemma COORD_RE_trim_eq (q : jsstring) :
  test COORD_RE (trim q) = test COORD_RE q.
Proof.
  destruct (test COORD_RE q) eqn:E.
  - now apply COORD_RE_trim in E.
  - destruct (test COORD_RE (trim q)) eqn:Et; [|reflexivity].
    apply COORD_RE_shape in Et as (v1 & x & v2 & Ht & Hv1 & Hv2 & Hx).
    destruct (trim_decompose q) as (w1 & w2 & Hq & Hw1 & Hw2).
    rewrite <- E, Hq, Ht. symmetry.
    replace (w1 ++ (v1 ++ x ++ v2) ++ w2) with ((w1 ++ v1) ++ x ++ (v2 ++ w2))
      by (now rewrite <- !app_assoc).
    apply COORD_RE_padded; auto using forallb_app_true.
Qed.

Lemma matches_Times_Cls (p : char16 -> bool) (k : nat) : forall n s rest,
  matches (Times k (Cls p)) n s rest -> forallb p s = true /\ length s = k.
Proof.
  induction k as [|k IH]; intros n s rest H; simpl in H.
  - inversion H. now split.
  - inversion H; subst.
    match goal with H : matches (Cls p) _ _ _ |- _ =>
      apply matches_Cls_inv in H as (c & -> & Hc) end.
    match goal with H : matches (Times _ _) _ _ _ |- _ =>
      apply IH in H as [Hs Hl] end.
    simpl. rewrite Hc, Hs, Hl. now split.
Qed.

(** X3, first half.  [ZIP_RE] accepts exactly five digits between white
    space. *)
Lemma ZIP_RE_shape (q : jsstring) : test ZIP_RE q = true -> zip_text q.
Proof.
  intros H. apply test_sound in H as (pre & s1 & s2 & -> & H).
  unfold ZIP_RE in H.
  apply matches_Cat_cons in H as (b & s & -> & Hb & H).
  assert (Hpre : pre = [] /\ b = []).
  { inversion Hb. destruct pre; [now split | discriminate]. }
  destruct Hpre as [-> ->]. cbn [app length Nat.add] in *.
  apply matches_Cat_cons in H as (w1 & s0 & -> & Hw1 & H).
  apply matches_Cat_cons in H as (d & s3 & -> & Hd & H).
  apply matches_Cat_cons in H as (w2 & s4 & -> & Hw2 & H).
  apply matches_Cat_cons in H as (e & s5 & -> & He & H).
  apply matches_Cat_nil in H. subst.
  apply matches_Eol_inv in He as [-> Hrest].
  assert (s2 = []) by exact Hrest. subst s2.
  apply matches_Star_Cls in Hw1, Hw2.
  apply matches_Times_Cls in Hd as [Hd Hl].
  exists w1, d, w2. cbn [app]. rewrite !app_nil_r. now repeat split.
Qed.

Lemma matches_Opt_Lit (t : string) n s rest :
  matches (Opt (Lit t)) n s rest <-> s = [] \/ s = lit t.
Proof.
  split.
  - intros H. apply matches_Opt_inv in H as [->|H]; [now left | right].
    now apply matches_Lit_inv in H.
  - intros [->| ->]; [apply M_AltR; constructor | apply M_AltL, Lit_matches].
Qed.

(** What [NUMBER] matches. *)
Lemma NUMBER_language n s rest :
  matches (Cat NUMBER) n s rest <-> number_text s.
Proof.
  unfold NUMBER, number_text. split.
  - intros H.
    apply matches_Cat_cons in H as (sgn & s1 & -> & Hsgn & H).
    apply matches_Cat_cons in H as (d1 & s2 & -> & Hd1 & H).
    apply matches_Cat_cons in H as (dot & s3 & -> & Hdot & H).
    apply matches_Cat_cons in H as (d2 & s4 & -> & Hd2 & H).
    apply matches_Cat_nil in H. subst.
    apply matches_Plus_Cls in Hd1 as [Hd1 Hne].
    apply matches_Star_Cls in Hd2.
    apply matches_Opt_Lit in Hsgn, Hdot.
    exists sgn, d1, dot, d2. rewrite app_nil_r. now repeat split.
  - intros (sgn & d1 & dot & d2 & -> & Hsgn & Hd1 & Hne & Hdot & Hd2).
    apply matches_Cat_cons. exists sgn, (d1 ++ dot ++ d2).
    repeat split; [now apply matches_Opt_Lit|].
    apply matches_Cat_cons. exists d1, (dot ++ d2).
    repeat split; [now apply Plus_Cls_matches|].
    apply matches_Cat_cons. exists dot, d2.
    repeat split; [now apply matches_Opt_Lit|].
    apply matches_Cat_cons. exists d2, []. rewrite app_nil_r.
    repeat split; [now apply Star_Cls_matches | now apply matches_Cat_nil].
Qed.

(** What [PAIR] matches. *)
Lemma PAIR_language n s rest :
  matches (Cat PAIR) n s rest <->
  exists n1 w2 w3 n2,
    s = n1 ++ w2 ++ lit "," ++ w3 ++ n2 /\
    forallb is_ws w2 = true /\ forallb is_ws w3 = true /\
    number_text n1 /\ number_text n2.
Proof.
  unfold PAIR. split.
  - intros H.
    apply matches_Cat_app in H as (n1 & s1 & -> & Hn1 & H).
    apply matches_Cat_app in H as (m & n2 & -> & Hm & Hn2).
    apply NUMBER_language in Hn1, Hn2.
    apply matches_Cat_cons in Hm as (w2 & m1 & -> & Hw2 & Hm).
    apply matches_Cat_cons in Hm as (c & m2 & -> & Hc & Hm).
    apply matches_Cat_cons in Hm as (w3 & m3 & -> & Hw3 & Hm).
    apply matches_Cat_nil in Hm. subst m3.
    apply matches_Lit_inv in Hc. subst c.
    apply matches_Star_Cls in Hw2, Hw3.
    exists n1, w2, w3, n2. rewrite app_nil_r, <- !app_assoc.
    now repeat split.
  - intros (n1 & w2 & w3 & n2 & -> & Hw2 & Hw3 & Hn1 & Hn2).
    apply matches_Cat_app. exists n1, (w2 ++ lit "," ++ w3 ++ n2).
    repeat split; [now apply NUMBER_language|].
    replace (w2 ++ lit "," ++ w3 ++ n2) with ((w2 ++ lit "," ++ w3) ++ n2)
      by (now rewrite <- !app_assoc).
    apply matches_Cat_app. exists (w2 ++ lit "," ++ w3), n2.
    repeat split; [|now apply NUMBER_language].
    apply matches_Cat_cons. exists w2, (lit "," ++ w3).
    repeat split; [now apply Star_Cls_matches|].
    apply matches_Cat_cons. exists (lit ","), w3.
    repeat split; [apply Lit_matches|].
    apply matches_Cat_cons. exists w3, []. rewrite app_nil_r.
    repeat split; [now apply Star_Cls_matches | now apply matches_Cat_nil].
Qed.

(** X2.  [COORD_RE] accepts a text exactly when it is two numbers with a comma
    between them, each an optional minus, one digit or more, an optional
    point and further digits, with white space allowed before, after and
    around the comma. *)
Theorem COORD_RE_language (q : jsstring) :
  test COORD_RE q = true <-> coordinate_text q.
Proof.
  unfold coordinate_text. split.
  - intros H. apply COORD_RE_shape in H as (w1 & x & w4 & -> & H1 & H4 & Hx).
    apply PAIR_language in Hx as (n1 & w2 & w3 & n2 & -> & H2 & H3 & Hn1 & Hn2).
    exists w1, n1, w2, w3, n2, w4. rewrite <- !app_assoc. now repeat split.
  - intros (w1 & n1 & w2 & w3 & n2 & w4 & -> & H1 & H2 & H3 & H4 & Hn1 & Hn2).
    replace (w1 ++ n1 ++ w2 ++ lit "," ++ w3 ++ n2 ++ w4)
      with (w1 ++ (n1 ++ w2 ++ lit "," ++ w3 ++ n2) ++ w4)
      by (now rewrite <- !app_assoc).
    apply COORD_RE_padded; try assumption.
    apply PAIR_language. exists n1, w2, w3, n2. now repeat split.
Qed.

(** X3.  [ZIP_RE] accepts a text exactly when it is five digits, with white
    space allowed before and after. *)
Theorem ZIP_RE_language (q : jsstring) :
  test ZIP_RE q = true <-> zip_text q.
Proof.
  split; [apply ZIP_RE_shape|].
  intros (w1 & d & w2 & -> & H1 & H2 & Hd & Hl). now apply ZIP_RE_padded.
Qed.

Lemma ZIP_RE_trim_eq (q : jsstring) : test ZIP_RE (trim q) = test ZIP_RE q.
Proof.
  destruct (trim_decompose q) as (w1 & w2 & Hq & Hw1 & Hw2).
  destruct (test ZIP_RE q) eqn:E.
  - apply ZIP_RE_shape in E as (v1 & d & v2 & -> & Hv1 & Hv2 & Hd & Hl).
    destruct (five_digits_edges d Hd Hl) as (a & m & b & -> & Ha & Hb).
    rewrite trim_between by assumption.
    apply ZIP_RE_digits; assumption.
  - destruct (test ZIP_RE (trim q)) eqn:Et; [|reflexivity].
    apply ZIP_RE_shape in Et as (v1 & d & v2 & Ht & Hv1 & Hv2 & Hd & Hl).
    rewrite <- E, Hq, Ht. symmetry.
    replace (w1 ++ (v1 ++ d ++ v2) ++ w2) with ((w1 ++ v1) ++ d ++ (v2 ++ w2))
      by (now rewrite <- !app_assoc).
    apply ZIP_RE_padded; auto using forallb_app_true.
Qed.

(** X1.  A query is free text, the only kind for which suggestions are
    looked up, exactly when it is not all white space and neither pattern
    accepts it; trimming first changes nothing for the two patterns. *)
Theorem isWordyQuery_iff (q : jsstring) :
  isWordyQuery q = true <->
  forallb is_ws q = false /\ test COORD_RE q = false /\ test ZIP_RE q = false.
Proof.
  unfold isWordyQuery.
  rewrite <- (COORD_RE_trim_eq q), <- (ZIP_RE_trim_eq q).
  destruct (trim q) as [|c s] eqn:Et.
  - apply trim_nil_ws in Et. rewrite Et. split; [discriminate | now intros [? _]].
  - assert (Hws : forallb is_ws q = false).
    { destruct (forallb is_ws q) eqn:Hq; [|reflexivity].
      apply trim_ws in Hq. congruence. }
    rewrite Hws.
    destruct (test COORD_RE (c :: s)), (test ZIP_RE (c :: s));
      split; try discriminate; try (now intros (_ & ? & ?)); auto.
Qed.

(** X4.  No text is both a ZIP code and a coordinate pair: the order of the
    two tests in [isWordyQuery] does not matter. *)
Theorem zip_is_not_coordinate (q : jsstring) :
  test ZIP_RE q = true -> test COORD_RE q = false.
Proof.
  intros H. apply ZIP_RE_shape in H as (w1 & d & w2 & -> & H1 & H2 & Hd & _).
  apply COORD_RE_needs_comma.
  rewrite !forallb_app.
  assert (Hw : forall w, forallb is_ws w = true ->
                         forallb (fun c => is_ws c || is_digit c) w = true).
  { intros w Hw. rewrite forallb_forall in *. intros c Hc.
    now rewrite (Hw c Hc). }
  assert (Hdd : forallb (fun c => is_ws c || is_digit c) d = true).
  { rewrite forallb_forall in *. intros c Hc.
    rewrite (Hd c Hc). apply orb_true_r. }
  now rewrite (Hw w1 H1), (Hw w2 H2), Hdd.
Qed.

Lemma zip_is_not_coordinate_witness :
  test ZIP_RE (lit " 07302 ") = true /\ test COORD_RE (lit " 07302 ") = false.
Proof.
  split; [vm_compute; reflexivity|].
  apply (zip_is_not_coordinate (lit " 07302 ")). vm_compute. reflexivity.
Defined.

(** * [cleanErr] on any exception *)

Lemma after_word_app (w s t : jsstring) :
  after_word w s = Some t -> s = w ++ t.
Proof.
  revert s. induction w as [|c w IH]; intros s H; simpl in H.
  - now injection H as ->.
  - destruct s as [|x s]; [discriminate|]. simpl in H.
    destruct (x =? c)%N eqn:E; [|discriminate].
    apply N.eqb_eq in E. subst x. simpl. f_equal. now apply IH.
Qed.

(** The matcher on the characters of a word. *)
Lemma rmatch_word {A : Type} (w : jsstring) : forall n s (k : mstate -> option A),
  rmatch (fold_right (fun c r => Seq (Cls (N.eqb c)) r) Eps w) (n, s) k
  = match after_word w s with
    | Some t => k (n + length w, t)
    | None => None
    end.
Proof.
  induction w as [|c w IH]; intros n s k.
  - cbn. now rewrite Nat.add_0_r.
  - cbn [fold_right rmatch after_word fst snd starts length].
    destruct s as [|x s]; [reflexivity|]. cbn [starts].
    rewrite (N.eqb_sym c x). destruct (x =? c)%N; [|reflexivity].
    rewrite IH. now rewrite <- plus_n_Sm.
Qed.

(** [^] holds at the start of the input only. *)
Lemma search_from_anchored (l : list regex) (s : jsstring) : forall pos,
  search_from (Cat (Bol :: l)) (S pos) s = None.
Proof.
  induction s as [|c s IH]; intros pos; [reflexivity|].
  cbn [search_from]. change (rmatch (Cat (Bol :: l)) (S pos, c :: s)
                               (fun st : mstate => Some st)) with (@None mstate).
  apply IH.
Qed.

Lemma exec_ERROR_PREFIX_RE (s : jsstring) :
  exec ERROR_PREFIX_RE s
  = match after_word (lit "Error:") s with
    | Some t => Some (0, firstn (6 + (length t - length (trimStart t))) s)
    | None => None
    end.
Proof.
  unfold exec.
  assert (Hm : rmatch ERROR_PREFIX_RE (0, s) (fun st : mstate => Some st)
               = match after_word (lit "Error:") s with
                 | Some t => Some (6 + (length t - length (trimStart t)),
                                   trimStart t)
                 | None => None
                 end).
  { change (rmatch ERROR_PREFIX_RE (0, s) (fun st : mstate => Some st))
      with (rmatch (Lit "Error:") (0, s)
              (fun st1 => star_loop (rmatch ws)
                            (fun st => rmatch (Cat []) st
                                         (fun st' : mstate => Some st'))
                            (length (snd st1)) st1)).
    unfold Lit. rewrite rmatch_word.
    destruct (after_word (lit "Error:") s) as [t|]; [|reflexivity].
    cbn [snd]. now rewrite star_ws_all by apply le_n. }
  destruct s as [|c s].
  - reflexivity.
  - cbn [search_from]. rewrite Hm.
    destruct (after_word (lit "Error:") (c :: s)) as [t|].
    + now rewrite Nat.sub_0_r.
    + apply search_from_anchored.
Qed.

(** X5.  The replacement in [cleanErr] removes "Error:" and the white space
    after it when the text starts with it, once, and leaves every other text
    as it is: an "Error:" further inside, or after leading spaces, stays. *)
Theorem String_replace_ERROR_PREFIX_RE (s : jsstring) :
  String_replace s ERROR_PREFIX_RE []
  = match after_word (lit "Error:") s with
    | Some t => trimStart t
    | None => s
    end.
Proof.
  unfold String_replace. rewrite exec_ERROR_PREFIX_RE.
  destruct (after_word (lit "Error:") s) as [t|] eqn:E; [|reflexivity].
  apply after_word_app in E. subst s.
  assert (Hle : length (trimStart t) <= length t).
  { destruct (trimStart_suffix t) as (w & Hw & _).
    rewrite Hw at 2. rewrite length_app. lia. }
  set (k := length t - length (trimStart t)).
  rewrite length_firstn, length_app.
  change (length (lit "Error:")) with 6.
  rewrite Nat.min_l by (unfold k; lia).
  cbn [firstn app Nat.add].
  change (lit "Error:" ++ t) with (69 :: 114 :: 114 :: 111 :: 114 :: 58 :: t)%N.
  cbn [skipn]. apply skipn_trimStart.
Qed.

(** X6.  An exception whose text neither starts with "Error:" nor holds a
    brace pair is shown in full, its name included: the TypeError of a fetch
    that got no response reads "TypeError: ...". *)
Theorem cleanErr_other_exception (e : exn) :
  after_word (lit "Error:") (String_of_exn e) = None ->
  braces (String_of_exn e) = None ->
  cleanErr e = String_of_exn e.
Proof.
  intros Hp Hb. unfold cleanErr.
  rewrite String_match_braces, Hb. unfold String_replace.
  now rewrite exec_ERROR_PREFIX_RE, Hp.
Qed.

Lemma cleanErr_other_exception_witness :
  cleanErr (TypeError (lit "Failed to fetch"))
  = lit "TypeError: Failed to fetch".
Proof.
  apply (cleanErr_other_exception (TypeError (lit "Failed to fetch")));
    vm_compute; reflexivity.
Defined.

(** * [api.js]: the query component *)

Lemma uri_unreserved_ascii (c : char16) :
  uri_unreserved c = true -> (c < 128)%N.
Proof.
  unfold uri_unreserved, is_digit.
  repeat rewrite orb_true_iff. repeat rewrite andb_true_iff.
  repeat rewrite N.leb_le. repeat rewrite N.eqb_eq. lia.
Qed.

Lemma unreserved_not_surrogate (c : char16) :
  uri_unreserved c = true ->
  is_high_surrogate c = false /\ is_low_surrogate c = false.
Proof.
  intros H. apply uri_unreserved_ascii in H.
  unfold is_high_surrogate, is_low_surrogate.
  split; apply andb_false_iff; left; apply N.leb_gt; lia.
Qed.

Lemma high_not_low (c : char16) :
  is_high_surrogate c = true -> is_low_surrogate c = false.
Proof.
  unfold is_high_surrogate, is_low_surrogate.
  rewrite andb_true_iff, andb_false_iff, !N.leb_le, N.leb_gt. lia.
Qed.

Lemma encodeURIComponent_cases : forall n s, length s <= n ->
  match encodeURIComponent s with
  | Return _ => isWellFormed s = true
  | Throw e => isWellFormed s = false /\ e = URIError (lit "URI malformed")
  end.
Proof.
  induction n as [|n IH]; intros s Hn.
  - destruct s; [reflexivity | simpl in Hn; lia].
  - destruct s as [|c s]; [reflexivity|]. cbn [length] in Hn.
    cbn [encodeURIComponent isWellFormed].
    destruct (uri_unreserved c) eqn:Eu.
    + destruct (unreserved_not_surrogate c Eu) as [-> ->]. cbn [negb andb].
      specialize (IH s ltac:(lia)).
      destruct (encodeURIComponent s); exact IH.
    + destruct (is_low_surrogate c) eqn:El.
      * split; [|reflexivity].
        destruct (is_high_surrogate c) eqn:Eh; [|reflexivity].
        apply high_not_low in Eh. congruence.
      * destruct (is_high_surrogate c) eqn:Eh.
        -- destruct s as [|d s]; [now split|]. cbn [length] in Hn.
           destruct (is_low_surrogate d); [|now split]. cbn [andb].
           specialize (IH s ltac:(lia)).
           destruct (encodeURIComponent s); exact IH.
        -- cbn [negb andb]. specialize (IH s ltac:(lia)).
           destruct (encodeURIComponent s); exact IH.
Qed.

(** X9.  [encodeURIComponent] returns exactly for the texts in which no
    surrogate stands alone; for every other text it throws the URIError. *)
Theorem encodeURIComponent_well_formed (s : jsstring) :
  match encodeURIComponent s with
  | Return _ => isWellFormed s = true
  | Throw e => isWellFormed s = false /\ e = URIError (lit "URI malformed")
  end.
Proof. apply (@encodeURIComponent_cases (length s) s), le_n. Qed.

Lemma upper_hex_safe (n : N) : (n < 16)%N -> uri_safe (upper_hex n) = true.
Proof.
  intros H. unfold uri_safe. apply orb_true_iff. left.
  assert (E : In n [0; 1; 2; 3; 4; 5; 6; 7; 8; 9; 10; 11; 12; 13; 14; 15]%N).
  { simpl. lia. }
  simpl in E. repeat destruct E as [<-|E]; try reflexivity. contradiction.
Qed.

Lemma percent_safe (b : N) : (b < 256)%N -> forallb uri_safe (percent b) = true.
Proof.
  intros H. unfold percent. cbn [forallb].
  rewrite !upper_hex_safe; [reflexivity | |].
  - apply N.mod_lt. discriminate.
  - apply N.Div0.div_lt_upper_bound. lia.
Qed.

Lemma percents_safe (bs : list N) :
  Forall (fun b => (b < 256)%N) bs ->
  forallb uri_safe (concat (map percent bs)) = true.
Proof.
  induction 1 as [|b bs Hb _ IH]; [reflexivity|].
  cbn [map concat]. rewrite forallb_app, percent_safe, IH by assumption.
  reflexivity.
Qed.

(** The UTF-8 bytes of a code point are bytes. *)
Lemma utf8_bytes (cp : N) :
  (cp < 1114112)%N -> Forall (fun b => (b < 256)%N) (utf8 cp).
Proof.
  intros H. unfold utf8.
  assert (H64 : forall x, (128 + x mod 64 < 256)%N).
  { intros x. pose proof (N.mod_lt x 64 ltac:(discriminate)). lia. }
  destruct (cp <? 128)%N eqn:E1; [apply N.ltb_lt in E1|apply N.ltb_ge in E1].
  { repeat constructor. lia. }
  destruct (cp <? 2048)%N eqn:E2; [apply N.ltb_lt in E2|apply N.ltb_ge in E2].
  { repeat constructor; [|apply H64].
    assert (cp / 64 < 32)%N by (apply N.Div0.div_lt_upper_bound; lia). lia. }
  destruct (cp <? 65536)%N eqn:E3; [apply N.ltb_lt in E3|apply N.ltb_ge in E3].
  { repeat constructor; try apply H64.
    assert (cp / 4096 < 16)%N by (apply N.Div0.div_lt_upper_bound; lia). lia. }
  repeat constructor; try apply H64.
  assert (cp / 262144 < 5)%N by (apply N.Div0.div_lt_upper_bound; lia). lia.
Qed.

Lemma encodeURIComponent_safe : forall n s t,
  length s <= n -> code_units s = true ->
  encodeURIComponent s = Return t -> forallb uri_safe t = true.
Proof.
  induction n as [|n IH]; intros s t Hn Hc E.
  - destruct s; [|simpl in Hn; lia]. now injection E as <-.
  - destruct s as [|c s]; [now injection E as <-|].
    cbn [length] in Hn. cbn [code_units forallb] in Hc.
    apply andb_true_iff in Hc as [Hc Hs]. apply N.ltb_lt in Hc.
    cbn [encodeURIComponent] in E.
    destruct (uri_unreserved c) eqn:Eu.
    + destruct (encodeURIComponent s) as [e|t'] eqn:Es; [discriminate|].
      injection E as <-. cbn [forallb]. unfold uri_safe at 1. rewrite Eu.
      apply (IH s t'); [lia | exact Hs | exact Es].
    + destruct (is_low_surrogate c) eqn:El; [discriminate|].
      destruct (is_high_surrogate c) eqn:Eh.
      * destruct s as [|d s]; [discriminate|].
        destruct (is_low_surrogate d) eqn:Ed; [|discriminate].
        cbn [length] in Hn. cbn [forallb] in Hs.
        apply andb_true_iff in Hs as [_ Hs].
        destruct (encodeURIComponent s) as [e|t'] eqn:Es; [discriminate|].
        injection E as <-. rewrite forallb_app.
        rewrite (IH s t') by (lia || assumption). rewrite andb_true_r.
        apply percents_safe, utf8_bytes.
        unfold is_high_surrogate, is_low_surrogate in Eh, Ed.
        apply andb_true_iff in Eh as [Eh1 Eh2].
        apply andb_true_iff in Ed as [Ed1 Ed2].
        apply N.leb_le in Eh1, Eh2, Ed1, Ed2. nia.
      * destruct (encodeURIComponent s) as [e|t'] eqn:Es; [discriminate|].
        injection E as <-. rewrite forallb_app.
        rewrite (IH s t') by (lia || assumption). rewrite andb_true_r.
        apply percents_safe, utf8_bytes. lia.
Qed.

(** X10.  The location and the search text travel as one query component.
    For a text of 16-bit code units without a lone surrogate, [getCurrent]
    and [searchLocations] each issue one fetch, and what follows the [=] in
    its URL is made of unreserved characters and [%XX] escapes only: no
    space, [&], [=], [#], [?], [/] or [+] of the text reaches the URL raw. *)
Theorem query_is_escaped (text : jsstring) :
  code_units text = true -> isWellFormed text = true ->
  exists q,
    encodeURIComponent text = Return q /\
    forallb uri_safe q = true /\
    fst (run_async (getCurrent text) [])
    = [mkRequest (lit "/api/weather/current?location=" ++ q)] /\
    fst (run_async (searchLocations text) [])
    = [mkRequest (lit "/api/locations/search?q=" ++ q)].
Proof.
  intros Hc Hw.
  pose proof (@encodeURIComponent_cases (length text) text (le_n _)) as H.
  destruct (encodeURIComponent text) as [e|q] eqn:E.
  - destruct H as [H _]. congruence.
  - exists q. split; [reflexivity|]. split.
    + apply (@encodeURIComponent_safe (length text) text q);
        [apply le_n | exact Hc | exact E].
    + unfold getCurrent, searchLocations. rewrite E. now split.
Qed.

Lemma query_is_escaped_witness :
  exists q,
    encodeURIComponent (lit "New York & Co #1?") = Return q /\
    forallb uri_safe q = true /\
    fst (run_async (getCurrent (lit "New York & Co #1?")) [])
    = [mkRequest (lit "/api/weather/current?location=" ++ q)] /\
    fst (run_async (searchLocations (lit "New York & Co #1?")) [])
    = [mkRequest (lit "/api/locations/search?q=" ++ q)].
Proof.
  apply (query_is_escaped (lit "New York & Co #1?")); vm_compute; reflexivity.
Defined.

(** * The component: timers, stale answers, failures *)

(** ** What leaves the timers alone *)

Ltac split_matches :=
  repeat match goal with
         | |- context [match ?x with _ => _ end] => destruct x
         end.

Lemma leaf_settled_timers (h : handler) (r : result json) (w : World) :
  timers (leaf_settled h r w) = timers w /\
  typingTimer (app (leaf_settled h r w)) = typingTimer (app w).
Proof.
  destruct h; cbn [leaf_settled update timers app]; split; try reflexivity;
    unfold nearby_settled, astronomy_settled, air_settled, search_settled;
    split_matches; reflexivity.
Qed.

Lemma start_with_timers settled0 (h : handler) (a : async json) (w : World) :
  (forall r w', timers (settled0 h r w') = timers w' /\
                typingTimer (app (settled0 h r w')) = typingTimer (app w')) ->
  timers (start_with settled0 h a w) = timers w /\
  typingTimer (app (start_with settled0 h a w)) = typingTimer (app w).
Proof.
  intros H. destruct a as [r|req k]; [apply H | now split].
Qed.

Lemma current_settled_timers (r : result json) (w : World) :
  timers (current_settled r w) = timers w /\
  typingTimer (app (current_settled r w)) = typingTimer (app w).
Proof.
  rewrite current_settled_app.
  split; [|destruct r; reflexivity].
  destruct r as [e|j]; [reflexivity|]. unfold current_settled.
  destruct (get (get (Some j) (lit "resolved")) (lit "latitude")) as [lat|];
    [|reflexivity].
  destruct (get (get (Some j) (lit "resolved")) (lit "longitude")) as [lon|];
    [|reflexivity].
  destruct (negb (nullish (Some lat)) && negb (nullish (Some lon)));
    reflexivity.
Qed.

Lemma settled_timers (h : handler) (r : result json) (w : World) :
  timers (settled h r w) = timers w /\
  typingTimer (app (settled h r w)) = typingTimer (app w).
Proof.
  destruct h; try apply leaf_settled_timers. apply current_settled_timers.
Qed.

Lemma start_timers (h : handler) (a : async json) (w : World) :
  timers (start h a w) = timers w /\
  typingTimer (app (start h a w)) = typingTimer (app w).
Proof. apply start_with_timers. intros. apply settled_timers. Qed.

Lemma fetchCurrentFor_timers (loc : jsstring) (w : World) :
  timers (fetchCurrentFor loc w) = timers w /\
  typingTimer (app (fetchCurrentFor loc w)) = typingTimer (app w).
Proof.
  unfold fetchCurrentFor.
  destruct (start_timers HCurrent (getCurrent loc) (update (setError []) w))
    as [Ht Hy].
  split; [rewrite Ht | rewrite Hy]; reflexivity.
Qed.

Lemma fetchCurrent_timers (w : World) :
  timers (fetchCurrent w) = timers w /\
  typingTimer (app (fetchCurrent w)) = typingTimer (app w).
Proof.
  unfold fetchCurrent.
  destruct (location (app w)) as [[| | |s| |]|]; try (split; reflexivity).
  destruct (trim s); [split; reflexivity | apply fetchCurrentFor_timers].
Qed.

Lemma chooseCand_timers (c : json) (autoFetch : bool) (w : World) :
  timers (chooseCand c autoFetch w) = timers w /\
  typingTimer (app (chooseCand c autoFetch w)) = typingTimer (app w).
Proof.
  unfold chooseCand.
  destruct c; try (split; reflexivity);
    destruct (get _ (lit "latitude")) as [[]|]; try (split; reflexivity);
    destruct (get _ (lit "longitude")) as [[]|]; try (split; reflexivity);
    destruct autoFetch; try (split; reflexivity);
    match goal with
    | |- context [fetchCurrentFor ?l ?w'] =>
        destruct (fetchCurrentFor_timers l w') as [Ht Hy];
        split; [rewrite Ht | rewrite Hy]; reflexivity
    end.
Qed.

Lemma remove_id_single {A : Type} (t : nat) (q : A) :
  remove_id t [(t, q)] = [].
Proof. unfold remove_id. simpl. now rewrite Nat.eqb_refl. Qed.

(** After [scheduleSuggest(q)] the one pending timeout, if any, is the new one. *)
Lemma scheduleSuggest_timers (q : jsstring) (w : World) :
  debounced w ->
  timers (scheduleSuggest q w)
  = (if isWordyQuery q then [(next_id w, q)] else []) /\
  (isWordyQuery q = true ->
   typingTimer (app (scheduleSuggest q w)) = Some (next_id w)).
Proof.
  intros Hd. unfold scheduleSuggest.
  assert (Hc : timers match typingTimer (app w) with
                      | Some t => clearTimeout t w
                      | None => w
                      end = []).
  { destruct Hd as [H|(t & q0 & H & Ht)].
    - destruct (typingTimer (app w)); cbn [clearTimeout timers]; rewrite H;
        reflexivity.
    - rewrite Ht. cbn [clearTimeout timers]. rewrite H. apply remove_id_single. }
  assert (Hn : next_id match typingTimer (app w) with
                       | Some t => clearTimeout t w
                       | None => w
                       end = next_id w).
  { destruct (typingTimer (app w)); reflexivity. }
  destruct (isWordyQuery q); cbn [negb].
  - unfold setTimeout. cbn [update timers app typingTimer setTypingTimer].
    rewrite Hc, Hn. now split.
  - cbn [update timers]. split; [exact Hc | discriminate].
Qed.

Lemma step_debounced (e : event) (w : World) :
  debounced w -> debounced (step e w).
Proof.
  intros Hd.
  assert (Hkeep : forall w', timers w' = timers w /\
                             typingTimer (app w') = typingTimer (app w) ->
                             debounced w').
  { intros w' [Ht Hy]. unfold debounced. rewrite Ht, Hy. exact Hd. }
  destruct e as [v| | |c af|lat lon|msg|id|id o]; cbn [step].
  - assert (Hd' : debounced (update (setLocation (Some (JStr v))) w))
      by (apply Hkeep; now split).
    destruct (scheduleSuggest_timers v Hd') as [Ht Hy].
    unfold debounced. rewrite Ht.
    destruct (isWordyQuery v); [right | now left].
    eexists _, _. split; [reflexivity | now apply Hy].
  - apply Hkeep, fetchCurrent_timers.
  - apply Hkeep. now split.
  - apply Hkeep, chooseCand_timers.
  - apply Hkeep.
    destruct (fetchCurrentFor_timers
                (Number_toFixed lat 4 ++ lit "," ++ Number_toFixed lon 4)
                (update (setLocation
                           (Some (JStr (Number_toFixed lat 4 ++ lit ","
                                        ++ Number_toFixed lon 4)))) w))
      as [Ht Hy].
    now split.
  - apply Hkeep. now split.
  - destruct (find_id id (timers w)) as [q|] eqn:E; [|exact Hd].
    left. destruct (start_timers HSearch (searchLocations q) (clearTimeout id w))
      as [Ht _].
    rewrite Ht. cbn [clearTimeout timers].
    destruct Hd as [H|(t & q0 & H & _)]; rewrite H in *; [reflexivity|].
    simpl in E. destruct (t =? id)%nat eqn:Et; [|discriminate].
    apply Nat.eqb_eq in Et. subst t. apply remove_id_single.
  - destruct (find_id id (inflight w)) as [[h k]|]; [|exact Hd].
    apply Hkeep.
    destruct (start_timers h (k o)
                (mkWorld (app w) (requests w) (remove_id id (inflight w))
                         (timers w) (next_id w) (uncaught w))) as [Ht Hy].
    now split.
Qed.

Lemma run_snoc (es : list event) (e : event) (w : World) :
  run (es ++ [e]) w = step e (run es w).
Proof. unfold run. now rewrite fold_left_app. Qed.

Lemma run_debounced (es : list event) : forall w,
  debounced w -> debounced (run es w).
Proof.
  induction es as [|e es IH]; intros w Hd; [exact Hd|].
  apply IH. now apply step_debounced.
Qed.

(** X7.  Suggestions are debounced.  Whatever has happened since mount, one
    timeout is pending at most; and right after a change of the input the
    pending timeouts are the one set for that very text when it is free
    text, none otherwise: an earlier keystroke's timeout never survives. *)
Theorem suggest_debounced (es : list event) (a b : option jsstring) :
  length (timers (run es (mount a b))) <= 1 /\
  forall v,
    timers (run (es ++ [EInput v]) (mount a b))
    = if isWordyQuery v then [(next_id (run es (mount a b)), v)] else [].
Proof.
  assert (Hd : debounced (run es (mount a b))).
  { apply run_debounced. now left. }
  split.
  - destruct Hd as [H|(t & q & H & _)]; rewrite H; simpl; lia.
  - intros v. rewrite run_snoc. cbn [step].
    assert (Hd' : debounced (update (setLocation (Some (JStr v)))
                               (run es (mount a b)))).
    { destruct Hd as [H|(t & q & H & Ht)]; [now left | right].
      exists t, q. now split. }
    apply (scheduleSuggest_timers v Hd').
Qed.

(** ** A search that is already on its way *)

Lemma scheduleSuggest_inflight (q : jsstring) (w : World) :
  inflight (scheduleSuggest q w) = inflight w /\
  location (app (scheduleSuggest q w)) = location (app w).
Proof.
  unfold scheduleSuggest.
  destruct (typingTimer (app w)), (isWordyQuery q); now split.
Qed.

(** X8.  Nothing cancels a search once its timeout has fired.  Whatever the
    input is changed to while the fetch is in flight, an empty text or
    coordinates included, the answer still fills the candidates and opens
    the list. *)
Theorem search_in_flight_not_cancelled (w : World) (t : nat)
  (q enc v : jsstring) (r : Response) (xs : list json) :
  find_id t (timers w) = Some q ->
  encodeURIComponent q = Return enc ->
  ok r = true -> JSON_parse (text r) = Some (JArr xs) -> xs <> [] ->
  let w' := run [ETimer t; EInput v; ESettle (next_id w) (Responded r)] w in
  location (app w') = Some (JStr v) /\
  cands (app w') = JArr (firstn 8 xs) /\
  openSug (app w') = true.
Proof.
  intros Ht He Hok Hp Hne.
  cbn [run fold_left].
  set (w1 := step (ETimer t) w).
  assert (E1 : inflight w1
               = (next_id w, (HSearch, after_fetch)) :: inflight w).
  { unfold w1. cbn [step]. rewrite Ht. unfold searchLocations. rewrite He.
    reflexivity. }
  set (w2 := step (EInput v) w1).
  assert (E2 : inflight w2 = inflight w1 /\
               location (app w2) = Some (JStr v)).
  { unfold w2. cbn [step].
    destruct (scheduleSuggest_inflight v
                (update (setLocation (Some (JStr v))) w1)) as [Hi Hl].
    now split. }
  destruct E2 as [E2 Hl].
  cbn [step]. rewrite E2, E1. cbn [find_id]. rewrite Nat.eqb_refl.
  unfold after_fetch. cbn [bind]. rewrite (handle_ok r Hok), Hp.
  cbn [start start_with settled leaf_settled update app search_settled
       slice_0_8 setOpenSug setCands location cands openSug].
  repeat split; [exact Hl|].
  destruct xs; [congruence | reflexivity].
Qed.

Lemma search_in_flight_not_cancelled_witness :
  let w := step (EInput (lit "paris")) (mount None None) in
  let r := mkResponse 200 (json_text "[{'name':'Paris'}]") in
  let w' := run [ETimer 1; EInput (lit "48.85,2.35"); ESettle 2 (Responded r)]
                w in
  isWordyQuery (lit "48.85,2.35") = false /\
  location (app w') = Some (JStr (lit "48.85,2.35")) /\
  cands (app w')
  = JArr (firstn 8 [JObj [(lit "name", JStr (lit "Paris"))]]) /\
  openSug (app w') = true.
Proof.
  split; [vm_compute; reflexivity|].
  apply (@search_in_flight_not_cancelled
           (step (EInput (lit "paris")) (mount None None)) 1
           (lit "paris") (lit "paris") (lit "48.85,2.35")
           (mkResponse 200 (json_text "[{'name':'Paris'}]"))
           [JObj [(lit "name", JStr (lit "Paris"))]]);
    try (vm_compute; reflexivity).
  discriminate.
Defined.

(** ** [fetchCurrentFor] from the call to the answer *)

Lemma fetchCurrentFor_issued (loc enc : jsstring) (w : World) :
  encodeURIComponent loc = Return enc ->
  fetchCurrentFor loc w
  = mkWorld (setError [] (app w))
            (requests w ++ [mkRequest (lit "/api/weather/current?location="
                                       ++ enc)])
            ((next_id w, (HCurrent, after_fetch)) :: inflight w)
            (timers w) (S (next_id w)) (uncaught w).
Proof.
  intros E. unfold fetchCurrentFor, getCurrent. rewrite E. reflexivity.
Qed.

Lemma settle_newest a rq id (h : handler) k infl tm n u (o : fetch_outcome) :
  step (ESettle id o) (mkWorld a rq ((id, (h, k)) :: infl) tm n u)
  = start h (k o)
      (mkWorld a rq (remove_id id ((id, (h, k)) :: infl)) tm n u).
Proof. cbn [step inflight find_id]. now rewrite Nat.eqb_refl. Qed.

(** X13.  A weather fetch that fails changes nothing but the error.  When
    the fetch of [fetchCurrentFor] is rejected or answered outside 2xx, the
    weather shown before, the places, the astronomy and the air quality all
    stay as they were, no further fetch is issued, and the error is
    [cleanErr] of what [getCurrent] threw. *)
Theorem failed_fetch_keeps_weather (w : World) (loc enc : jsstring)
  (o : fetch_outcome) :
  encodeURIComponent loc = Return enc -> rejects o ->
  let w' := step (ESettle (next_id w) o) (fetchCurrentFor loc w) in
  let e := match o with
           | NetworkError e => e
           | Responded r => Error (failure_text r)
           end in
  error (app w') = cleanErr e /\
  current (app w') = current (app w) /\
  pois (app w') = pois (app w) /\
  astro (app w') = astro (app w) /\
  air (app w') = air (app w) /\
  requests w'
  = requests w ++ [mkRequest (lit "/api/weather/current?location=" ++ enc)] /\
  uncaught w' = uncaught w.
Proof.
  intros E Ho. rewrite (@fetchCurrentFor_issued loc enc w E), settle_newest.
  assert (Hk : after_fetch o
               = Done (Throw match o with
                             | NetworkError e => e
                             | Responded r => Error (failure_text r)
                             end)).
  { unfold after_fetch. destruct o as [e|r]; [reflexivity|].
    cbn [bind]. simpl in Ho. now rewrite (handle_not_ok r Ho). }
  rewrite Hk. cbv zeta. now repeat split.
Qed.

Lemma failed_fetch_keeps_weather_witness :
  let w := mount (Some (lit "Atlantis")) None in
  let r := mkResponse 404 (json_text "{'detail':'No such place'}") in
  let w' := step (ESettle 1 (Responded r))
                 (fetchCurrentFor (lit "Atlantis") w) in
  cleanErr (Error (failure_text r)) = lit "No such place" /\
  error (app w') = cleanErr (Error (failure_text r)) /\
  current (app w') = current (app w) /\
  pois (app w') = pois (app w) /\
  astro (app w') = astro (app w) /\
  air (app w') = air (app w) /\
  requests w'
  = requests w
    ++ [mkRequest (lit "/api/weather/current?location=" ++ lit "Atlantis")] /\
  uncaught w' = uncaught w.
Proof.
  split; [vm_compute; reflexivity|].
  apply (@failed_fetch_keeps_weather
           (mount (Some (lit "Atlantis")) None)
           (lit "Atlantis") (lit "Atlantis")
           (Responded (mkResponse 404
                         (json_text "{'detail':'No such place'}"))));
    vm_compute; reflexivity.
Defined.

(** X14.  A location with a lone surrogate never reaches the network:
    [encodeURIComponent] throws inside [getCurrent], the [catch] of
    [fetchCurrentFor] takes the URIError, no fetch is issued, and the error
    shown carries the name of the exception. *)
Theorem malformed_location_no_request (w : World) (loc : jsstring) :
  isWellFormed loc = false ->
  let w' := fetchCurrentFor loc w in
  requests w' = requests w /\ inflight w' = inflight w /\
  error (app w') = lit "URIError: URI malformed" /\
  current (app w') = current (app w).
Proof.
  intros H.
  pose proof (@encodeURIComponent_cases (length loc) loc (le_n _)) as E.
  unfold fetchCurrentFor, getCurrent.
  destruct (encodeURIComponent loc) as [e|q]; [|congruence].
  destruct E as [_ ->]. now repeat split.
Qed.

Lemma malformed_location_no_request_witness :
  let w := fetchCurrentFor [55357%N] (mount None None) in
  requests w = [] /\ inflight w = [] /\
  error (app w) = lit "URIError: URI malformed" /\
  current (app w) = JNull.
Proof.
  apply (malformed_location_no_request (mount None None) [55357%N]).
  vm_compute. reflexivity.
Defined.



(** ** The unit *)

(** X16.  Any unit other than "f" reads as metric.  With a stored unit that
    is neither "c" nor "f", temperatures and winds are formatted as for "c",
    and the first click on the toggle sets "c": the display does not
    change. *)
Theorem unknown_unit_reads_metric (w : World) :
  str_eqb (unit (app w)) (lit "c") = false ->
  str_eqb (unit (app w)) (lit "f") = false ->
  let w' := step EToggleUnit w in
  unit (app w') = lit "c" /\
  forall x,
    fmtTemp x (unit (app w)) = fmtTemp x (lit "c") /\
    fmtWind x (unit (app w)) = fmtWind x (lit "c") /\
    fmtTemp x (unit (app w')) = fmtTemp x (unit (app w)) /\
    fmtWind x (unit (app w')) = fmtWind x (unit (app w)).
Proof.
  intros Hc Hf. cbn [step update app]. rewrite Hc. cbn [unit setUnit].
  split; [reflexivity|]. intros x. unfold fmtTemp, fmtWind. rewrite Hf.
  change (str_eqb (lit "c") (lit "f")) with false.
  destruct x; now repeat split.
Qed.

Lemma unknown_unit_reads_metric_witness :
  let w := mount None (Some (lit "F")) in
  unit (app w) = lit "F" /\
  unit (app (step EToggleUnit w)) = lit "c" /\
  fmtTemp (Num 20) (unit (app w)) = fmtTemp (Num 20) (lit "c").
Proof.
  split; [reflexivity|].
  destruct (@unknown_unit_reads_metric (mount None (Some (lit "F"))))
    as [Hu Hx]; [vm_compute; reflexivity | vm_compute; reflexivity |].
  split; [exact Hu | apply (Hx (Num 20))].
Defined.

(** * Fixed-point texts and the coordinates the component writes *)

Lemma to_ratio_sign (x : number) (s : bool) (num den : Z) :
  to_ratio x = Some (s, num, den) -> (0 <= num /\ 0 < den)%Z.
Proof.
  unfold to_ratio. destruct (Prim2SF x) as [z| | |z m e]; try discriminate.
  - intros E. injection E as _ <- <-. lia.
  - destruct (0 <=? e)%Z eqn:He; intros E; injection E as _ <- <-.
    + apply Z.leb_le in He. split; [|lia].
      pose proof (Z.pow_nonneg 2 e ltac:(lia)) as Hp.
      destruct (2 ^ e)%Z; lia.
    + apply Z.leb_gt in He. split; [lia|].
      apply Z.pow_pos_nonneg; lia.
Qed.

Lemma digit_of_mod (n : Z) : is_digit (Z.to_N (48 + n mod 10)) = true.
Proof.
  pose proof (Z.mod_pos_bound n 10 ltac:(lia)) as H.
  unfold is_digit. apply andb_true_iff. split; apply N.leb_le; lia.
Qed.

Lemma dec_digits_aux_digits (fuel : nat) : forall n acc,
  forallb is_digit acc = true ->
  forallb is_digit (dec_digits_aux fuel n acc) = true.
Proof.
  induction fuel as [|fuel IH]; intros n acc Hacc; [exact Hacc|].
  cbn [dec_digits_aux].
  assert (H' : forallb is_digit (Z.to_N (48 + n mod 10) :: acc) = true).
  { cbn [forallb]. now rewrite digit_of_mod, Hacc. }
  destruct (n <? 10)%Z; [exact H' | now apply IH].
Qed.

Lemma dec_digits_aux_length (fuel : nat) : forall n acc,
  length acc <= length (dec_digits_aux fuel n acc).
Proof.
  induction fuel as [|fuel IH]; intros n acc; [apply le_n|].
  cbn [dec_digits_aux]. destruct (n <? 10)%Z; cbn [length]; [lia|].
  specialize (IH (n / 10)%Z (Z.to_N (48 + n mod 10) :: acc)).
  cbn [length] in IH. lia.
Qed.

Lemma dec_digits_aux_grows (fuel : nat) (n : Z) (acc : jsstring) :
  S (length acc) <= length (dec_digits_aux (S fuel) n acc).
Proof.
  change (dec_digits_aux (S fuel) n acc)
    with (if (n <? 10)%Z then Z.to_N (48 + n mod 10) :: acc
          else dec_digits_aux fuel (n / 10) (Z.to_N (48 + n mod 10) :: acc)).
  destruct (n <? 10)%Z; [apply le_n|].
  apply (dec_digits_aux_length fuel (n / 10) (Z.to_N (48 + n mod 10) :: acc)).
Qed.

Lemma dec_digits_digits (n : Z) :
  forallb is_digit (dec_digits n) = true /\ dec_digits n <> [].
Proof.
  unfold dec_digits. split; [now apply dec_digits_aux_digits|].
  intros E.
  pose proof (dec_digits_aux_grows (Z.to_nat (Z.log2 n)) n []) as H.
  rewrite E in H. cbn [length] in H. lia.
Qed.

Lemma zeros_digits (n : Z) :
  forallb is_digit (zeros n) = true /\ length (zeros n) = Z.to_nat n.
Proof.
  unfold zeros. split; [|apply repeat_length].
  induction (Z.to_nat n) as [|k IH]; [reflexivity | exact IH].
Qed.

Lemma forallb_firstn {A : Type} (p : A -> bool) (n : nat) (l : list A) :
  forallb p l = true -> forallb p (firstn n l) = true.
Proof.
  intros H. rewrite <- (firstn_skipn n l), forallb_app in H.
  now apply andb_true_iff in H.
Qed.

Lemma forallb_skipn {A : Type} (p : A -> bool) (n : nat) (l : list A) :
  forallb p l = true -> forallb p (skipn n l) = true.
Proof.
  intros H. rewrite <- (firstn_skipn n l), forallb_app in H.
  now apply andb_true_iff in H.
Qed.

(** [toFixed(f)], for [f] of one or more, on a number in the fixed range. *)
Lemma Number_toFixed_shape (x : number) (f : Z) :
  in_fixed_range x = true -> (0 < f)%Z ->
  fixed_text (Z.to_nat f) (Number_toFixed x f).
Proof.
  unfold in_fixed_range, Number_toFixed. intros Hr Hf.
  destruct (to_ratio x) as [[[s num] den]|] eqn:E; [|discriminate].
  apply Z.ltb_lt in Hr.
  replace (10 ^ 21 * den <=? num)%Z with false
    by (symmetry; apply Z.leb_gt; exact Hr).
  replace (f =? 0)%Z with false by (symmetry; apply Z.eqb_neq; lia).
  set (n := ((2 * num * 10 ^ f + den) / (2 * den))%Z).
  destruct (dec_digits_digits n) as [Hd Hne].
  destruct (zeros_digits (f + 1 - Z.of_nat (length (dec_digits n)))) as [Hz Hl].
  set (m := zeros (f + 1 - Z.of_nat (length (dec_digits n))) ++ dec_digits n).
  assert (Hm : forallb is_digit m = true).
  { unfold m. now rewrite forallb_app, Hz, Hd. }
  assert (Hk : Z.to_nat f + 1 <= length m).
  { unfold m. rewrite length_app, Hl. lia. }
  exists (if s && negb (num =? 0)%Z then lit "-" else []),
         (firstn (length m - Z.to_nat f) m),
         (skipn (length m - Z.to_nat f) m).
  repeat split.
  - destruct (s && negb (num =? 0)%Z); [now right | now left].
  - now apply forallb_firstn.
  - intros E0. apply (f_equal (@length _)) in E0.
    rewrite length_firstn in E0. cbn [length] in E0. lia.
  - now apply forallb_skipn.
  - rewrite length_skipn. lia.
Qed.

Lemma fixed_text_number (f : nat) (s : jsstring) :
  fixed_text f s -> number_text s.
Proof.
  intros (sgn & d1 & d2 & -> & Hs & H1 & Hne & H2 & _).
  exists sgn, d1, (lit "."), d2. repeat split; auto.
Qed.

(** X11.  The coordinates the component writes are coordinates to its own
    classifier.  For a latitude and a longitude that are finite and below
    [10^21], the text that [useMyLocation] puts into the input and that
    [chooseCand] fetches for, the two numbers at four decimals with a comma
    between, is accepted by [COORD_RE], so it is never taken for free text. *)
Theorem precise_coordinates_classified (lat lon : number) :
  in_fixed_range lat = true -> in_fixed_range lon = true ->
  let coords := Number_toFixed lat 4 ++ lit "," ++ Number_toFixed lon 4 in
  fixed_text 4 (Number_toFixed lat 4) /\
  fixed_text 4 (Number_toFixed lon 4) /\
  test COORD_RE coords = true /\
  isWordyQuery coords = false.
Proof.
  intros Hlat Hlon coords.
  pose proof (@Number_toFixed_shape lat 4 Hlat ltac:(lia)) as H1.
  pose proof (@Number_toFixed_shape lon 4 Hlon ltac:(lia)) as H2.
  change (Z.to_nat 4) with 4 in H1, H2.
  assert (Hc : test COORD_RE coords = true).
  { apply COORD_RE_pair, PAIR_language.
    exists (Number_toFixed lat 4), [], [], (Number_toFixed lon 4).
    repeat split; eauto using fixed_text_number. }
  repeat split; try assumption.
  now apply isWordyQuery_coord.
Qed.

Lemma precise_coordinates_classified_witness :
  let lat := 40.7128%float in
  let lon := (-74.006)%float in
  let coords := Number_toFixed lat 4 ++ lit "," ++ Number_toFixed lon 4 in
  coords = lit "40.7128,-74.0060" /\
  fixed_text 4 (Number_toFixed lat 4) /\
  fixed_text 4 (Number_toFixed lon 4) /\
  test COORD_RE coords = true /\
  isWordyQuery coords = false.
Proof.
  split; [vm_compute; reflexivity|].
  apply (precise_coordinates_classified 40.7128%float (-74.006)%float);
    vm_compute; reflexivity.
Defined.

(** X12.  [fmtPrecip] of a number in the fixed range reads as an optional
    minus, digits, a point and exactly one digit, followed by " mm"; a missing
    or null amount never reaches [toFixed]. *)
Theorem fmtPrecip_shape (mm : number) :
  in_fixed_range mm = true ->
  exists t, fmtPrecip (Num mm) = t ++ lit " mm" /\ fixed_text 1 t.
Proof.
  intros H. exists (Number_toFixed mm 1). split; [reflexivity|].
  apply (@Number_toFixed_shape mm 1 H). lia.
Qed.

Lemma fmtPrecip_shape_witness :
  fmtPrecip (Num 2.25) = lit "2.3 mm" /\
  exists t, fmtPrecip (Num 2.25) = t ++ lit " mm" /\ fixed_text 1 t.
Proof.
  split; [vm_compute; reflexivity|].
  apply (fmtPrecip_shape 2.25%float). vm_compute. reflexivity.
Defined.

(** * The saved records *)


Lemma handled_rejects (o : fetch_outcome) :
  rejects o -> handled o = Finished (Throw (rejection o)).
Proof.
  destruct o as [e|r]; [reflexivity|]. simpl. intros H. unfold handled.
  now rewrite (handle_not_ok r H).
Qed.


(** X17.  Update and Delete need a selection that is truthy.  With
    [selectedId] null, as on mount and after a delete, or missing, or [0] or
    the empty text, both handlers return at once: no call is made and nothing
    changes, the error included. *)
Theorem update_delete_need_selection (p : Page) (answers : list fetch_outcome) :
  truthy (selectedId p) = false ->
  run_handler onUpdate p answers = (p, [], true) /\
  run_handler onDelete p answers = (p, [], true).
Proof.
  intros H. unfold run_handler, onUpdate, onDelete.
  destruct (selectedId p) as [id|]; [rewrite H|]; now split.
Qed.

Lemma update_delete_need_selection_witness :
  let p := setSelectedId (Some (JNum 0)) (initial_page None None) in
  let answers := [Responded (mkResponse 200 (lit "{}"))] in
  run_handler onUpdate p answers = (p, [], true) /\
  run_handler onDelete p answers = (p, [], true).
Proof.
  apply (update_delete_need_selection
           (setSelectedId (Some (JNum 0)) (initial_page None None))
           [Responded (mkResponse 200 (lit "{}"))]).
  vm_compute. reflexivity.
Defined.



(** X19.  Create, when the call fails.  The error becomes [cleanErr] of what
    [createRecord] threw; the selection and the records stay, and the records
    are not listed again. *)
Theorem create_failure_reported (p : Page) (o : fetch_outcome)
  (rest : list fetch_outcome) :
  rejects o ->
  run_handler onCreate p (o :: rest)
  = (setPageError (cleanErr (rejection o)) p,
     [mkCall (lit "POST") (lit "/api/records") (Some (lit "application/json"))
             (Some (JSON_stringify (payload p)))],
     true).
Proof.
  intros Ho. unfold run_handler.
  cbn [onCreate await createRecord settle_all].
  now rewrite (handled_rejects o Ho).
Qed.

Lemma create_failure_reported_witness :
  let p := initial_page None None in
  let o := Responded (mkResponse 422 (json_text "{'detail':'Bad range'}")) in
  exists calls,
    run_handler onCreate p [o] = (setPageError (lit "Bad range") p, calls, true).
Proof.
  eexists.
  rewrite (@create_failure_reported (initial_page None None)
             (Responded (mkResponse 422 (json_text "{'detail':'Bad range'}")))
             []);
    [| vm_compute; reflexivity].
  vm_compute. reflexivity.
Defined.





(** * The forecast and what survives a reload *)

(** X22.  A day without a weather code is drawn as a clear day.  When
    [weather_code] is missing or null, is shorter than the day's index, or
    holds null there, the [??0] of the forecast makes the emoji that of code
    0, where [wcToEmoji] on the missing code itself gives the thermometer. *)
Theorem daily_code_missing_is_sun (weather_code : option json) (i : nat) :
  nullish (index weather_code i) = true ->
  daily_emoji weather_code i = emoji_sun /\
  wcToEmoji (index weather_code i) = emoji_thermometer /\
  emoji_sun <> emoji_thermometer.
Proof.
  intros H. unfold daily_emoji. rewrite H. split; [reflexivity|].
  split; [|discriminate].
  destruct (index weather_code i) as [[]|]; try discriminate; reflexivity.
Qed.

Lemma daily_code_missing_is_sun_witness :
  daily_emoji (Some (JArr [JNum 3; JNum 61])) 2 = emoji_sun /\
  wcToEmoji (index (Some (JArr [JNum 3; JNum 61])) 2) = emoji_thermometer /\
  emoji_sun <> emoji_thermometer.
Proof.
  apply (daily_code_missing_is_sun (Some (JArr [JNum 3; JNum 61])) 2).
  reflexivity.
Defined.

(** ** The unit never becomes empty *)

Lemma start_unit (h : handler) (a : async json) (w : World) :
  unit (app (start h a w)) = unit (app w).
Proof.
  destruct a as [r|req k]; [|reflexivity].
  unfold start, start_with, settled. destruct h;
    rewrite ?current_settled_app;
    unfold leaf_settled, update, nearby_settled, astronomy_settled,
      air_settled, search_settled; cbn [app];
    split_matches; reflexivity.
Qed.

Lemma fetchCurrentFor_unit (loc : jsstring) (w : World) :
  unit (app (fetchCurrentFor loc w)) = unit (app w).
Proof.
  unfold fetchCurrentFor.
  now rewrite (start_unit HCurrent (getCurrent loc) (update (setError []) w)).
Qed.

Lemma step_unit (e : event) (w : World) :
  unit (app (step e w))
  = match e with
    | EToggleUnit =>
        if str_eqb (unit (app w)) (lit "c") then lit "f" else lit "c"
    | _ => unit (app w)
    end.
Proof.
  destruct e as [v| | |c af|lat lon|msg|id|id o]; cbn [step].
  - unfold scheduleSuggest.
    destruct (typingTimer _), (negb (isWordyQuery v)); reflexivity.
  - unfold fetchCurrent.
    destruct (location (app w)) as [[| | |s| |]|]; try reflexivity.
    destruct (trim s); [reflexivity | apply fetchCurrentFor_unit].
  - reflexivity.
  - unfold chooseCand.
    destruct c; try reflexivity;
      destruct (get _ (lit "latitude")) as [[]|]; try reflexivity;
      destruct (get _ (lit "longitude")) as [[]|]; try reflexivity;
      destruct af; try reflexivity;
      match goal with
      | |- context [fetchCurrentFor ?l ?w'] =>
          now rewrite (fetchCurrentFor_unit l w')
      end.
  - match goal with
    | |- context [fetchCurrentFor ?l ?w'] =>
        now rewrite (fetchCurrentFor_unit l w')
    end.
  - reflexivity.
  - destruct (find_id id (timers w)) as [q|]; [|reflexivity].
    now rewrite (start_unit HSearch (searchLocations q) (clearTimeout id w)).
  - destruct (find_id id (inflight w)) as [[h k]|]; [|reflexivity].
    match goal with
    | |- context [start h (k o) ?w'] => now rewrite (start_unit h (k o) w')
    end.
Qed.

Lemma run_unit_nonempty (es : list event) : forall w,
  unit (app w) <> [] -> unit (app (run es w)) <> [].
Proof.
  induction es as [|e es IH]; intros w H; [exact H|].
  apply IH. rewrite step_unit.
  destruct e; try exact H. destruct (str_eqb _ _); discriminate.
Qed.

(** X23.  The unit and a location that is a text survive a reload.
    Whatever has happened since mount, the state built on the next mount from
    what the two effects stored has the same unit, which is never empty, and
    the same location when that is a text; any other location comes back as
    the text stored for it. *)
Theorem reload_restores (es : list event) (a b : option jsstring) :
  let s := app (run es (mount a b)) in
  unit s <> [] /\
  unit (reload s) = unit s /\
  location (reload s) = Some (JStr (saved_location s)) /\
  forall t, location s = Some (JStr t) -> location (reload s) = location s.
Proof.
  intros s.
  assert (Hu : unit s <> []).
  { apply run_unit_nonempty. cbn [mount app initial unit].
    destruct b as [[|c t]|]; discriminate. }
  split; [exact Hu|]. unfold reload, saved_unit, initial. cbn [unit location].
  split; [destruct (unit s); [congruence | reflexivity]|].
  assert (Hl : forall x : jsstring,
             match x with c :: t => c :: t | [] => [] end = x)
    by (now intros []).
  rewrite Hl. split; [reflexivity|].
  intros t Ht. rewrite Ht. unfold saved_location. rewrite Ht.
  now destruct t.
Qed.

(** * What is sent parses back *)

Lemma hex_value_hex_digit (n : N) :
  (n < 16)%N -> hex_value (hex_digit n) = Some n.
Proof.
  intros H.
  assert (E : In n [0; 1; 2; 3; 4; 5; 6; 7; 8; 9; 10; 11; 12; 13; 14; 15]%N).
  { simpl. lia. }
  simpl in E. repeat destruct E as [<-|E]; try reflexivity. contradiction.
Qed.

Lemma parse_chars_escape (e x : char16) (t acc : jsstring) :
  escape e = Some x -> (e =? 117)%N = false ->
  parse_chars (92%N :: e :: t) acc = parse_chars t (x :: acc).
Proof.
  intros He Hu. cbn [parse_chars].
  change (92 =? 34)%N with false. change (92 =? 92)%N with true. cbv iota.
  now rewrite Hu, He.
Qed.

Lemma parse_chars_unicode (c : char16) (t acc : jsstring) :
  (c < 65536)%N ->
  parse_chars (unicode_escape c ++ t) acc = parse_chars t (c :: acc).
Proof.
  intros Hc. unfold unicode_escape.
  change ((lit "\u" ++ [hex_digit (c / 4096); hex_digit ((c / 256) mod 16);
                         hex_digit ((c / 16) mod 16); hex_digit (c mod 16)])
          ++ t)
    with (92 :: 117 :: hex_digit (c / 4096) :: hex_digit ((c / 256) mod 16)
          :: hex_digit ((c / 16) mod 16) :: hex_digit (c mod 16) :: t)%N.
  cbn [parse_chars].
  change (92 =? 34)%N with false. change (92 =? 92)%N with true.
  change (117 =? 117)%N with true. cbv iota.
  assert (H16 : forall x, (x mod 16 < 16)%N).
  { intros x. apply N.mod_lt. discriminate. }
  rewrite !hex_value_hex_digit;
    [| apply H16 | apply H16 | apply H16
     | apply N.Div0.div_lt_upper_bound; lia].
  replace (4096 * (c / 4096) + 256 * ((c / 256) mod 16)
           + 16 * ((c / 16) mod 16) + c mod 16)%N with c; [reflexivity|].
  zify. Z.to_euclidean_division_equations. lia.
Qed.

Lemma parse_chars_plain (c : char16) (t acc : jsstring) :
  (c =? 34)%N = false -> (c =? 92)%N = false -> (c <? 32)%N = false ->
  parse_chars (c :: t) acc = parse_chars t (c :: acc).
Proof. intros H1 H2 H3. cbn [parse_chars]. now rewrite H1, H2, H3. Qed.

Lemma surrogate_plain (c : char16) :
  is_high_surrogate c || is_low_surrogate c = true ->
  (c =? 34)%N = false /\ (c =? 92)%N = false /\ (c <? 32)%N = false.
Proof.
  unfold is_high_surrogate, is_low_surrogate.
  rewrite orb_true_iff, !andb_true_iff, !N.leb_le, !N.eqb_neq, N.ltb_ge. lia.
Qed.

(** The characters [QuoteJSONString] writes read back as the text. *)
Lemma parse_chars_quote_chars : forall n s, length s <= n ->
  forall acc rest, code_units s = true ->
  parse_chars (quote_chars s ++ 34%N :: rest) acc = Some (rev acc ++ s, rest).
Proof.
  induction n as [|n IH]; intros s Hn acc rest Hc.
  { destruct s; [|simpl in Hn; lia]. cbn. now rewrite app_nil_r. }
  destruct s as [|c s]; [cbn; now rewrite app_nil_r|].
  cbn [length] in Hn. cbn [code_units forallb] in Hc.
  apply andb_true_iff in Hc as [Hc Hs]. apply N.ltb_lt in Hc.
  assert (Hnext : forall x, rev (x :: acc) ++ s = rev acc ++ x :: s).
  { intros x. cbn [rev]. now rewrite <- app_assoc. }
  assert (IHs : forall acc',
             parse_chars (quote_chars s ++ 34%N :: rest) acc'
             = Some (rev acc' ++ s, rest)).
  { intros acc'. apply IH; [lia | exact Hs]. }
  assert (Hesc : forall e x, escape e = Some x -> (e =? 117)%N = false ->
             parse_chars (([92%N; e] ++ quote_chars s) ++ 34%N :: rest) acc
             = Some (rev acc ++ x :: s, rest)).
  { intros e x He Hu. cbn [List.app].
    now rewrite (@parse_chars_escape e x _ _ He Hu), IHs, Hnext. }
  cbn [quote_chars].
  destruct (c =? 8)%N eqn:E8;
    [apply N.eqb_eq in E8; subst c; now apply (Hesc 98%N 8%N)|].
  destruct (c =? 9)%N eqn:E9;
    [apply N.eqb_eq in E9; subst c; now apply (Hesc 116%N 9%N)|].
  destruct (c =? 10)%N eqn:E10;
    [apply N.eqb_eq in E10; subst c; now apply (Hesc 110%N 10%N)|].
  destruct (c =? 12)%N eqn:E12;
    [apply N.eqb_eq in E12; subst c; now apply (Hesc 102%N 12%N)|].
  destruct (c =? 13)%N eqn:E13;
    [apply N.eqb_eq in E13; subst c; now apply (Hesc 114%N 13%N)|].
  destruct (c =? 34)%N eqn:E34;
    [apply N.eqb_eq in E34; subst c; now apply (Hesc 34%N 34%N)|].
  destruct (c =? 92)%N eqn:E92;
    [apply N.eqb_eq in E92; subst c; now apply (Hesc 92%N 92%N)|].
  assert (Huni : parse_chars ((unicode_escape c ++ quote_chars s)
                              ++ 34%N :: rest) acc
                 = Some (rev acc ++ c :: s, rest)).
  { now rewrite <- app_assoc, parse_chars_unicode, IHs, Hnext. }
  destruct (c <? 32)%N eqn:E32; [exact Huni|].
  destruct (is_high_surrogate c) eqn:Eh.
  - destruct s as [|d s'].
    + rewrite parse_chars_unicode by exact Hc. reflexivity.
    + destruct (is_low_surrogate d) eqn:Ed; [|exact Huni].
      cbn [length] in Hn. cbn [forallb] in Hs.
      apply andb_true_iff in Hs as [_ Hs'].
      destruct (surrogate_plain d) as (D1 & D2 & D3);
        [now rewrite Ed, orb_true_r|].
      cbn [List.app].
      rewrite (@parse_chars_plain c _ _ E34 E92 E32),
              (@parse_chars_plain d _ _ D1 D2 D3).
      rewrite IH by (lia || exact Hs'). cbn [rev].
      now rewrite <- !app_assoc.
  - destruct (is_low_surrogate c); [exact Huni|].
    cbn [List.app]. now rewrite (@parse_chars_plain c _ _ E34 E92 E32), IHs, Hnext.
Qed.

(** A quoted text at the head of the input is read as that text. *)
Lemma parse_value_quote (f : nat) (s rest : jsstring) :
  code_units s = true ->
  parse_value (S f) (quote s ++ rest) = Some (JStr s, rest).
Proof.
  intros Hc. unfold quote. cbn [parse_value List.app skip_ws].
  change (json_ws 34%N) with false. cbv iota. cbn [starts].
  change (34 =? 123)%N with false. change (34 =? 91)%N with false.
  change (34 =? 34)%N with true. cbv iota.
  rewrite <- app_assoc. cbn [List.app].
  pose proof (@parse_chars_quote_chars (length s) s (le_n _) [] rest Hc) as H.
  match goal with
  | |- context [parse_chars ?a ?b] =>
      replace (parse_chars a b) with (Some (s, rest)) by (symmetry; exact H)
  end.
  reflexivity.
Qed.

(** X24.  A text survives [JSON.stringify] and [JSON.parse], whatever it
    holds: quotes, backslashes, control characters, surrogates alone or in
    pairs. *)
Theorem JSON_text_round_trip (s : jsstring) :
  code_units s = true ->
  JSON_parse (JSON_stringify (JStr s)) = Some (JStr s).
Proof.
  intros Hc. unfold JSON_parse. cbn [JSON_stringify].
  rewrite (@JSON_parse_fuel 1 (quote s) (JStr s) []).
  - reflexivity.
  - rewrite <- (app_nil_r (quote s)). now apply parse_value_quote.
Qed.

Lemma JSON_text_round_trip_witness :
  let s := [34; 92; 10; 1; 55357; 56832; 56832; 233]%N in
  JSON_parse (JSON_stringify (JStr s)) = Some (JStr s).
Proof.
  apply (JSON_text_round_trip [34; 92; 10; 1; 55357; 56832; 56832; 233]%N).
  vm_compute. reflexivity.
Defined.




(** * Listing, the position, and the places *)


(** ** The request for the device's position *)

Lemma digit_unreserved (s : jsstring) :
  forallb is_digit s = true -> forallb uri_unreserved s = true.
Proof.
  intros H. rewrite forallb_forall in *. intros c Hc.
  unfold uri_unreserved. rewrite (H c Hc). cbn [orb]. now rewrite !orb_true_r.
Qed.

Lemma fixed_text_unreserved (f : nat) (s : jsstring) :
  fixed_text f s -> forallb uri_unreserved s = true.
Proof.
  intros (sgn & d1 & d2 & -> & Hs & H1 & _ & H2 & _).
  rewrite !forallb_app, (digit_unreserved _ H1), (digit_unreserved _ H2).
  destruct Hs as [->| ->]; reflexivity.
Qed.

(** Unreserved characters pass [encodeURIComponent] as they are. *)
Lemma encodeURIComponent_unreserved (s t t' : jsstring) :
  forallb uri_unreserved s = true ->
  encodeURIComponent t = Return t' ->
  encodeURIComponent (s ++ t) = Return (s ++ t').
Proof.
  intros Hs Ht. induction s as [|c s IH]; [exact Ht|].
  cbn [forallb] in Hs. apply andb_true_iff in Hs as [Hc Hs].
  cbn [List.app encodeURIComponent]. now rewrite Hc, (IH Hs).
Qed.

(** X27.  The request for the device's position.  For a latitude and a
    longitude in the fixed range, the geolocation callback puts the two
    numbers at four decimals into the input, clears the error, and issues
    one weather fetch whose query is that text with the comma escaped;
    encoding cannot fail on it. *)
Theorem position_request (lat lon : number) (w : World) :
  in_fixed_range lat = true -> in_fixed_range lon = true ->
  let coords := Number_toFixed lat 4 ++ lit "," ++ Number_toFixed lon 4 in
  let w' := step (EPosition lat lon) w in
  location (app w') = Some (JStr coords) /\
  error (app w') = [] /\
  requests w'
  = requests w
    ++ [mkRequest (lit "/api/weather/current?location="
                   ++ Number_toFixed lat 4 ++ lit "%2C"
                   ++ Number_toFixed lon 4)] /\
  find_id (next_id w) (inflight w') = Some (HCurrent, after_fetch).
Proof.
  intros Hlat Hlon coords w'.
  pose proof (@Number_toFixed_shape lat 4 Hlat ltac:(lia)) as H1.
  pose proof (@Number_toFixed_shape lon 4 Hlon ltac:(lia)) as H2.
  apply fixed_text_unreserved in H1, H2.
  assert (E : encodeURIComponent coords
              = Return (Number_toFixed lat 4 ++ lit "%2C"
                        ++ Number_toFixed lon 4)).
  { pose proof (@encodeURIComponent_unreserved
                  (Number_toFixed lon 4) [] [] H2 eq_refl) as E2.
    rewrite !app_nil_r in E2.
    unfold coords. apply encodeURIComponent_unreserved; [exact H1|].
    change (lit "," ++ Number_toFixed lon 4)
      with (44%N :: Number_toFixed lon 4).
    cbn [encodeURIComponent].
    change (uri_unreserved 44%N) with false.
    change (is_low_surrogate 44%N) with false.
    change (is_high_surrogate 44%N) with false. cbv iota.
    now rewrite E2. }
  unfold w'. cbn [step]. fold coords.
  rewrite (@fetchCurrentFor_issued coords _ _ E).
  cbn [app location error requests inflight find_id update setLocation
       setError next_id].
  rewrite Nat.eqb_refl. now repeat split.
Qed.

Lemma position_request_witness :
  let lat := 40.7128%float in
  let lon := (-74.006)%float in
  let w := mount None None in
  let coords := Number_toFixed lat 4 ++ lit "," ++ Number_toFixed lon 4 in
  let w' := step (EPosition lat lon) w in
  requests w'
  = [mkRequest (lit "/api/weather/current?location=40.7128%2C-74.0060")] /\
  location (app w') = Some (JStr coords) /\
  error (app w') = [] /\
  requests w'
  = requests w
    ++ [mkRequest (lit "/api/weather/current?location="
                   ++ Number_toFixed lat 4 ++ lit "%2C"
                   ++ Number_toFixed lon 4)] /\
  find_id (next_id w) (inflight w') = Some (HCurrent, after_fetch).
Proof.
  split; [vm_compute; reflexivity|].
  apply (@position_request 40.7128%float (-74.006)%float (mount None None));
    vm_compute; reflexivity.
Defined.

(** ** The places *)

Lemma nearby_settled_pois (r : result json) (s : AppState) :
  truthy (Some (pois s)) = true ->
  truthy (Some (pois (nearby_settled r s))) = true.
Proof.
  intros H. destruct r as [e|v]; [exact H|]. unfold nearby_settled.
  destruct v; try exact H; cbn [setPois pois];
    destruct (get _ (lit "items")) as [i|]; try reflexivity;
    destruct (truthy (Some i)) eqn:T; try exact T; reflexivity.
Qed.

Lemma start_pois (h : handler) (a : async json) (w : World) :
  truthy (Some (pois (app w))) = true ->
  truthy (Some (pois (app (start h a w)))) = true.
Proof.
  intros H. destruct a as [r|req k]; [|exact H].
  unfold start, start_with, settled. destruct h.
  - rewrite current_settled_app. now destruct r.
  - cbn [leaf_settled update app]. now apply nearby_settled_pois.
  - cbn [leaf_settled update app]. now destruct r.
  - cbn [leaf_settled update app]. now destruct r.
  - cbn [leaf_settled update app]. unfold search_settled.
    split_matches; exact H.
Qed.

Lemma step_pois (e : event) (w : World) :
  truthy (Some (pois (app w))) = true ->
  truthy (Some (pois (app (step e w)))) = true.
Proof.
  intros H.
  assert (Hf : forall loc w', truthy (Some (pois (app w'))) = true ->
                 truthy (Some (pois (app (fetchCurrentFor loc w')))) = true).
  { intros loc w' H'. unfold fetchCurrentFor. now apply start_pois. }
  destruct e as [v| | |c af|lat lon|msg|id|id o]; cbn [step].
  - unfold scheduleSuggest.
    destruct (typingTimer _), (negb (isWordyQuery v)); exact H.
  - unfold fetchCurrent.
    destruct (location (app w)) as [[| | |s| |]|]; try exact H.
    destruct (trim s); [exact H | now apply Hf].
  - exact H.
  - unfold chooseCand.
    destruct c; try exact H;
      destruct (get _ (lit "latitude")) as [[]|]; try exact H;
      destruct (get _ (lit "longitude")) as [[]|]; try exact H;
      destruct af; try exact H; now apply Hf.
  - now apply Hf.
  - exact H.
  - destruct (find_id id (timers w)) as [q|]; [|exact H]. now apply start_pois.
  - destruct (find_id id (inflight w)) as [[h k]|]; [|exact H].
    now apply start_pois.
Qed.

(** X28.  The places are never falsy.  Whatever the nearby service
    answers, [r.items||[]] keeps [pois] truthy from mount on: an answer
    without [items], or with [items] null, [0] or empty text, gives the
    empty list. *)
Theorem pois_never_falsy (es : list event) (a b : option jsstring) :
  truthy (Some (pois (app (run es (mount a b))))) = true.
Proof.
  assert (H : forall w, truthy (Some (pois (app w))) = true ->
                        truthy (Some (pois (app (run es w)))) = true).
  { induction es as [|e es IH]; intros w Hw; [exact Hw|].
    apply IH. now apply step_pois. }
  now apply H.
Qed.
